(** * go-shell: the process-lifecycle controller of [app.go]

    A shallow embedding of package [shell] (type [App] and its methods) and
    the properties of its start / wait / kill protocol.

    Go code is embedded as programs of a small free monad [prog]: a program
    is a tree of atomic actions (reads and writes of the fields of an [App],
    channel operations, calls into the operating system), with [Go] for the
    [go] statement and [defer_] for [defer].  Programs run either alone
    ([run]) or interleaved with the goroutines they spawned ([step],
    [exec]).  The operating system is a parameter: an arbitrary state
    machine answering the calls of [os/exec] and [syscall]. *)

From stdpp Require Import base list strings numbers option.

Open Scope Z_scope.

(** ** Values *)

(** [syscall.WaitStatus] on Linux: a 32-bit status word, low seven bits the
    terminating signal (0 when the process exited), bits 8..15 the exit
    code. *)
Module syscall.
Definition WaitStatus := Z.

Definition mask : Z := 0x7F.
Definition exited : Z := 0x00.
Definition stopped : Z := 0x7F.
Definition shift : Z := 8.

Definition Exited (w : WaitStatus) : bool := Z.land w mask =? exited.

Definition Signaled (w : WaitStatus) : bool :=
  negb (Z.land w mask =? stopped) && negb (Z.land w mask =? exited).

Definition ExitStatus (w : WaitStatus) : Z :=
  if negb (Exited w) then -1 else Z.land (Z.shiftr w shift) 0xFF.

Definition SIGKILL : Z := 9.
End syscall.

(** What [ProcessState.Sys()] returns: a [syscall.WaitStatus] on
    Unix and Windows, a [*syscall.Waitmsg] on Plan 9. *)
Inductive SysValue : Type :=
| SysWaitStatus (stat : syscall.WaitStatus)
| SysWaitmsg (msg : string).

(** Non-nil values of Go's [error] interface, by dynamic type.  A nil
    [error] is [None : option error]. *)
Inductive error : Type :=
| ExitError (sys : SysValue)      (* exec.ExitError, with what Sys() gives *)
| Errno (n : Z)                   (* syscall.Errno *)
| ErrorString (msg : string).     (* fmt.Errorf, errors.New, exec.Error ... *)

#[global] Instance SysValue_eq_dec : EqDecision SysValue.
Proof. solve_decision. Defined.
#[global] Instance error_eq_dec : EqDecision error.
Proof. solve_decision. Defined.

(** [type ExitCodeOrError struct { ExitCode int; Error error }] *)
Record ExitCodeOrError : Type := mkExitCodeOrError {
  ExitCode : Z;
  Error : option error
}.

#[global] Instance ExitCodeOrError_eq_dec : EqDecision ExitCodeOrError.
Proof. solve_decision. Defined.

(** The zero value of the struct, which a receive on a closed channel
    yields. *)
Definition zero_ExitCodeOrError : ExitCodeOrError := mkExitCodeOrError 0 None.

(** [os.Process]: only its [Pid] is read by this package. *)
Record Process : Type := mkProcess { Pid : Z }.

#[global] Instance Process_eq_dec : EqDecision Process.
Proof. solve_decision. Defined.

(** Streams ([io.Reader], [io.Writer]) are opaque handles. *)
Definition stream := nat.

(** The fields of [exec.Cmd] this package reads or writes.  A nil slice,
    interface or pointer is [None]. *)
Record Cmd : Type := mkCmd {
  Path : string;
  Args : list string;
  Env : option (list string);
  Stdin : option stream;
  Stdout : option stream;
  Stderr : option stream;
  Setpgid : bool;                 (* SysProcAttr.Setpgid *)
  Process_ : option Process       (* Cmd.Process *)
}.

#[global] Instance Cmd_eq_dec : EqDecision Cmd.
Proof. solve_decision. Defined.

(** Channels are references into the channel store. *)
Definition chan := nat.

(** [type App struct { cmd *exec.Cmd; waitCh chan ExitCodeOrError;
    exitCodeOrError atomic.Value }].  The command is owned by its [App], so
    it is held in place; a nil channel is [None]; an [atomic.Value] nothing
    was stored in is [None]. *)
Record App : Type := mkApp {
  cmd : Cmd;
  waitCh : option chan;
  exitCodeOrError : option ExitCodeOrError
}.

#[global] Instance App_eq_dec : EqDecision App.
Proof. solve_decision. Defined.

(** A pointer to an [App]: a reference into the store of controllers. *)
Definition ref := nat.

(** Field updates. *)
Definition set_Env (e : option (list string)) (c : Cmd) : Cmd :=
  mkCmd (Path c) (Args c) e (Stdin c) (Stdout c) (Stderr c) (Setpgid c) (Process_ c).
Definition set_Stdin (s : option stream) (c : Cmd) : Cmd :=
  mkCmd (Path c) (Args c) (Env c) s (Stdout c) (Stderr c) (Setpgid c) (Process_ c).
Definition set_Stdout (s : option stream) (c : Cmd) : Cmd :=
  mkCmd (Path c) (Args c) (Env c) (Stdin c) s (Stderr c) (Setpgid c) (Process_ c).
Definition set_Stderr (s : option stream) (c : Cmd) : Cmd :=
  mkCmd (Path c) (Args c) (Env c) (Stdin c) (Stdout c) s (Setpgid c) (Process_ c).
Definition set_Setpgid (b : bool) (c : Cmd) : Cmd :=
  mkCmd (Path c) (Args c) (Env c) (Stdin c) (Stdout c) (Stderr c) b (Process_ c).
Definition set_Process (p : option Process) (c : Cmd) : Cmd :=
  mkCmd (Path c) (Args c) (Env c) (Stdin c) (Stdout c) (Stderr c) (Setpgid c) p.

Definition set_cmd (f : Cmd -> Cmd) (a : App) : App :=
  mkApp (f (cmd a)) (waitCh a) (exitCodeOrError a).
Definition set_waitCh (c : option chan) (a : App) : App :=
  mkApp (cmd a) c (exitCodeOrError a).
Definition set_exitCodeOrError (v : option ExitCodeOrError) (a : App) : App :=
  mkApp (cmd a) (waitCh a) v.

(** Go's [append(s, xs...)]: appending nothing to a nil slice leaves it
    nil. *)
Definition append (s : option (list string)) (xs : list string)
  : option (list string) :=
  match s, xs with
  | None, [] => None
  | None, _ => Some xs
  | Some l, _ => Some (l ++ xs)
  end.

(** The double-quote character, for the messages of [fmt.Errorf]. *)
Definition dquote : string := String (Ascii.ascii_of_nat 34) EmptyString.

(** ** Calls into the operating system and the Go runtime library *)

Inductive syscall_ : Type :=
| SysLookPath (file : string)         (* exec.LookPath *)
| SysEnviron                          (* os.Environ *)
| SysStart (c : Cmd)                  (* the launch inside exec.Cmd.Start *)
| SysWait (p : option Process)        (* the reaping inside exec.Cmd.Wait *)
| SysGetpgid (pid : Z)                (* syscall.Getpgid *)
| SysKill (pid : Z) (sig : Z)         (* syscall.Kill *)
| SysProcessKill (p : Process).       (* os.Process.Kill *)

#[global] Instance syscall_eq_dec : EqDecision syscall_.
Proof. solve_decision. Defined.

Definition sysret (s : syscall_) : Type :=
  match s with
  | SysLookPath _ => option string        (* the resolved path, if any *)
  | SysEnviron => list string
  | SysStart _ => (Process + error)%type
  | SysWait _ => option error
  | SysGetpgid _ => (Z * option error)%type
  | SysKill _ _ => option error
  | SysProcessKill _ => option error
  end.

(** ** Atomic actions of a goroutine *)

Inductive action : Type :=
| Sys (s : syscall_)
| NewObj (a : App)                         (* &App{...} *)
| GetCmd (app : ref)                       (* read app.cmd.<field> *)
| SetEnv (app : ref) (e : option (list string))
| SetStdin (app : ref) (s : option stream)
| SetStdout (app : ref) (s : option stream)
| SetStderr (app : ref) (s : option stream)
| SetProcess (app : ref) (p : option Process)
| GetWaitCh (app : ref)                    (* read app.waitCh *)
| SetWaitCh (app : ref) (c : option chan)  (* app.waitCh = c *)
| AtomicStore (app : ref) (v : ExitCodeOrError)  (* app.exitCodeOrError.Store *)
| AtomicLoad (app : ref)                   (* app.exitCodeOrError.Load *)
| MakeChan                                 (* make(chan ExitCodeOrError) *)
| Send (c : option chan) (v : ExitCodeOrError)   (* c <- v *)
| Recv (c : option chan)                   (* v, ok := <-c *)
| Close (c : option chan).                 (* close(c) *)

#[global] Instance action_eq_dec : EqDecision action.
Proof. solve_decision. Defined.

Definition resp (a : action) : Type :=
  match a with
  | Sys s => sysret s
  | NewObj _ => ref
  | GetCmd _ => Cmd
  | GetWaitCh _ => option chan
  | AtomicLoad _ => option ExitCodeOrError
  | MakeChan => chan
  | Recv _ => (ExitCodeOrError * bool)%type
  | _ => unit
  end.

(** ** Programs *)

(** A goroutine's code.  [Act a k h] performs the atomic action [a] and
    goes on as [k x] with its result [x]; if the action raises a run-time
    panic with message [m] (send on a closed channel, nil dereference) the
    goroutine unwinds as [h m].  [Go child k] is [go child(); k]. *)
Inductive prog (R : Type) : Type :=
| Ret (r : R)
| Panic (m : string)
| Act (a : action) (k : resp a -> prog R) (h : string -> prog R)
| Go (child : prog unit) (k : prog R).

Arguments Ret {R} r.
Arguments Panic {R} m.
Arguments Act {R} a k h.
Arguments Go {R} child k.

Fixpoint bind {A B : Type} (p : prog A) (f : A -> prog B) : prog B :=
  match p with
  | Ret r => f r
  | Panic m => Panic m
  | Act a k h => Act a (fun x => bind (k x) f) (fun m => bind (h m) f)
  | Go child k => Go child (bind k f)
  end.

(** [call a]: perform one action; a panic it raises propagates. *)
Definition call (a : action) : prog (resp a) := Act a Ret Panic.

(** [defer_ cleanup body]: the body of a function that starts with
    [defer cleanup]: the cleanup runs when the body returns and when it
    panics, and the return value or the panic then goes on to the caller. *)
Fixpoint defer_ {R : Type} (cleanup : prog unit) (body : prog R) : prog R :=
  match body with
  | Ret r => bind cleanup (fun _ => Ret r)
  | Panic m => bind cleanup (fun _ => Panic m)
  | Act a k h => Act a (fun x => defer_ cleanup (k x)) (fun m => defer_ cleanup (h m))
  | Go child k => Go child (defer_ cleanup k)
  end.

Declare Scope prog_scope.
Delimit Scope prog_scope with prog.
Bind Scope prog_scope with prog.

Notation "x <- p ;; q" := (bind p (fun x => q))
  (at level 100, p at next level, right associativity) : prog_scope.
Notation "p ;; q" := (bind p (fun _ => q))
  (at level 100, right associativity) : prog_scope.

Open Scope prog_scope.

(** ** The world: controllers, channels, operating system *)

(** Channels of this package are unbuffered: a channel is open or
    closed, and a value passes from a sender to a receiver in one joint
    step. *)
Inductive chan_state : Type := ChOpen | ChClosed.

#[global] Instance chan_state_eq_dec : EqDecision chan_state.
Proof. solve_decision. Defined.

Record world (os_state : Type) : Type := mkWorld {
  apps : list App;
  chans : list chan_state;
  os : os_state
}.

Arguments mkWorld {os_state} apps chans os.
Arguments apps {os_state} w.
Arguments chans {os_state} w.
Arguments os {os_state} w.

(** What an attempt at an action gives: a result and a new world, a
    run-time panic, or nothing yet (the goroutine is blocked). *)
Inductive result (W X : Type) : Type :=
| Value (x : X) (w : W)
| Fault (m : string)
| Blocked.

Arguments Value {W X} x w.
Arguments Fault {W X} m.
Arguments Blocked {W X}.

Definition nil_dereference : string :=
  "invalid memory address or nil pointer dereference".
Definition send_on_closed : string := "send on closed channel".
Definition close_of_nil : string := "close of nil channel".
Definition close_of_closed : string := "close of closed channel".

(** What a goroutine has done: performed an action, had an action raise a
    panic, started a goroutine. *)
Inductive event : Type :=
| Did (a : action)
| Raised (a : action) (m : string)
| Spawned.

#[global] Instance event_eq_dec : EqDecision event.
Proof. solve_decision. Defined.

(** How a goroutine run on its own ends: it returns, it panics, or it
    waits on a channel operation that needs another goroutine. *)
Inductive ending (R : Type) : Type :=
| Returned (r : R)
| Panicked (m : string)
| Waiting (a : action).

Arguments Returned {R} r.
Arguments Panicked {R} m.
Arguments Waiting {R} a.

Record outcome (W R : Type) : Type := mkOutcome {
  final : ending R;
  after : W;
  events : list event;
  spawned : list (prog unit)
}.

Arguments mkOutcome {W R} final after events spawned.
Arguments final {W R} o.
Arguments after {W R} o.
Arguments events {W R} o.
Arguments spawned {W R} o.

Definition record_event {W R} (e : event) (o : outcome W R) : outcome W R :=
  mkOutcome (final o) (after o) (e :: events o) (spawned o).

Definition record_spawn {W R} (g : prog unit) (o : outcome W R) : outcome W R :=
  mkOutcome (final o) (after o) (Spawned :: events o) (g :: spawned o).

(** The outcome of one run followed by another, and of a run cut short. *)
Definition then_outcome {W A B} (o1 : outcome W A) (o2 : outcome W B)
  : outcome W B :=
  mkOutcome (final o2) (after o2) (events o1 ++ events o2)
            (spawned o1 ++ spawned o2).

Definition stop_outcome {W A B} (e : ending B) (o : outcome W A) : outcome W B :=
  mkOutcome e (after o) (events o) (spawned o).

(** Goroutines: the one that calls into the package, and those started
    since, in the order of their [go] statements. *)
Inductive tid : Type := Main | Worker (i : nat).

#[global] Instance tid_eq_dec : EqDecision tid.
Proof. solve_decision. Defined.

Record config (W R : Type) : Type := mkConfig {
  main : prog R;
  workers : list (prog unit);
  state : W;
  log : list (tid * event)
}.

Arguments mkConfig {W R} main workers state log.
Arguments main {W R} c.
Arguments workers {W R} c.
Arguments state {W R} c.
Arguments log {W R} c.

(** A scheduling decision: one goroutine takes a step of its own, or a
    sender and a receiver on the same channel meet. *)
Inductive label : Type :=
| Tau (t : tid)
| Sync (sender receiver : tid).

(** The send a goroutine is stopped at, with how it goes on. *)
Definition send_head {R} (p : prog R)
  : option (option chan * ExitCodeOrError * prog R) :=
  match p with
  | Act a k _ =>
      match a as a0
        return (resp a0 -> prog R) -> option (option chan * ExitCodeOrError * prog R)
      with
      | Send c v => fun k => Some (c, v, k tt)
      | _ => fun _ => None
      end k
  | _ => None
  end.

(** The receive a goroutine is stopped at, with how it goes on. *)
Definition recv_head {R} (p : prog R)
  : option (option chan * (ExitCodeOrError * bool -> prog R)) :=
  match p with
  | Act a k _ =>
      match a as a0
        return (resp a0 -> prog R)
               -> option (option chan * (ExitCodeOrError * bool -> prog R))
      with
      | Recv c => fun k => Some (c, k)
      | _ => fun _ => None
      end k
  | _ => None
  end.

Definition is_panic {R} (p : prog R) : bool :=
  match p with Panic _ => true | _ => false end.

(** How a goroutine that is alone gets to its first [go] statement, if
    not to its end before: what is left of it then, and the goroutine it
    starts. *)
Inductive solo (W R : Type) : Type :=
| SoloReturned (r : R) (w : W) (evs : list event)
| SoloPanicked (m : string)
| SoloWaiting
| SoloSpawned (rest : prog R) (child : prog unit) (w : W) (evs : list event).

Arguments SoloReturned {W R} r w evs.
Arguments SoloPanicked {W R} m.
Arguments SoloWaiting {W R}.
Arguments SoloSpawned {W R} rest child w evs.

Definition solo_events {W R} (pre : list event) (s : solo W R) : solo W R :=
  match s with
  | SoloReturned r w evs => SoloReturned r w (pre ++ evs)
  | SoloSpawned rest child w evs => SoloSpawned rest child w (pre ++ evs)
  | _ => s
  end.

(** An unrecovered panic in any goroutine ends the whole Go program. *)
Definition crashed {W R} (c : config W R) : bool :=
  is_panic (main c) || existsb is_panic (workers c).

(** ** Semantics and the package's code, over an arbitrary operating system *)

Section Shell.

(** The operating system with the Go runtime library on top: a state
    and, for each call, an answer and a next state. *)
Context {os_state : Type}.
Variable os_exec : forall s : syscall_, os_state -> sysret s * os_state.

(** [IsLinuxMacOSFreeBSD()] is declared in another file of the package:
    whether the platform can signal a whole process group. *)
Variable IsLinuxMacOSFreeBSD : bool.

Abbreviation world := (world os_state).
Abbreviation config := (config world).
Abbreviation outcome := (outcome world).

Definition update_app (app : ref) (f : App -> App) (w : world)
  : result world unit :=
  match apps w !! app with
  | Some a => Value tt (mkWorld (<[app:=f a]> (apps w)) (chans w) (os w))
  | None => Fault nil_dereference
  end.

(** One atomic action in a world. *)
Definition perform (a : action) (w : world) : result world (resp a) :=
  match a as a0 return result world (resp a0) with
  | Sys s =>
      let (r, o) := os_exec s (os w) in
      Value r (mkWorld (apps w) (chans w) o)
  | NewObj a =>
      Value (length (apps w)) (mkWorld (apps w ++ [a]) (chans w) (os w))
  | GetCmd app =>
      match apps w !! app with
      | Some a => Value (cmd a) w
      | None => Fault nil_dereference
      end
  | SetEnv app e => update_app app (set_cmd (set_Env e)) w
  | SetStdin app s => update_app app (set_cmd (set_Stdin s)) w
  | SetStdout app s => update_app app (set_cmd (set_Stdout s)) w
  | SetStderr app s => update_app app (set_cmd (set_Stderr s)) w
  | SetProcess app p => update_app app (set_cmd (set_Process p)) w
  | GetWaitCh app =>
      match apps w !! app with
      | Some a => Value (waitCh a) w
      | None => Fault nil_dereference
      end
  | SetWaitCh app c => update_app app (set_waitCh c) w
  | AtomicStore app v => update_app app (set_exitCodeOrError (Some v)) w
  | AtomicLoad app =>
      match apps w !! app with
      | Some a => Value (exitCodeOrError a) w
      | None => Fault nil_dereference
      end
  | MakeChan =>
      Value (length (chans w)) (mkWorld (apps w) (chans w ++ [ChOpen]) (os w))
  | Send c v =>
      (* a nil channel blocks for ever; an open one needs a receiver *)
      match c ≫= (chans w !!.) with
      | Some ChClosed => Fault send_on_closed
      | _ => Blocked
      end
  | Recv c =>
      (* a closed channel yields the zero value and ok = false *)
      match c ≫= (chans w !!.) with
      | Some ChClosed => Value (zero_ExitCodeOrError, false) w
      | _ => Blocked
      end
  | Close c =>
      match c with
      | None => Fault close_of_nil
      | Some i =>
          match chans w !! i with
          | Some ChOpen =>
              Value tt (mkWorld (apps w) (<[i:=ChClosed]> (chans w)) (os w))
          | _ => Fault close_of_closed
          end
      end
  end.

(** *** A goroutine on its own *)

(** Runs [p] to its end with no other goroutine scheduled in between. *)
Fixpoint run {R} (p : prog R) (w : world) : outcome R :=
  match p with
  | Ret r => mkOutcome (Returned r) w [] []
  | Panic m => mkOutcome (Panicked m) w [] []
  | Act a k h =>
      match perform a w with
      | Value x w' => record_event (Did a) (run (k x) w')
      | Fault m => record_event (Raised a m) (run (h m) w)
      | Blocked => mkOutcome (Waiting a) w [] []
      end
  | Go child k => record_spawn child (run k w)
  end.

(** Runs [p] up to its first [go] statement. *)
Fixpoint until_go {R} (p : prog R) (w : world) : solo world R :=
  match p with
  | Ret r => SoloReturned r w []
  | Panic m => SoloPanicked m
  | Act a k h =>
      match perform a w with
      | Value x w' => solo_events [Did a] (until_go (k x) w')
      | Fault m => solo_events [Raised a m] (until_go (h m) w)
      | Blocked => SoloWaiting
      end
  | Go child k => SoloSpawned k child w []
  end.

(** *** Goroutines interleaved *)

(** One step of a goroutine by itself: what it becomes, the new world,
    the goroutine it started, what to log. *)
Definition advance {R} (p : prog R) (w : world)
  : option (prog R * world * list (prog unit) * event) :=
  match p with
  | Ret _ | Panic _ => None
  | Act a k h =>
      match perform a w with
      | Value x w' => Some (k x, w', [], Did a)
      | Fault m => Some (h m, w, [], Raised a m)
      | Blocked => None
      end
  | Go child k => Some (k, w, [child], Spawned)
  end.

Definition is_open (c : option chan) (w : world) : bool :=
  match c ≫= (chans w !!.) with
  | Some ChOpen => true
  | _ => false
  end.

(** The meeting of a sender [s] and a receiver [r]: both stopped at an
    operation on the same open channel. *)
Definition rendezvous {A B} (s : prog A) (r : prog B) (w : world)
  : option (prog A * prog B * event * event) :=
  match send_head s, recv_head r with
  | Some (c, v, s'), Some (c', k) =>
      if decide (c = c') then
        if is_open c w
        then Some (s', k (v, true), Did (Send c v), Did (Recv c))
        else None
      else None
  | _, _ => None
  end.

Definition step {R} (l : label) (c : config R) : option (config R) :=
  if crashed c then None else
  match l with
  | Tau Main =>
      match advance (main c) (state c) with
      | Some (p, w, gs, e) =>
          Some (mkConfig p (workers c ++ gs) w (log c ++ [(Main, e)]))
      | None => None
      end
  | Tau (Worker i) =>
      match workers c !! i with
      | Some g =>
          match advance g (state c) with
          | Some (p, w, gs, e) =>
              Some (mkConfig (main c) (<[i:=p]> (workers c) ++ gs) w
                             (log c ++ [(Worker i, e)]))
          | None => None
          end
      | None => None
      end
  | Sync Main Main => None
  | Sync Main (Worker j) =>
      match workers c !! j with
      | Some r =>
          match rendezvous (main c) r (state c) with
          | Some (s', r', es, er) =>
              Some (mkConfig s' (<[j:=r']> (workers c)) (state c)
                             (log c ++ [(Main, es); (Worker j, er)]))
          | None => None
          end
      | None => None
      end
  | Sync (Worker i) Main =>
      match workers c !! i with
      | Some s =>
          match rendezvous s (main c) (state c) with
          | Some (s', r', es, er) =>
              Some (mkConfig r' (<[i:=s']> (workers c)) (state c)
                             (log c ++ [(Worker i, es); (Main, er)]))
          | None => None
          end
      | None => None
      end
  | Sync (Worker i) (Worker j) =>
      if decide (i = j) then None else
      match workers c !! i, workers c !! j with
      | Some s, Some r =>
          match rendezvous s r (state c) with
          | Some (s', r', es, er) =>
              Some (mkConfig (main c) (<[j:=r']> (<[i:=s']> (workers c)))
                             (state c)
                             (log c ++ [(Worker i, es); (Worker j, er)]))
          | None => None
          end
      | _, _ => None
      end
  end.

(** A schedule, decision by decision. *)
Fixpoint exec {R} (ls : list label) (c : config R) : option (config R) :=
  match ls with
  | [] => Some c
  | l :: ls' =>
      match step l c with
      | Some c' => exec ls' c'
      | None => None
      end
  end.

Definition reachable {R} (c c' : config R) : Prop :=
  exists ls, exec ls c = Some c'.

(** *** The package *)

(** Go's [int] is 64 bits wide on the platforms of this package; unary
    minus wraps around. *)
Definition int_wrap (z : Z) : Z := (z + 2 ^ 63) `mod` 2 ^ 64 - 2 ^ 63.
Definition int_neg (z : Z) : Z := int_wrap (- z).

(** [exec.Command(name, arg...)]: the path is the result of the [PATH]
    lookup when there is one, the name as given otherwise; [Args] starts
    with the name. *)
Definition exec_Command (name : string) (arg : list string) : prog Cmd :=
  lp <- call (Sys (SysLookPath name)) ;;
  Ret (mkCmd (default name lp) (name :: arg) None None None None false None).

(** [(c *exec.Cmd) Start()]: launches the process and, on success, sets
    [c.Process]. *)
Definition Cmd_Start (app : ref) : prog (option error) :=
  c <- call (GetCmd app) ;;
  r <- call (Sys (SysStart c)) ;;
  match r with
  | inl p => call (SetProcess app (Some p)) ;; Ret None
  | inr e => Ret (Some e)
  end.

(** [(c *exec.Cmd) Wait()] *)
Definition Cmd_Wait (app : ref) : prog (option error) :=
  c <- call (GetCmd app) ;;
  call (Sys (SysWait (Process_ c))).

(** [func NewApp(name string, args ...string) *App] *)
Definition NewApp (name : string) (args : list string) : prog ref :=
  cmd <- exec_Command name args ;;
  let cmd := set_Setpgid true cmd in
  call (NewObj (mkApp cmd None None)).

(** [func (app *App) AddEnvironments(env []string)] *)
Definition AddEnvironments (app : ref) (env : list string) : prog unit :=
  c <- call (GetCmd app) ;;
  match Env c with
  | None => e <- call (Sys SysEnviron) ;; call (SetEnv app (Some e))
  | Some _ => Ret tt
  end ;;
  c <- call (GetCmd app) ;;
  call (SetEnv app (append (Env c) env)).

(** [func (app *App) sendExitCodeOrError(exitCode int, err error)] *)
Definition sendExitCodeOrError (app : ref) (exitCode : Z) (err : option error)
  : prog unit :=
  let state := mkExitCodeOrError exitCode err in
  call (AtomicStore app state) ;;
  ch <- call (GetWaitCh app) ;;
  call (Send ch state).

(** The middle of [asyncWait]: from what [cmd.Wait()] returned to the
    [exitCode] and [err] passed on. *)
Definition exit_status (err : option error) : Z * option error :=
  match err with
  | None => (0, None)
  | Some e =>
      match e with
      | ExitError sys =>
          match sys with
          | SysWaitStatus stat =>
              (* reset error, since exitCode already not equal to zero *)
              (syscall.ExitStatus stat, None)
          | _ => (0, Some e)
          end
      | _ => (0, Some e)
      end
  end.

(** [func (app *App) asyncWait()]; the argument of the deferred [close]
    is read when the [defer] statement runs. *)
Definition asyncWait (app : ref) : prog unit :=
  ch <- call (GetWaitCh app) ;;
  defer_ (call (Close ch))
    (err <- Cmd_Wait app ;;
     let (exitCode, err) := exit_status err in
     sendExitCodeOrError app exitCode err).

(** [func (app *App) Start(stdin io.Reader, stdout, stderr io.Writer)
    (chan ExitCodeOrError, error)] *)
Definition Start (app : ref) (stdin stdout stderr : option stream)
  : prog (option chan * option error) :=
  match stdin with
  | Some _ => call (SetStdin app stdin)
  | None => Ret tt
  end ;;
  match stdout with
  | Some _ => call (SetStdout app stdout)
  | None => Ret tt
  end ;;
  match stderr with
  | Some _ => call (SetStderr app stderr)
  | None => Ret tt
  end ;;
  err <- Cmd_Start app ;;
  match err with
  | Some _ => Ret (None, err)
  | None =>
      ch <- call MakeChan ;;
      call (SetWaitCh app (Some ch)) ;;
      Go (asyncWait app)
         (ch <- call (GetWaitCh app) ;;
          Ret (ch, None))
  end.

Definition exited_already : error := ErrorString "Exited already".

(** [func (app *App) Wait() ExitCodeOrError] *)
Definition Wait (app : ref) : prog ExitCodeOrError :=
  ch <- call (GetWaitCh app) ;;
  r <- call (Recv ch) ;;
  let (st, ok) := r : ExitCodeOrError * bool in
  if ok then Ret st
  else Ret (mkExitCodeOrError 0 (Some exited_already)).

(** [func (app *App) Run(stdin io.Reader, stdout, stderr io.Writer)
    ExitCodeOrError] *)
Definition Run (app : ref) (stdin stdout stderr : option stream)
  : prog ExitCodeOrError :=
  r <- Start app stdin stdout stderr ;;
  match r.2 with
  | Some _ => Ret (mkExitCodeOrError 0 r.2)
  | None =>
      st <- Wait app ;;
      Ret st
  end.

Definition does_not_exist (path : string) : error :=
  ErrorString ("App " +:+ dquote +:+ path +:+ dquote +:+ " does not exist").

(** [func (app *App) CheckIsInstalled() error] *)
Definition CheckIsInstalled (app : ref) : prog (option error) :=
  c <- call (GetCmd app) ;;
  whApp <- NewApp "which" [Path c] ;;
  st <- Run whApp None None None ;;
  match Error st with
  | Some _ => Ret (Error st)
  | None =>
      if negb (ExitCode st =? 0) then
        c <- call (GetCmd app) ;;
        Ret (Some (does_not_exist (Path c)))
      else Ret None
  end.

Definition nil_assertion : string :=
  "interface conversion: interface {} is nil, not *shell.ExitCodeOrError".

(** [func (app *App) ExitCodeOrError() *ExitCodeOrError]: the type
    assertion has one result, so it panics when it fails. *)
Definition App_ExitCodeOrError (app : ref) : prog ExitCodeOrError :=
  ref <- call (AtomicLoad app) ;;
  match ref with
  | Some st => Ret st
  | None => Panic nil_assertion
  end.

(** [func (app *App) Kill() error].  Reading [Pid] through a nil
    [app.cmd.Process] panics, and so does [Kill] on a nil [*os.Process]. *)
Definition Kill (app : ref) : prog (option error) :=
  let wait : prog (option error) :=
    (state <- Wait app ;;
     Ret (Error state)) in
  if IsLinuxMacOSFreeBSD then
    c <- call (GetCmd app) ;;
    match Process_ c with
    | None => Panic nil_dereference
    | Some p =>
        r <- call (Sys (SysGetpgid (Pid p))) ;;
        let (pgid, err) := r : Z * option error in
        match err with
        | Some _ => Ret err
        | None =>
            err <- call (Sys (SysKill (int_neg pgid) syscall.SIGKILL)) ;;
            match err with
            | Some _ => Ret err
            | None => wait
            end
        end
    end
  else
    c <- call (GetCmd app) ;;
    match Process_ c with
    | None => Panic nil_dereference
    | Some p =>
        err <- call (Sys (SysProcessKill p)) ;;
        match err with
        | Some _ => Ret err
        | None => wait
        end
    end.

(** The command as [Start] launches it: a stream argument that is not
    nil replaces the field, a nil one leaves it; and the writes this
    takes. *)
Definition wired (stdin stdout stderr : option stream) (c : Cmd) : Cmd :=
  let c := match stdin with Some _ => set_Stdin stdin c | None => c end in
  let c := match stdout with Some _ => set_Stdout stdout c | None => c end in
  match stderr with Some _ => set_Stderr stderr c | None => c end.

Definition wiring (app : ref) (stdin stdout stderr : option stream)
  : list event :=
  match stdin with Some _ => [Did (SetStdin app stdin)] | None => [] end
  ++ match stdout with Some _ => [Did (SetStdout app stdout)] | None => [] end
  ++ match stderr with Some _ => [Did (SetStderr app stderr)] | None => [] end.

(** A caller that adds environments several times, call after call. *)
Fixpoint AddEnvironments_each (app : ref) (envs : list (list string))
  : prog unit :=
  match envs with
  | [] => Ret tt
  | env :: rest => AddEnvironments app env ;; AddEnvironments_each app rest
  end.

(** [Run] as the specification words it: [Start], then on success [Wait]
    and its value, on failure a terminal result with the launch error and
    exit code 0. *)
Definition Start_then_Wait (app : ref) (stdin stdout stderr : option stream)
  : prog ExitCodeOrError :=
  r <- Start app stdin stdout stderr ;;
  match r.2 with
  | Some err => Ret (mkExitCodeOrError 0 (Some err))
  | None => Wait app
  end.

(** What [CheckIsInstalled] makes of the result of the run, as the
    specification words it: the error of the run if it has one, an error
    that the application does not exist if the exit status is not zero,
    nil otherwise. *)
Definition installed_verdict (path : string) (st : ExitCodeOrError)
  : option error :=
  match Error st with
  | Some err => Some err
  | None =>
      if ExitCode st =? 0 then None else Some (does_not_exist path)
  end.

(** What the watcher, run up to its send, leaves as the cached terminal
    result of [app]. *)
Definition published (app : ref) (w : world) : option ExitCodeOrError :=
  apps (after (run (asyncWait app) w)) !! app ≫= exitCodeOrError.

End Shell.

(** ** The watcher's translation as the specification words it

    The specification separates wait errors that encode an abnormal-exit
    status (the process ran and produced a numeric exit code) from every
    other wait error, a process killed by a signal among them. *)
Definition encodes_exit_code (e : error) : option Z :=
  match e with
  | ExitError (SysWaitStatus stat) =>
      if syscall.Exited stat
      then Some (Z.land (Z.shiftr stat syscall.shift) 0xFF)
      else None
  | _ => None
  end.

Definition specified_result (err : option error) : ExitCodeOrError :=
  match err with
  | None => mkExitCodeOrError 0 None
  | Some e =>
      match encodes_exit_code e with
      | Some n => mkExitCodeOrError n None
      | None => mkExitCodeOrError 0 (Some e)
      end
  end.

(** ** The watcher among other goroutines

    The goroutines around a watcher that this development considers only
    look: they read fields, load the cached result, receive, and call into
    the operating system; they do not write to a controller, send, close or
    start goroutines.  [Wait], [Kill] and [ExitCodeOrError] are of this
    kind. *)
Definition passive (a : action) : bool :=
  match a with
  | Sys _ | GetCmd _ | GetWaitCh _ | AtomicLoad _ | Recv _ => true
  | _ => false
  end.

Fixpoint observer {R} (p : prog R) : Prop :=
  match p with
  | Ret _ | Panic _ => True
  | Act a k h =>
      passive a = true /\ (forall x, observer (k x)) /\ (forall m, observer (h m))
  | Go _ _ => False
  end.

(** What one goroutine did, out of the common log. *)
Definition events_of (t : tid) (l : list (tid * event)) : list event :=
  omap (fun te => if decide (te.1 = t) then Some te.2 else None) l.

(** How far a watcher is: the number of its atomic steps taken, with the
    exit code and the error it computed once it has them. *)
Inductive stage : Type :=
| W0 | W1 | W2
| W3 (c : Z) (e : option error)
| W4 (c : Z) (e : option error)
| W5 (c : Z) (e : option error)
| W6 (c : Z) (e : option error)
| W7 (c : Z) (e : option error).

Definition stage_index (s : stage) : nat :=
  match s with
  | W0 => 0 | W1 => 1 | W2 => 2 | W3 _ _ => 3 | W4 _ _ => 4
  | W5 _ _ => 5 | W6 _ _ => 6 | W7 _ _ => 7
  end.

Definition stage_pair (s : stage) : option ExitCodeOrError :=
  match s with
  | W0 | W1 | W2 => None
  | W3 c e | W4 c e | W5 c e | W6 c e | W7 c e => Some (mkExitCodeOrError c e)
  end.

(** A stage at or after another, with the same pair once there is one. *)
Definition follows (s s' : stage) : Prop :=
  (stage_index s <= stage_index s')%nat /\
  (forall v, stage_pair s = Some v -> stage_pair s' = Some v).

(** The values a program may return, and what it does until then, when
    its actions are answered within [answers] and raise panics within
    [faults]. *)
Fixpoint may_return {R} (answers : forall a : action, resp a -> Prop)
    (faults : action -> string -> Prop) (p : prog R) (evs : list event)
    (r : R) : Prop :=
  match p with
  | Ret r' => r' = r /\ evs = []
  | Panic _ => False
  | Act a k h =>
      (exists x evs',
         answers a x /\ evs = Did a :: evs' /\
         may_return answers faults (k x) evs' r) \/
      (exists m evs',
         faults a m /\ evs = Raised a m :: evs' /\
         may_return answers faults (h m) evs' r)
  | Go _ _ => False
  end.

Section Watcher.

(** The controller [app], which holds [A0] when its watcher starts, and
    its channel [ch]. *)
Variables (app : ref) (A0 : App) (ch : chan).

(** What is left of [asyncWait app] at each stage. *)
Definition watcher_at (s : stage) : prog unit :=
  match s with
  | W0 => asyncWait app
  | W1 =>
      defer_ (call (Close (Some ch)))
        (err <- Cmd_Wait app ;;
         let (exitCode, err) := exit_status err in
         sendExitCodeOrError app exitCode err)
  | W2 =>
      defer_ (call (Close (Some ch)))
        (err <- call (Sys (SysWait (Process_ (cmd A0)))) ;;
         let (exitCode, err) := exit_status err in
         sendExitCodeOrError app exitCode err)
  | W3 c e =>
      defer_ (call (Close (Some ch))) (sendExitCodeOrError app c e)
  | W4 c e =>
      defer_ (call (Close (Some ch)))
        (ch' <- call (GetWaitCh app) ;;
         call (Send ch' (mkExitCodeOrError c e)))
  | W5 c e =>
      defer_ (call (Close (Some ch)))
        (call (Send (Some ch) (mkExitCodeOrError c e)))
  | W6 _ _ => call (Close (Some ch)) ;; Ret tt
  | W7 _ _ => Ret tt
  end.

(** What the watcher has done by each stage. *)
Definition watcher_events (c : Z) (e : option error) : list event :=
  [Did (GetWaitCh app); Did (GetCmd app);
   Did (Sys (SysWait (Process_ (cmd A0))));
   Did (AtomicStore app (mkExitCodeOrError c e)); Did (GetWaitCh app);
   Did (Send (Some ch) (mkExitCodeOrError c e)); Did (Close (Some ch))].

Definition done_events (s : stage) : list event :=
  match s with
  | W0 => []
  | W1 => take 1 (watcher_events 0 None)
  | W2 => take 2 (watcher_events 0 None)
  | W3 c e => take 3 (watcher_events c e)
  | W4 c e => take 4 (watcher_events c e)
  | W5 c e => take 5 (watcher_events c e)
  | W6 c e => take 6 (watcher_events c e)
  | W7 c e => watcher_events c e
  end.

(** The controllers and the channels at each stage, from those at the
    start: the cached result is there from the store on, the channel is
    closed at the end. *)
Definition apps_at (apps0 : list App) (s : stage) : list App :=
  match s with
  | W0 | W1 | W2 | W3 _ _ => apps0
  | W4 c e | W5 c e | W6 c e | W7 c e =>
      <[app:=set_exitCodeOrError (Some (mkExitCodeOrError c e)) A0]> apps0
  end.

Definition chans_at (chans0 : list chan_state) (s : stage) : list chan_state :=
  match s with
  | W7 _ _ => <[ch:=ChClosed]> chans0
  | _ => chans0
  end.

(** What the actions of an observer beside the watcher have answered,
    told from the stage [s] of the watcher and the world [w] at the end:
    a read yields a field as it is at the end (observers and the watcher
    leave commands and channel fields alone); a receive yields either a
    pair from the channel [ch], which is then the pair of the watcher,
    sent already, or the zero value of a closed channel. *)
Definition answers {os_state} (s : stage) (w : world os_state) (a : action)
  : resp a -> Prop :=
  match a as a0 return resp a0 -> Prop with
  | Sys _ => fun _ => True
  | GetCmd x => fun r => exists a', apps w !! x = Some a' /\ r = cmd a'
  | GetWaitCh x => fun r => exists a', apps w !! x = Some a' /\ r = waitCh a'
  | AtomicLoad _ => fun _ => True
  | Recv c =>
      fun r =>
        (c = Some ch /\ r.2 = true /\ (6 <= stage_index s)%nat /\
         stage_pair s = Some r.1) \/
        (r = (zero_ExitCodeOrError, false) /\
         exists c', c = Some c' /\ chans w !! c' = Some ChClosed)
  | _ => fun _ => False
  end.

Definition faults {os_state} (w : world os_state) (a : action) (m : string)
  : Prop :=
  match a with
  | GetCmd x | GetWaitCh x | AtomicLoad x => apps w !! x = None
  | _ => False
  end.

(** What a step of a configuration does to its main goroutine: nothing,
    or one action of it is answered or raises a panic. *)
Definition main_moved {os_state R} (c c' : config (world os_state) R)
    (s' : stage) : Prop :=
  (main c' = main c /\ events_of Main (log c') = events_of Main (log c)) \/
  exists a k h,
    main c = Act a k h /\
    ((exists x,
        main c' = k x /\ answers s' (state c') a x /\
        events_of Main (log c') = events_of Main (log c) ++ [Did a]) \/
     (exists m,
        main c' = h m /\ faults (state c') a m /\
        events_of Main (log c') = events_of Main (log c) ++ [Raised a m])).

(** The watcher as goroutine [i] at stage [s] of a configuration that
    started from the controllers [apps0], the channels [chans0] and the
    log [log0], every other goroutine an observer. *)
Record watched {os_state R} (i : nat) (apps0 : list App)
    (chans0 : list chan_state) (log0 : list (tid * event))
    (c : config (world os_state) R) (s : stage) : Prop := mkWatched {
  watched_watcher : workers c !! i = Some (watcher_at s);
  watched_apps : apps (state c) = apps_at apps0 s;
  watched_chans : chans (state c) = chans_at chans0 s;
  watched_log :
    events_of (Worker i) (log c)
    = events_of (Worker i) log0 ++ done_events s;
  watched_main : observer (main c);
  watched_others :
    forall j g, j <> i -> workers c !! j = Some g -> observer g
}.

End Watcher.

(** ** A caller alone with the watcher

    A goroutine that only reads and receives asks the operating system
    nothing: what [Start] leaves of a caller after its [go] statement,
    [Wait], and the end of [CheckIsInstalled] are of this kind. *)
Definition reading (a : action) : bool :=
  match a with
  | GetCmd _ | GetWaitCh _ | AtomicLoad _ | Recv _ => true
  | _ => false
  end.

Fixpoint reader {R} (p : prog R) : Prop :=
  match p with
  | Ret _ | Panic _ => True
  | Act a k h =>
      reading a = true /\ (forall x, reader (k x)) /\ (forall m, reader (h m))
  | Go _ _ => False
  end.

(** One action of [p] is answered, or raises a panic, and leaves [p1]. *)
Definition answered {R} (answers : forall a : action, resp a -> Prop)
    (faults : action -> string -> Prop) (p p1 : prog R) (e : event) : Prop :=
  match p with
  | Act a k h =>
      (exists x, p1 = k x /\ answers a x /\ e = Did a) \/
      (exists m, p1 = h m /\ faults a m /\ e = Raised a m)
  | _ => False
  end.

(** [p] is at a receive on the channel [c], gets the value [v] from a
    sender and goes on as [p1]. *)
Definition received {R} (c : option chan) (v : ExitCodeOrError)
    (p p1 : prog R) : Prop :=
  match p with
  | Act a k _ =>
      match a as a0 return (resp a0 -> prog R) -> Prop with
      | Recv c0 => fun k0 => c0 = c /\ p1 = k0 (v, true)
      | _ => fun _ => False
      end k
  | _ => False
  end.

Section Pair.

Context {os_state : Type}.
Variable os_exec : forall s : syscall_, os_state -> sysret s * os_state.
Variables (app : ref) (A0 : App) (ch : chan).
Variables (apps0 : list App) (chans0 : list chan_state).
Variable log0 : list (tid * event).

(** The operating system when the watcher starts. *)
Variable o0 : os_state.

(** The pair the watcher makes of what the wait for the process answers. *)
Definition waited_pair : ExitCodeOrError :=
  let r := exit_status (os_exec (SysWait (Process_ (cmd A0))) o0).1 in
  mkExitCodeOrError r.1 r.2.

(** The operating system at each stage: touched by the wait only. *)
Definition os_at (s : stage) : os_state :=
  if decide (stage_index s <= 2)%nat then o0
  else (os_exec (SysWait (Process_ (cmd A0))) o0).2.

(** The watcher as the only worker, beside a main goroutine that reads
    and receives. *)
Record paired {R} (c : config (world os_state) R) (s : stage) : Prop :=
  mkPaired {
  paired_watched : watched app A0 ch 0%nat apps0 chans0 log0 c s;
  paired_alone : length (workers c) = 1%nat;
  paired_reader : reader (main c);
  paired_os : os (state c) = os_at s;
  paired_pair : forall v, stage_pair s = Some v -> v = waited_pair
}.

End Pair.

(** ** The watcher among goroutines that keep out of its way

    One controller stands for one process lifetime: once it is started
    nothing writes to it but its watcher, and nothing else sends on its
    channel or closes it.  Goroutines that keep to this may do anything
    else: work on other controllers, start and watch other processes,
    start goroutines of their own. *)
Definition apart (app : ref) (ch : chan) (a : action) : bool :=
  match a with
  | SetEnv x _ | SetStdin x _ | SetStdout x _ | SetStderr x _
  | SetProcess x _ | SetWaitCh x _ | AtomicStore x _ =>
      bool_decide (x <> app)
  | Send c _ | Close c => bool_decide (c <> Some ch)
  | _ => true
  end.

Fixpoint bystander (app : ref) (ch : chan) {R : Type} (p : prog R) : Prop :=
  match p with
  | Ret _ | Panic _ => True
  | Act a k h =>
      apart app ch a = true /\
      (forall x, bystander app ch (k x)) /\
      (forall m, bystander app ch (h m))
  | Go child k => bystander app ch child /\ bystander app ch k
  end.

(** The controller and its channel at each stage of the watcher. *)
Definition app_at (A0 : App) (s : stage) : App :=
  match s with
  | W0 | W1 | W2 | W3 _ _ => A0
  | W4 c e | W5 c e | W6 c e | W7 c e =>
      set_exitCodeOrError (Some (mkExitCodeOrError c e)) A0
  end.

Definition chan_at (s : stage) : chan_state :=
  match s with
  | W7 _ _ => ChClosed
  | _ => ChOpen
  end.

(** The watcher of [app] as goroutine [i] at stage [s], every other
    goroutine keeping out of its way. *)
Record attended {os_state R} (app : ref) (A0 : App) (ch : chan) (i : nat)
    (log0 : list (tid * event)) (c : config (world os_state) R) (s : stage)
  : Prop := mkAttended {
  attended_watcher : workers c !! i = Some (watcher_at app A0 ch s);
  attended_app : apps (state c) !! app = Some (app_at A0 s);
  attended_chan : chans (state c) !! ch = Some (chan_at s);
  attended_log :
    events_of (Worker i) (log c)
    = events_of (Worker i) log0 ++ done_events app A0 ch s;
  attended_main : bystander app ch (main c);
  attended_others :
    forall j g, j <> i -> workers c !! j = Some g -> bystander app ch g
}.

(** ** Programs that do the same

    Two programs are alike when they are the same tree of actions: the
    same action at each node, and continuations that are alike at each
    answer.  So a program that hands on what a call returns is like the
    call itself. *)
Inductive alike {R : Type} : prog R -> prog R -> Prop :=
| alike_Ret (r : R) : alike (Ret r) (Ret r)
| alike_Panic (m : string) : alike (Panic m) (Panic m)
| alike_Act (a : action) (k k' : resp a -> prog R) (h h' : string -> prog R) :
    (forall x, alike (k x) (k' x)) ->
    (forall m, alike (h m) (h' m)) ->
    alike (Act a k h) (Act a k' h')
| alike_Go (child : prog unit) (k k' : prog R) :
    alike k k' -> alike (Go child k) (Go child k').

(** Configurations that differ in how their main goroutines are written
    only. *)
Definition same_but_main {W R} (c c2 : config W R) : Prop :=
  workers c = workers c2 /\ state c = state c2 /\ log c = log c2 /\
  alike (main c) (main c2).

(** ** A scripted operating system

    Concrete instances of the parameter, to run the package on: every
    call is answered from a fixed script. *)
Module Demo.

Record script : Type := mkScript {
  lookpath : option string;
  environ : list string;
  start : Process + error;
  wait : option error;
  getpgid : Z * option error;
  kill : option error;
  process_kill : option error
}.

Definition os_exec (s : syscall_) (o : script) : sysret s * script :=
  match s as s0 return sysret s0 * script with
  | SysLookPath _ => (lookpath o, o)
  | SysEnviron => (environ o, o)
  | SysStart _ => (start o, o)
  | SysWait _ => (wait o, o)
  | SysGetpgid _ => (getpgid o, o)
  | SysKill _ _ => (kill o, o)
  | SysProcessKill _ => (process_kill o, o)
  end.

(** A process 4242 in group 4242 that exits with status 7. *)
Definition exits7 : script :=
  mkScript (Some "/bin/sh") ["HOME=/root"] (inl (mkProcess 4242))
           (Some (ExitError (SysWaitStatus 0x0700))) (4242, None) None None.

(** The same process when it is ended by SIGKILL. *)
Definition killed : script :=
  mkScript (Some "/bin/sh") ["HOME=/root"] (inl (mkProcess 4242))
           (Some (ExitError (SysWaitStatus 9))) (4242, None) None None.

(** A launch that fails. *)
Definition no_such_file : error :=
  ErrorString "fork/exec ./missing: no such file or directory".
Definition missing : script :=
  mkScript None ["HOME=/root"] (inr no_such_file)
           (Some (ErrorString "exec: not started")) (-1, Some (Errno 3))
           (Some (Errno 3)) (Some (Errno 3)).

Definition empty (o : script) : world script := mkWorld [] [] o.

(** A controller as [NewApp] leaves it, and the same after a successful
    [Start]: process 4242, channel 0. *)
Definition fresh_app : App :=
  mkApp (mkCmd "/bin/sh" ["sh"; "-c"; "exit 7"] None None None None true None)
        None None.

Definition started_app : App :=
  mkApp (mkCmd "/bin/sh" ["sh"; "-c"; "exit 7"] None None None None true
               (Some (mkProcess 4242)))
        (Some 0%nat) None.

Definition fresh (o : script) : world script := mkWorld [fresh_app] [] o.

Definition started (o : script) : world script :=
  mkWorld [started_app] [ChOpen] o.

(** The same once the watcher is through: the pair is cached, the channel
    closed. *)
Definition finished (o : script) : world script :=
  mkWorld [set_exitCodeOrError (Some (mkExitCodeOrError 7 None)) started_app]
          [ChClosed] o.

(** A caller in [Wait] beside the watcher that [Start] has just started,
    and a schedule that takes both to their ends. *)
Definition waiting : config (world script) ExitCodeOrError :=
  mkConfig (Wait 0%nat) [asyncWait 0%nat] (started exits7) [].

Definition to_the_end : list label :=
  [Tau (Worker 0); Tau (Worker 0); Tau (Worker 0); Tau (Worker 0);
   Tau (Worker 0); Tau Main; Sync (Worker 0) Main; Tau (Worker 0)].

(** A caller in [Kill] beside the watcher. *)
Definition killing (o : script) : config (world script) (option error) :=
  mkConfig (Kill true 0%nat) [asyncWait 0%nat] (started o) [].

Definition kill_to_the_end : list label :=
  [Tau Main; Tau Main; Tau Main; Tau (Worker 0); Tau (Worker 0);
   Tau (Worker 0); Tau (Worker 0); Tau (Worker 0); Tau Main;
   Sync (Worker 0) Main; Tau (Worker 0)].

(** A second goroutine in [Wait] beside a caller in [Kill], and a
    schedule under which the pair goes to that goroutine: it is at its
    receive before the watcher sends, the watcher closes the channel, and
    only then does the caller get to its own [Wait]. *)
Definition waiter : prog unit := (_ <- Wait 0%nat ;; Ret tt).

Definition killing_beside_waiter : config (world script) (option error) :=
  mkConfig (Kill true 0%nat) [asyncWait 0%nat; waiter] (started killed) [].

Definition waiter_first : list label :=
  [Tau (Worker 1);
   Tau (Worker 0); Tau (Worker 0); Tau (Worker 0); Tau (Worker 0);
   Tau (Worker 0); Sync (Worker 0) (Worker 1); Tau (Worker 0);
   Tau Main; Tau Main; Tau Main; Tau Main; Tau Main].

(** A [which] that finds what it is asked for. *)
Definition there : script :=
  mkScript (Some "/usr/bin/which") [] (inl (mkProcess 77)) None
           (77, None) None None.

(** A caller alone in [Run], and alone in [CheckIsInstalled]; schedules
    that take the caller to its [go] statement and on to the receipt of
    the pair of the watcher. *)
Definition running (o : script) : config (world script) ExitCodeOrError :=
  mkConfig (Run 0%nat None None None) [] (fresh o) [].

Definition checking (o : script) : config (world script) (option error) :=
  mkConfig (CheckIsInstalled 0%nat) [] (fresh o) [].

Definition hand_over : list label :=
  [Tau Main; Tau Main;
   Tau (Worker 0); Tau (Worker 0); Tau (Worker 0); Tau (Worker 0);
   Tau (Worker 0); Sync (Worker 0) Main].

Definition run_to_the_end : list label :=
  replicate 6 (Tau Main) ++ hand_over.

Definition check_to_the_end : list label :=
  replicate 9 (Tau Main) ++ hand_over.

End Demo.

(** * Properties *)

Section Properties.

Context {os_state : Type}.
Variable os_exec : forall s : syscall_, os_state -> sysret s * os_state.
Variable IsLinuxMacOSFreeBSD : bool.

Implicit Types (w : world os_state) (app : ref) (a : App).

(** ** Single actions *)

Lemma lookup_update (l : list App) (i : nat) (a b : App) :
  l !! i = Some a -> <[i:=b]> l !! i = Some b.
Proof. intros H. apply list_lookup_insert_eq. by eapply lookup_lt_Some. Qed.

Lemma perform_GetCmd w app a :
  apps w !! app = Some a -> perform os_exec (GetCmd app) w = Value (cmd a) w.
Proof. intros H. cbn. by rewrite H. Qed.

Lemma perform_GetWaitCh w app a :
  apps w !! app = Some a ->
  perform os_exec (GetWaitCh app) w = Value (waitCh a) w.
Proof. intros H. cbn. by rewrite H. Qed.

Lemma perform_AtomicLoad w app a :
  apps w !! app = Some a ->
  perform os_exec (AtomicLoad app) w = Value (exitCodeOrError a) w.
Proof. intros H. cbn. by rewrite H. Qed.

Lemma perform_AtomicStore w app a v :
  apps w !! app = Some a ->
  perform os_exec (AtomicStore app v) w
  = Value tt (mkWorld (<[app:=set_exitCodeOrError (Some v) a]> (apps w))
                      (chans w) (os w)).
Proof. intros H. cbn. unfold update_app. by rewrite H. Qed.

Lemma perform_Sys w s :
  perform os_exec (Sys s) w
  = Value (os_exec s (os w)).1
          (mkWorld (apps w) (chans w) (os_exec s (os w)).2).
Proof. cbn. by destruct (os_exec s (os w)). Qed.

Lemma perform_Recv_closed w (ch : chan) :
  chans w !! ch = Some ChClosed ->
  perform os_exec (Recv (Some ch)) w = Value (zero_ExitCodeOrError, false) w.
Proof. intros H. cbn. by rewrite H. Qed.

Ltac norm :=
  cbn [bind call defer_ run record_event record_spawn then_outcome stop_outcome
       final after events spawned apps chans os fst snd].

(** ** Running programs in sequence *)

Lemma run_bind {A B} (p : prog A) (f : A -> prog B) w :
  run os_exec (bind p f) w =
  match final (run os_exec p w) with
  | Returned r =>
      then_outcome (run os_exec p w)
                   (run os_exec (f r) (after (run os_exec p w)))
  | Panicked m => stop_outcome (Panicked m) (run os_exec p w)
  | Waiting a => stop_outcome (Waiting a) (run os_exec p w)
  end.
Proof.
  revert B f w.
  induction p as [A r|A m|A a k IHk h IHh|A child _ k IHk]; intros B f w.
  - cbn. by destruct (run os_exec (f r) w).
  - reflexivity.
  - cbn [bind run]. destruct (perform os_exec a w) as [x w'|m|].
    + rewrite IHk. cbn. by destruct (final (run os_exec (k x) w')).
    + rewrite IHh. cbn. by destruct (final (run os_exec (h m) w)).
    + reflexivity.
  - cbn [bind run]. rewrite IHk. cbn. by destruct (final (run os_exec k w)).
Qed.

(** A deferred call runs when the body returns and when it panics: on
    every path of the body that ends. *)
Lemma run_defer {R} (cleanup : prog unit) (body : prog R) w :
  run os_exec (defer_ cleanup body) w =
  match final (run os_exec body w) with
  | Returned r =>
      then_outcome (run os_exec body w)
        (run os_exec (cleanup ;; Ret r) (after (run os_exec body w)))
  | Panicked m =>
      then_outcome (run os_exec body w)
        (run os_exec (cleanup ;; Panic m) (after (run os_exec body w)))
  | Waiting a => stop_outcome (Waiting a) (run os_exec body w)
  end.
Proof.
  revert w.
  induction body as [A r|A m|A a k IHk h IHh|A child _ k IHk]; intros w.
  - cbn [defer_ run final after]. by destruct (run _ _ _).
  - cbn [defer_ run final after]. by destruct (run _ _ _).
  - cbn [defer_ run]. destruct (perform os_exec a w) as [x w'|m|].
    + rewrite IHk. cbn. by destruct (final (run os_exec (k x) w')).
    + rewrite IHh. cbn. by destruct (final (run os_exec (h m) w)).
    + reflexivity.
  - cbn [defer_ run]. rewrite IHk. cbn. by destruct (final (run os_exec k w)).
Qed.

(** Closing a channel, also as a deferred call, and sending on one leave
    the controllers as they are. *)
Lemma defer_close_apps {R} w (c : option chan) (body : prog R) :
  apps (after (run os_exec (defer_ (call (Close c)) body) w))
  = apps (after (run os_exec body w)).
Proof.
  rewrite run_defer.
  destruct (final (run os_exec body w)); norm; cbn [perform]; try reflexivity;
    (destruct c as [i|]; norm;
     [destruct (chans (after (run os_exec body w)) !! i) as [[|]|]|];
     reflexivity).
Qed.

Lemma send_apps w (c : option chan) (v : ExitCodeOrError) :
  apps (after (run os_exec (call (Send c v)) w)) = apps w.
Proof. norm. cbn [perform]. by destruct (c ≫= _) as [[|]|]. Qed.

(** ** The watcher's translation of the wait result (C1) *)

(** C1, amended.  Run up to its send, the watcher has stored as the
    cached terminal result: the pair ([stat.ExitStatus()], nil) when the
    wait error is an [*exec.ExitError] whose [Sys()] is a
    [syscall.WaitStatus], that is the exit code of a process that exited
    and -1 for a process ended by a signal; and the pair (0, error) for
    every other wait error and for no error. *)
Theorem asyncWait_publishes w app a :
  apps w !! app = Some a ->
  let err := (os_exec (SysWait (Process_ (cmd a))) (os w)).1 in
  published os_exec app w = Some
    match err with
    | Some (ExitError (SysWaitStatus stat)) =>
        mkExitCodeOrError
          (if syscall.Exited stat then Z.land (Z.shiftr stat 8) 255 else -1)
          None
    | _ => mkExitCodeOrError 0 err
    end.
Proof.
  intros Ha err. unfold published, asyncWait.
  cbn [bind call run]. rewrite (perform_GetWaitCh _ _ _ Ha).
  cbn [record_event after]. rewrite defer_close_apps.
  unfold Cmd_Wait. cbn [bind call run].
  rewrite (perform_GetCmd _ _ _ Ha), perform_Sys. fold err.
  set (o := (os_exec (SysWait (Process_ (cmd a))) (os w)).2).
  set (v := match err with
            | Some (ExitError (SysWaitStatus stat)) =>
                mkExitCodeOrError
                  (if syscall.Exited stat
                   then Z.land (Z.shiftr stat 8) 255 else -1) None
            | _ => mkExitCodeOrError 0 err
            end).
  assert (Hv : exit_status err = (ExitCode v, Error v)).
  { unfold v. destruct err as [[[stat|msg]|n|msg]|]; try reflexivity.
    cbn. unfold syscall.ExitStatus. by destruct (syscall.Exited stat). }
  rewrite Hv. unfold sendExitCodeOrError. cbn [bind call run].
  erewrite perform_AtomicStore by exact Ha. cbn [apps chans os].
  erewrite perform_GetWaitCh by (cbn [apps]; by eapply lookup_update).
  cbn [record_event after].
  pose proof (send_apps
    (mkWorld (<[app:=set_exitCodeOrError
                       (Some (mkExitCodeOrError (ExitCode v) (Error v))) a]>
                (apps w)) (chans w) o)
    (waitCh (set_exitCodeOrError
               (Some (mkExitCodeOrError (ExitCode v) (Error v))) a))
    (mkExitCodeOrError (ExitCode v) (Error v))) as Hs.
  refine (eq_trans (f_equal (fun l => l !! app ≫= exitCodeOrError) Hs) _).
  cbn [apps]. rewrite (lookup_update _ _ _ _ Ha). cbn. by destruct v.
Qed.

(** ** Wait on a closed channel (C3) *)

(** C3.  When the completion channel of the controller is closed, and so
    holds nothing more to receive, [Wait] returns at once, without
    blocking or panicking and without changing anything, a terminal
    result with exit code 0 and the error [Exited already]. *)
Theorem Wait_after_close w app a (ch : chan) :
  apps w !! app = Some a ->
  waitCh a = Some ch ->
  chans w !! ch = Some ChClosed ->
  run os_exec (Wait app) w
  = mkOutcome (Returned (mkExitCodeOrError 0 (Some exited_already))) w
              [Did (GetWaitCh app); Did (Recv (Some ch))] [].
Proof.
  intros Ha Hch Hclosed. unfold Wait. norm.
  rewrite (perform_GetWaitCh _ _ _ Ha), Hch. norm.
  by rewrite (perform_Recv_closed _ _ Hclosed).
Qed.

(** ** The cached result before completion (C9) *)

(** C9.  On a controller whose [atomic.Value] nothing has been stored in,
    [ExitCodeOrError()] panics on the type assertion: the load yields nil
    and the call neither returns a value nor reports an error. *)
Theorem ExitCodeOrError_before_completion_panics w app a :
  apps w !! app = Some a ->
  exitCodeOrError a = None ->
  run os_exec (App_ExitCodeOrError app) w
  = mkOutcome (Panicked nil_assertion) w [Did (AtomicLoad app)] [].
Proof.
  intros Ha Hnil. unfold App_ExitCodeOrError. norm.
  by rewrite (perform_AtomicLoad _ _ _ Ha), Hnil.
Qed.

(** ** Kill before a successful start (C10) *)

(** C10.  On a controller whose process handle is nil, [Kill] panics
    with a nil dereference on either kind of platform, after reading the
    handle and before any signal is sent or any error returned. *)
Theorem Kill_without_process_panics w app a :
  apps w !! app = Some a ->
  Process_ (cmd a) = None ->
  run os_exec (Kill IsLinuxMacOSFreeBSD app) w
  = mkOutcome (Panicked nil_dereference) w [Did (GetCmd app)] [].
Proof.
  intros Ha Hnil. unfold Kill.
  destruct IsLinuxMacOSFreeBSD; norm;
    by rewrite (perform_GetCmd _ _ _ Ha), Hnil.
Qed.

(** ** Symbolic execution on one controller

    A world in which the controller [app] holds [a]: the states a run
    goes through keep this shape. *)

Lemma world_at w app a :
  apps w !! app = Some a ->
  w = mkWorld (<[app:=a]> (apps w)) (chans w) (os w).
Proof. intros H. destruct w as [l c o]. cbn in *. by rewrite list_insert_id. Qed.

Section At.
Variables (L : list App) (app : ref).
Hypothesis Hlt : (app < length L)%nat.
Variables (a : App) (C : list chan_state) (O : os_state).

Let here := mkWorld (<[app:=a]> L) C O.

Lemma at_lookup : apps here !! app = Some a.
Proof. by apply list_lookup_insert_eq. Qed.

Lemma at_update (f : App -> App) :
  update_app app f here = Value tt (mkWorld (<[app:=f a]> L) C O).
Proof.
  unfold update_app. rewrite at_lookup. cbn. by rewrite list_insert_insert_eq.
Qed.

Lemma at_GetCmd : perform os_exec (GetCmd app) here = Value (cmd a) here.
Proof. apply perform_GetCmd, at_lookup. Qed.

Lemma at_GetWaitCh :
  perform os_exec (GetWaitCh app) here = Value (waitCh a) here.
Proof. apply perform_GetWaitCh, at_lookup. Qed.

Lemma at_SetEnv e :
  perform os_exec (SetEnv app e) here
  = Value tt (mkWorld (<[app:=set_cmd (set_Env e) a]> L) C O).
Proof. apply at_update. Qed.

Lemma at_SetStdin s :
  perform os_exec (SetStdin app s) here
  = Value tt (mkWorld (<[app:=set_cmd (set_Stdin s) a]> L) C O).
Proof. apply at_update. Qed.

Lemma at_SetStdout s :
  perform os_exec (SetStdout app s) here
  = Value tt (mkWorld (<[app:=set_cmd (set_Stdout s) a]> L) C O).
Proof. apply at_update. Qed.

Lemma at_SetStderr s :
  perform os_exec (SetStderr app s) here
  = Value tt (mkWorld (<[app:=set_cmd (set_Stderr s) a]> L) C O).
Proof. apply at_update. Qed.

Lemma at_SetProcess p :
  perform os_exec (SetProcess app p) here
  = Value tt (mkWorld (<[app:=set_cmd (set_Process p) a]> L) C O).
Proof. apply at_update. Qed.

Lemma at_SetWaitCh c :
  perform os_exec (SetWaitCh app c) here
  = Value tt (mkWorld (<[app:=set_waitCh c a]> L) C O).
Proof. apply at_update. Qed.

Lemma at_Sys s :
  perform os_exec (Sys s) here
  = Value (os_exec s O).1 (mkWorld (<[app:=a]> L) C (os_exec s O).2).
Proof. apply perform_Sys. Qed.

Lemma at_MakeChan :
  perform os_exec MakeChan here
  = Value (length C) (mkWorld (<[app:=a]> L) (C ++ [ChOpen]) O).
Proof. reflexivity. Qed.
End At.

Ltac at_step :=
  first
    [ rewrite at_GetCmd by assumption
    | rewrite at_GetWaitCh by assumption
    | rewrite at_SetEnv by assumption
    | rewrite at_SetStdin by assumption
    | rewrite at_SetStdout by assumption
    | rewrite at_SetStderr by assumption
    | rewrite at_SetProcess by assumption
    | rewrite at_SetWaitCh by assumption
    | rewrite at_Sys
    | rewrite at_MakeChan ].

Ltac symbolic := repeat (norm; at_step); norm.

(** ** AddEnvironments (C7) *)

(** A later call: the environment is set already, and the entries go
    after it. *)
Lemma AddEnvironments_later L app a C O (l env : list string) :
  (app < length L)%nat ->
  Env (cmd a) = Some l ->
  run os_exec (AddEnvironments app env) (mkWorld (<[app:=a]> L) C O)
  = mkOutcome (Returned tt)
      (mkWorld (<[app:=set_cmd (set_Env (Some (l ++ env))) a]> L) C O)
      [Did (GetCmd app); Did (GetCmd app); Did (SetEnv app (Some (l ++ env)))]
      [].
Proof.
  intros Hlt HEnv. unfold AddEnvironments. symbolic. rewrite HEnv. symbolic.
  by rewrite HEnv.
Qed.

(** The first call: no environment is set, so the inherited one is read
    and the entries go after it. *)
Lemma AddEnvironments_first L app a C O (env : list string) :
  (app < length L)%nat ->
  Env (cmd a) = None ->
  run os_exec (AddEnvironments app env) (mkWorld (<[app:=a]> L) C O)
  = mkOutcome (Returned tt)
      (mkWorld
         (<[app:=set_cmd
                   (set_Env (Some ((os_exec SysEnviron O).1 ++ env))) a]> L)
         C (os_exec SysEnviron O).2)
      [Did (GetCmd app); Did (Sys SysEnviron);
       Did (SetEnv app (Some (os_exec SysEnviron O).1)); Did (GetCmd app);
       Did (SetEnv app (Some ((os_exec SysEnviron O).1 ++ env)))]
      [].
Proof.
  intros Hlt HEnv. unfold AddEnvironments. symbolic. rewrite HEnv. symbolic.
  reflexivity.
Qed.

Lemma AddEnvironments_each_later L app C O (rest : list (list string)) :
  (app < length L)%nat ->
  forall a l,
    Env (cmd a) = Some l ->
    final (run os_exec (AddEnvironments_each app rest)
               (mkWorld (<[app:=a]> L) C O)) = Returned tt /\
    after (run os_exec (AddEnvironments_each app rest)
               (mkWorld (<[app:=a]> L) C O))
    = mkWorld (<[app:=set_cmd (set_Env (Some (l ++ concat rest))) a]> L) C O.
Proof.
  intros Hlt. induction rest as [|env rest IH]; intros a l HEnv.
  - cbn. split; [done|]. rewrite app_nil_r.
    destruct a as [[] ? ?]; cbn in *. by subst.
  - cbn [AddEnvironments_each]. rewrite run_bind.
    rewrite (AddEnvironments_later _ _ _ _ _ l env Hlt HEnv). norm.
    destruct (IH (set_cmd (set_Env (Some (l ++ env))) a) (l ++ env) eq_refl)
      as [Hf Ha].
    rewrite Hf, Ha. split; [done|]. cbn. by rewrite <- app_assoc.
Qed.

(** C7.  On a controller with no environment set, a sequence of
    [AddEnvironments] calls leaves as the environment the inherited
    environment read at the first call, then the entries of the first
    call, then those of every later call, in the order of the calls;
    nothing else of the controller and no other controller changes. *)
Theorem AddEnvironments_appends w app a (env : list string)
    (rest : list (list string)) :
  apps w !! app = Some a ->
  Env (cmd a) = None ->
  let base := (os_exec SysEnviron (os w)).1 in
  final (run os_exec (AddEnvironments_each app (env :: rest)) w)
  = Returned tt /\
  after (run os_exec (AddEnvironments_each app (env :: rest)) w)
  = mkWorld
      (<[app:=set_cmd (set_Env (Some (base ++ env ++ concat rest))) a]>
         (apps w))
      (chans w) (os_exec SysEnviron (os w)).2.
Proof.
  intros Ha HEnv base.
  assert (Hlt : (app < length (apps w))%nat) by by eapply lookup_lt_Some.
  rewrite (world_at _ _ _ Ha) at 1 2. cbn [AddEnvironments_each].
  rewrite run_bind, (AddEnvironments_first _ _ _ _ _ env Hlt HEnv). norm.
  fold base.
  destruct (AddEnvironments_each_later (apps w) app (chans w)
              (os_exec SysEnviron (os w)).2 rest Hlt
              (set_cmd (set_Env (Some (base ++ env))) a) (base ++ env) eq_refl)
    as [Hf Hafter].
  rewrite Hf, Hafter. split; [done|]. cbn. by rewrite <- app_assoc.
Qed.

(** ** Start (C5) *)

(** [Start], run to its end. *)
Lemma Start_run w app a (stdin stdout stderr : option stream) :
  apps w !! app = Some a ->
  let c := wired stdin stdout stderr (cmd a) in
  let launch := os_exec (SysStart c) (os w) in
  run os_exec (Start app stdin stdout stderr) w =
  match launch.1 with
  | inr e =>
      mkOutcome (Returned (None, Some e))
        (mkWorld (<[app:=set_cmd (fun _ => c) a]> (apps w)) (chans w) launch.2)
        (wiring app stdin stdout stderr
         ++ [Did (GetCmd app); Did (Sys (SysStart c))])
        []
  | inl p =>
      let ch := length (chans w) in
      mkOutcome (Returned (Some ch, None))
        (mkWorld
           (<[app:=set_waitCh (Some ch)
                     (set_cmd (fun _ => set_Process (Some p) c) a)]> (apps w))
           (chans w ++ [ChOpen]) launch.2)
        (wiring app stdin stdout stderr
         ++ [Did (GetCmd app); Did (Sys (SysStart c));
             Did (SetProcess app (Some p)); Did MakeChan;
             Did (SetWaitCh app (Some ch)); Spawned; Did (GetWaitCh app)])
        [asyncWait app]
  end.
Proof.
  intros Ha c launch.
  assert (Hlt : (app < length (apps w))%nat) by by eapply lookup_lt_Some.
  rewrite (world_at _ _ _ Ha) at 1. unfold Start, Cmd_Start.
  subst launch c. clear Ha. destruct a as [ca wa ea].
  destruct stdin, stdout, stderr; symbolic;
    cbn [wired wiring cmd set_cmd waitCh set_waitCh List.app];
    match goal with
    | |- context [os_exec (SysStart ?c) ?o] =>
        destruct (os_exec (SysStart c) o) as [[p|e] o']
    end; symbolic; reflexivity.
Qed.

(** C5.  When the launch fails with an error, [Start] returns a nil
    channel and that error, and the launch is the last thing it does: no
    channel is made, no goroutine is started, the channel field and the
    cached result of the controller stay as they were.  When the launch
    succeeds, [Start] makes one channel, which is new and open, stores it
    in the controller, starts the watcher [asyncWait] and no other
    goroutine, and returns that channel and a nil error. *)
Theorem Start_failure_and_success w app a (stdin stdout stderr : option stream) :
  apps w !! app = Some a ->
  let c := wired stdin stdout stderr (cmd a) in
  let launch := os_exec (SysStart c) (os w) in
  let o := run os_exec (Start app stdin stdout stderr) w in
  match launch.1 with
  | inr e =>
      final o = Returned (None, Some e) /\
      events o = wiring app stdin stdout stderr
                 ++ [Did (GetCmd app); Did (Sys (SysStart c))] /\
      spawned o = [] /\
      chans (after o) = chans w /\
      apps (after o) = <[app:=mkApp c (waitCh a) (exitCodeOrError a)]> (apps w)
  | inl p =>
      let ch := length (chans w) in
      final o = Returned (Some ch, None) /\
      length (filter (fun e => e = Did MakeChan) (events o)) = 1%nat /\
      spawned o = [asyncWait app] /\
      chans w !! ch = None /\
      chans (after o) = chans w ++ [ChOpen] /\
      apps (after o)
      = <[app:=mkApp (set_Process (Some p) c) (Some ch) (exitCodeOrError a)]>
          (apps w)
  end.
Proof.
  intros Ha c launch o. subst o. rewrite (Start_run _ _ _ _ _ _ Ha).
  fold c launch. destruct (launch.1) as [p|e]; cbn.
  - repeat split; try done.
    + unfold wiring. destruct stdin, stdout, stderr; reflexivity.
    + by apply lookup_ge_None.
  - done.
Qed.

(** ** Observers *)

Lemma advance_observer {R} (p p' : prog R) w w' gs e :
  observer p ->
  advance os_exec p w = Some (p', w', gs, e) ->
  observer p' /\ gs = [] /\ apps w' = apps w /\ chans w' = chans w.
Proof.
  destruct p as [r|m|a k h|child k]; cbn [advance observer]; try done.
  intros (Hp & Hk & Hh).
  destruct a; try discriminate Hp; cbn [perform].
  - destruct (os_exec s (os w)) as [r o]. intros [= <- <- <- <-]. auto.
  - destruct (apps w !! app); intros [= <- <- <- <-]; auto.
  - destruct (apps w !! app); intros [= <- <- <- <-]; auto.
  - destruct (apps w !! app); intros [= <- <- <- <-]; auto.
  - destruct (c ≫= _) as [[|]|]; try done. intros [= <- <- <- <-]. auto.
Qed.

Lemma observer_send_head {R} (p : prog R) :
  observer p -> send_head p = None.
Proof.
  destruct p as [r|m|a k h|child k]; cbn; try done.
  intros (Hp & _). by destruct a.
Qed.

Lemma observer_recv_head {R} (p : prog R) c k :
  observer p -> recv_head p = Some (c, k) -> forall x, observer (k x).
Proof.
  destruct p as [r|m|a k' h|child k']; cbn; try done.
  intros (Hp & Hk & _). destruct a; try done. by intros [= <- <-].
Qed.

Lemma recv_head_inv {R} (p : prog R) c k :
  recv_head p = Some (c, k) -> exists h, p = Act (Recv c) k h.
Proof.
  destruct p as [r|m|a k' h|child k']; cbn; try done.
  destruct a; try done. intros [= <- <-]. by exists h.
Qed.

(** A step an observer takes on its own is an answer to its action, or a
    panic of it. *)
Lemma advance_answers {R} (ch : chan) s (p p' : prog R) w w' gs e :
  observer p ->
  advance os_exec p w = Some (p', w', gs, e) ->
  exists (act : action) k h,
    p = Act act k h /\
    ((exists x, p' = k x /\ answers ch s w' act x /\ e = Did act) \/
     (exists m, p' = h m /\ faults w' act m /\ e = Raised act m)).
Proof.
  destruct p as [r|m|act k h|child k]; cbn [advance observer]; try done.
  intros (Hp & Hk & Hh) H. exists act, k, h. split; [done|]. revert H.
  destruct act; try discriminate Hp; cbn [perform].
  - destruct (os_exec s0 (os w)) as [r o]. intros [= <- <- <- <-].
    left. by eexists.
  - destruct (apps w !! app) eqn:E; intros [= <- <- <- <-];
      [left|right]; eexists; (split; [done|]); cbn; eauto.
  - destruct (apps w !! app) eqn:E; intros [= <- <- <- <-];
      [left|right]; eexists; (split; [done|]); cbn; eauto.
  - destruct (apps w !! app) eqn:E; intros [= <- <- <- <-];
      [left|right]; eexists; (split; [done|]); cbn; eauto.
  - destruct c as [c'|]; cbn; [|done].
    destruct (chans w !! c') as [[|]|] eqn:E; try done.
    intros [= <- <- <- <-]. left. eexists. split; [done|].
    split; [|done]. right. eauto.
Qed.

Lemma observer_Wait app : observer (Wait app).
Proof.
  cbn. repeat split; try done. intros [st [|]]; done.
Qed.

Lemma events_of_app t (l1 l2 : list (tid * event)) :
  events_of t (l1 ++ l2) = events_of t l1 ++ events_of t l2.
Proof. apply omap_app. Qed.

Lemma events_of_other t t' e :
  t' <> t -> events_of t [(t', e)] = [].
Proof. intros H. cbn. by rewrite decide_False. Qed.

Lemma events_of_same t e : events_of t [(t, e)] = [e].
Proof. cbn. by rewrite decide_True. Qed.

(** ** The watcher, step by step *)

Section Among.

Variables (app : ref) (A0 : App) (ch : chan) (i : nat).
Variables (apps0 : list App) (chans0 : list chan_state).
Variable log0 : list (tid * event).

Hypothesis Happ : apps0 !! app = Some A0.
Hypothesis Hch : waitCh A0 = Some ch.
Hypothesis Hopen : chans0 !! ch = Some ChOpen.

Local Abbreviation watcher_at := (watcher_at app A0 ch).
Local Abbreviation done_events := (done_events app A0 ch).
Local Abbreviation apps_at := (apps_at app A0 apps0).
Local Abbreviation chans_at := (chans_at ch chans0).

Lemma apps_at_lookup s :
  exists a, apps_at s !! app = Some a /\ cmd a = cmd A0 /\ waitCh a = Some ch.
Proof.
  destruct s; cbn; try (by exists A0);
    (eexists; split; [by eapply lookup_update|done]).
Qed.

Lemma chans_at_open s :
  (forall c e, s <> W7 c e) -> chans_at s !! ch = Some ChOpen.
Proof. intros H. destruct s; cbn; try done. by destruct (H c e). Qed.

(** A step the watcher takes on its own leads to the next stage. *)
Lemma watcher_advance s w p' w' gs e :
  apps w = apps_at s ->
  chans w = chans_at s ->
  advance os_exec (watcher_at s) w = Some (p', w', gs, e) ->
  exists s',
    p' = watcher_at s' /\ gs = [] /\
    apps w' = apps_at s' /\ chans w' = chans_at s' /\
    done_events s' = done_events s ++ [e] /\ follows s s'.
Proof.
  intros Happs Hchans.
  destruct (apps_at_lookup s) as (a & Ha & Hcmd & Hwait).
  rewrite <- Happs in Ha.
  destruct s; cbn [watcher_at asyncWait Cmd_Wait sendExitCodeOrError
                     advance bind call defer_].
  - rewrite (perform_GetWaitCh _ _ _ Ha), Hwait.
    intros [= <- <- <- <-]. exists W1. unfold follows. cbn. auto 10.
  - rewrite (perform_GetCmd _ _ _ Ha), Hcmd.
    intros [= <- <- <- <-]. exists W2. unfold follows. cbn. auto 10.
  - rewrite perform_Sys. intros [= <- <- <- <-].
    exists (W3 (exit_status (os_exec (SysWait (Process_ (cmd A0))) (os w)).1).1
               (exit_status (os_exec (SysWait (Process_ (cmd A0))) (os w)).1).2).
    unfold follows. destruct (exit_status _). cbn. repeat split; auto; done.
  - rewrite (perform_AtomicStore _ _ _ _ Ha). intros [= <- <- <- <-].
    exists (W4 c e0). unfold follows. cbn in *. repeat split; auto.
    rewrite Happs in *. cbn in Ha. rewrite Happ in Ha. by simplify_eq.
  - rewrite (perform_GetWaitCh _ _ _ Ha), Hwait.
    intros [= <- <- <- <-]. exists (W5 c e0). unfold follows. cbn. auto 10.
  - cbn [perform]. cbn [mbind option_bind]. rewrite Hchans.
    by rewrite (chans_at_open (W5 c e0)).
  - cbn [perform]. rewrite Hchans. rewrite (chans_at_open (W6 c e0)) by done.
    intros [= <- <- <- <-]. exists (W7 c e0). unfold follows. cbn.
    auto 10.
  - done.
Qed.

Lemma watcher_send_head s c v p' :
  send_head (watcher_at s) = Some (c, v, p') ->
  exists c0 e0,
    s = W5 c0 e0 /\ c = Some ch /\ v = mkExitCodeOrError c0 e0 /\
    p' = watcher_at (W6 c0 e0).
Proof.
  destruct s; cbn; try done. intros [= <- <- <-]. by exists c0, e.
Qed.

Lemma watcher_recv_head s : recv_head (watcher_at s) = None.
Proof. by destruct s. Qed.

Lemma rendezvous_observer {A B} (sp : prog A) (rp : prog B) w :
  observer sp -> rendezvous sp rp w = None.
Proof. intros H. unfold rendezvous. by rewrite (observer_send_head _ H). Qed.

Lemma rendezvous_to_watcher {A} (sp : prog A) s w :
  rendezvous sp (watcher_at s) w = None.
Proof.
  unfold rendezvous. rewrite watcher_recv_head.
  by destruct (send_head sp) as [[[? ?] ?]|].
Qed.

Lemma rendezvous_watcher {B} s (rp : prog B) w sp' rp' es er :
  observer rp ->
  rendezvous (watcher_at s) rp w = Some (sp', rp', es, er) ->
  exists c0 e0,
    s = W5 c0 e0 /\ sp' = watcher_at (W6 c0 e0) /\ observer rp' /\
    es = Did (Send (Some ch) (mkExitCodeOrError c0 e0)) /\
    er = Did (Recv (Some ch)) /\
    exists k h, rp = Act (Recv (Some ch)) k h /\
                rp' = k (mkExitCodeOrError c0 e0, true).
Proof.
  intros Hobs. unfold rendezvous.
  destruct (send_head (watcher_at s)) as [[[c v] p']|] eqn:Es; [|done].
  destruct (watcher_send_head _ _ _ _ Es) as (c0 & e0 & -> & -> & -> & ->).
  destruct (recv_head rp) as [[c' k]|] eqn:Er; [|done].
  destruct (decide (Some ch = c')) as [<-|]; [|done].
  destruct (is_open (Some ch) w); [|done].
  intros [= <- <- <- <-]. exists c0, e0. repeat split; try done.
  - by eapply observer_recv_head.
  - destruct (recv_head_inv _ _ _ Er) as (h & ->). by exists k, h.
Qed.

(** Every step of the configuration keeps the watcher on its course and
    the others observers. *)
Lemma watched_step {R} l (c c' : config (world os_state) R) s :
  watched app A0 ch i apps0 chans0 log0 c s ->
  step os_exec l c = Some c' ->
  exists s',
    watched app A0 ch i apps0 chans0 log0 c' s' /\ follows s s' /\
    main_moved ch c c' s'.
Proof.
  assert (Hrefl : forall s0, follows s0 s0) by (by split).
  intros [Hw Ha Hc Hl Hm Ho]. unfold step.
  destruct (crashed c); [done|].
  assert (Hi : (i < length (workers c))%nat) by by eapply lookup_lt_Some.
  destruct l as [[|j]|[|si] [|rj]].
  - (* the main goroutine alone *)
    destruct (advance os_exec (main c) (state c))
      as [[[[p w] gs] e]|] eqn:E; [|done].
    intros [= <-].
    destruct (advance_observer _ _ _ _ _ _ Hm E) as (Hp & -> & Ha' & Hc').
    exists s. split; [|split; [done|]].
    + constructor; cbn [main workers state log]; rewrite ?app_nil_r;
        try done; try congruence.
      by rewrite events_of_app, events_of_other, app_nil_r.
    + right.
      destruct (advance_answers ch s _ _ _ _ _ _ Hm E)
        as (act & k & h & Hmain & [(x & -> & Hx & ->)|(m & -> & Hx & ->)]);
        exists act, k, h; (split; [done|]); [left|right]; eexists;
        cbn [main state log]; by rewrite events_of_app, events_of_same.
  - (* a worker alone *)
    destruct (workers c !! j) as [g|] eqn:Eg; [|done].
    destruct (advance os_exec g (state c))
      as [[[[p w] gs] e]|] eqn:E; [|done].
    intros [= <-]. destruct (decide (j = i)) as [->|Hne].
    + rewrite Hw in Eg. injection Eg as <-.
      destruct (watcher_advance _ _ _ _ _ _ Ha Hc E)
        as (s' & -> & -> & Ha' & Hc' & He & Hf).
      exists s'. split; [|split; [done|left]].
      2:{ cbn [main log]. split; [done|].
          rewrite events_of_app, events_of_other, app_nil_r; done. }
      constructor; cbn [main workers state log]; rewrite ?app_nil_r;
        try done.
      * by apply list_lookup_insert_eq.
      * by rewrite events_of_app, events_of_same, Hl, He, app_assoc.
      * intros j g Hj. rewrite list_lookup_insert_ne by done. by apply Ho.
    + destruct (advance_observer _ _ _ _ _ _ (Ho _ _ Hne Eg) E)
        as (Hp & -> & Ha' & Hc').
      exists s. split; [|split; [done|left]].
      2:{ cbn [main log]. split; [done|].
          rewrite events_of_app, events_of_other, app_nil_r; done. }
      constructor; cbn [main workers state log]; rewrite ?app_nil_r;
        try done; try congruence.
      * by rewrite list_lookup_insert_ne.
      * rewrite events_of_app, events_of_other, app_nil_r; [done|].
        congruence.
      * intros j' g' Hj'. destruct (decide (j = j')) as [<-|].
        -- rewrite list_lookup_insert_eq by by eapply lookup_lt_Some.
           by intros [= <-].
        -- rewrite list_lookup_insert_ne by done. by apply Ho.
  - done.
  - (* the main goroutine sends: it does not *)
    destruct (workers c !! rj) as [g|]; [|done].
    by rewrite (rendezvous_observer _ _ _ Hm).
  - (* a worker sends to the main goroutine *)
    destruct (workers c !! si) as [g|] eqn:Eg; [|done].
    destruct (decide (si = i)) as [->|Hne].
    + rewrite Hw in Eg. injection Eg as <-.
      destruct (rendezvous (watcher_at s) (main c) (state c))
        as [[[[sp' rp'] es] er]|] eqn:E; [|done].
      destruct (rendezvous_watcher _ _ _ _ _ _ _ Hm E)
        as (c0 & e0 & -> & -> & Hrp & -> & -> & k & h & Hmain & ->).
      intros [= <-]. exists (W6 c0 e0).
      split; [|split; [by split; cbn; [lia|]|]].
      * constructor; cbn [main workers state log]; try done.
        -- by apply list_lookup_insert_eq.
        -- rewrite events_of_app, Hl. cbn. rewrite decide_True by done.
           rewrite decide_False by done. by rewrite <- app_assoc.
        -- intros j g Hj. rewrite list_lookup_insert_ne by done.
           by apply Ho.
      * right. exists (Recv (Some ch)), k, h. split; [done|]. left.
        eexists. split; [done|]. cbn [main state log]. split.
        -- left. cbn. auto.
        -- rewrite events_of_app. cbn. rewrite decide_False by done.
           by rewrite decide_True.
    + by rewrite (rendezvous_observer _ _ _ (Ho _ _ Hne Eg)).
  - (* a worker sends to a worker *)
    destruct (decide (si = rj)) as [|Hsr]; [done|].
    destruct (workers c !! si) as [g|] eqn:Eg; [|done].
    destruct (workers c !! rj) as [g'|] eqn:Eg'; [|done].
    destruct (decide (si = i)) as [->|Hne].
    + rewrite Hw in Eg. injection Eg as <-.
      destruct (rendezvous (watcher_at s) g' (state c))
        as [[[[sp' rp'] es] er]|] eqn:E; [|done].
      assert (Hg' : observer g') by (eapply Ho; [|done]; congruence).
      destruct (rendezvous_watcher _ _ _ _ _ _ _ Hg' E)
        as (c0 & e0 & -> & -> & Hrp & -> & -> & _).
      intros [= <-]. exists (W6 c0 e0).
      split; [|split; [by split; cbn; [lia|]|left]].
      2:{ cbn [main log]. split; [done|]. rewrite events_of_app. cbn.
          rewrite !decide_False by done. by rewrite app_nil_r. }
      constructor; cbn [main workers state log]; try done.
      * rewrite list_lookup_insert_ne by congruence.
        by apply list_lookup_insert_eq.
      * rewrite events_of_app, Hl. cbn. rewrite decide_True by done.
        rewrite decide_False by congruence. by rewrite <- app_assoc.
      * intros j g Hj. destruct (decide (rj = j)) as [<-|].
        -- rewrite list_lookup_insert_eq; [by intros [= <-]|].
           rewrite length_insert. by eapply lookup_lt_Some.
        -- rewrite !list_lookup_insert_ne by done. by apply Ho.
    + by rewrite (rendezvous_observer _ _ _ (Ho _ _ Hne Eg)).
Qed.

Lemma watched_exec {R} ls (c c' : config (world os_state) R) s :
  watched app A0 ch i apps0 chans0 log0 c s ->
  exec os_exec ls c = Some c' ->
  exists s', watched app A0 ch i apps0 chans0 log0 c' s' /\ follows s s'.
Proof.
  revert c s. induction ls as [|l ls IH]; intros c s Hc; cbn.
  - intros [= <-]. exists s. by split.
  - destruct (step os_exec l c) as [c1|] eqn:E; [|done].
    destruct (watched_step _ _ _ _ Hc E) as (s1 & Hc1 & [Hi1 Hp1] & _).
    intros Hexec. destruct (IH c1 s1 Hc1 Hexec) as (s' & Hc' & [Hi' Hp']).
    exists s'. split; [done|]. split; [lia|auto].
Qed.
End Among.

(** ** What observers beside the watcher return *)

Lemma may_return_mono {R} (A A' : forall a : action, resp a -> Prop)
    (F F' : action -> string -> Prop) (p : prog R) (evs : list event)
    (r : R) :
  (forall act x, A act x -> A' act x) ->
  (forall act m, F act m -> F' act m) ->
  may_return A F p evs r -> may_return A' F' p evs r.
Proof.
  intros HA HF. revert evs.
  induction p as [R r'|R m|R act k IHk h IHh|R child _ k IHk];
    intros evs; cbn; try done.
  intros [(x & evs' & Hx & -> & Hr)|(m & evs' & Hm & -> & Hr)];
    [left|right]; eauto 10.
Qed.

Section Beside.

Variables (app : ref) (A0 : App) (ch : chan) (i : nat).
Variables (apps0 : list App) (chans0 : list chan_state).
Variable log0 : list (tid * event).

Hypothesis Happ : apps0 !! app = Some A0.
Hypothesis Hch : waitCh A0 = Some ch.
Hypothesis Hopen : chans0 !! ch = Some ChOpen.

Local Abbreviation watched := (watched app A0 ch i apps0 chans0 log0).

Lemma apps_at_fields s s' (x : ref) a' :
  apps_at app A0 apps0 s !! x = Some a' ->
  exists a'', apps_at app A0 apps0 s' !! x = Some a'' /\
              cmd a'' = cmd a' /\ waitCh a'' = waitCh a'.
Proof.
  destruct (decide (x = app)) as [->|Hne].
  - destruct (apps_at_lookup app A0 ch apps0 Happ Hch s) as (a1 & H1 & ? & ?).
    destruct (apps_at_lookup app A0 ch apps0 Happ Hch s') as (a2 & H2 & ? & ?).
    rewrite H1. intros [= <-]. exists a2. repeat split; congruence.
  - assert (H : forall s0, apps_at app A0 apps0 s0 !! x = apps0 !! x).
    { intros s0. destruct s0; cbn; try done;
        by rewrite list_lookup_insert_ne. }
    rewrite !H. eauto.
Qed.

Lemma apps_at_None s s' (x : ref) :
  apps_at app A0 apps0 s !! x = None -> apps_at app A0 apps0 s' !! x = None.
Proof.
  rewrite !lookup_ge_None.
  assert (H : forall s0, length (apps_at app A0 apps0 s0) = length apps0).
  { intros s0. destruct s0; cbn; by rewrite ?length_insert. }
  by rewrite !H.
Qed.

Lemma chans_at_closed s s' (c : chan) :
  follows s s' ->
  chans_at ch chans0 s !! c = Some ChClosed -> chans_at ch chans0 s' !! c = Some ChClosed.
Proof.
  intros [Hi _].
  assert (H : forall s0, (stage_index s0 < 7)%nat -> chans_at ch chans0 s0 = chans0).
  { intros s0. destruct s0; cbn; try done. lia. }
  destruct (decide (stage_index s' < 7)%nat) as [Hlt|Hge].
  - rewrite !H by lia. done.
  - destruct s'; cbn in Hge; try lia. cbn [chans_at].
    destruct (decide (c = ch)) as [->|Hne].
    + intros _. apply list_lookup_insert_eq. by eapply lookup_lt_Some.
    + rewrite list_lookup_insert_ne by done.
      destruct s; cbn; try done. by rewrite list_lookup_insert_ne.
Qed.

Lemma answers_stable {R} (c1 c' : config (world os_state) R) s1 s' act x :
  watched c1 s1 -> watched c' s' -> follows s1 s' ->
  answers ch s1 (state c1) act x -> answers ch s' (state c') act x.
Proof.
  intros [_ Ha1 Hc1 _ _ _] [_ Ha' Hc' _ _ _] Hf.
  destruct act; cbn; try done.
  - rewrite Ha1, Ha'. intros (a' & Hl & ->).
    destruct (apps_at_fields _ s' _ _ Hl) as (a'' & ? & ? & ?). eauto.
  - rewrite Ha1, Ha'. intros (a' & Hl & ->).
    destruct (apps_at_fields _ s' _ _ Hl) as (a'' & ? & ? & ?). eauto.
  - intros [(-> & Hok & Hidx & Hpair)|(-> & c2 & -> & Hclosed)].
    + left. destruct Hf as [Hi Hp]. repeat split; auto. lia.
    + right. split; [done|]. exists c2. split; [done|].
      rewrite Hc1 in Hclosed. rewrite Hc'. by eapply chans_at_closed.
Qed.

Lemma faults_stable {R} (c1 c' : config (world os_state) R) s1 s' act m :
  watched c1 s1 -> watched c' s' ->
  faults (state c1) act m -> faults (state c') act m.
Proof.
  intros [_ Ha1 _ _ _ _] [_ Ha' _ _ _ _].
  destruct act; cbn; try done; rewrite Ha1, Ha'; apply apps_at_None.
Qed.

(** What the main goroutine returns and what it does until then, it
    may return and do with its actions answered as the end of the run
    tells. *)
Theorem observer_returns {R} ls (c c' : config (world os_state) R) s r :
  watched c s ->
  exec os_exec ls c = Some c' ->
  main c' = Ret r ->
  exists s' evs,
    watched c' s' /\ follows s s' /\
    events_of Main (log c') = events_of Main (log c) ++ evs /\
    may_return (answers ch s' (state c')) (faults (state c')) (main c)
               evs r.
Proof.
  revert c s. induction ls as [|l ls IH]; intros c s Hc; cbn [exec].
  - intros H Hr. simplify_eq. exists s, []. split; [done|].
    split; [by split|]. rewrite app_nil_r, Hr. by cbn.
  - destruct (step os_exec l c) as [c1|] eqn:E; [|done].
    destruct (watched_step app A0 ch i _ _ _ Happ Hch Hopen _ _ _ _ Hc E)
      as (s1 & Hc1 & Hf1 & Hmoved).
    intros Hexec Hr.
    destruct (IH c1 s1 Hc1 Hexec Hr) as (s' & evs & Hc' & Hf' & Hl & Hmay).
    assert (Hf : follows s s').
    { destruct Hf1 as [? ?], Hf' as [? ?]. split; [lia|auto]. }
    destruct Hmoved
      as [[Heq Hlog]
         |(act & k & h & Hmain &
           [(x & Hk & Hx & Hlog)|(m & Hh & Hm & Hlog)])].
    + exists s', evs. rewrite <- Heq, <- Hlog. auto.
    + exists s', (Did act :: evs). split; [done|]. split; [done|]. split.
      * by rewrite Hl, Hlog, <- app_assoc.
      * rewrite Hmain. cbn. left. exists x, evs. split.
        -- exact (answers_stable c1 c' s1 s' act x Hc1 Hc' Hf' Hx).
        -- by rewrite <- Hk.
    + exists s', (Raised act m :: evs). split; [done|]. split; [done|].
      split.
      * by rewrite Hl, Hlog, <- app_assoc.
      * rewrite Hmain. cbn. right. exists m, evs. split.
        -- exact (faults_stable c1 c' s1 s' act m Hc1 Hc' Hm).
        -- by rewrite <- Hh.
Qed.
End Beside.

(** ** Kill (C4) *)

Lemma int_neg_small (z : Z) :
  - 2 ^ 63 < z < 2 ^ 63 -> int_neg z = - z.
Proof.
  intros H. unfold int_neg, int_wrap.
  rewrite Z.mod_small by lia. lia.
Qed.

Lemma observer_Kill (b : bool) app : observer (Kill b app).
Proof.
  unfold Kill. destruct b; cbn; repeat split; try done.
  - intros c. destruct (Process_ c) as [p|]; cbn; [|done].
    repeat split; try done. intros [pgid [e|]]; cbn; [done|].
    repeat split; try done. intros [e|]; cbn; [done|].
    repeat split; try done. intros [st [|]]; done.
  - intros c. destruct (Process_ c) as [p|]; cbn; [|done].
    repeat split; try done. intros [e|]; cbn; [done|].
    repeat split; try done. intros [st [|]]; done.
Qed.

(** [Kill] on a platform with process groups, run on its own: the three
    ways it goes on after reading the process id. *)
Lemma Kill_run w app a (p : Process) :
  apps w !! app = Some a ->
  Process_ (cmd a) = Some p ->
  let r1 := os_exec (SysGetpgid (Pid p)) (os w) in
  let pgid := r1.1.1 in
  let r2 := os_exec (SysKill (int_neg pgid) syscall.SIGKILL) r1.2 in
  run os_exec (Kill true app) w =
  match r1.1.2 with
  | Some e =>
      mkOutcome (Returned (Some e)) (mkWorld (apps w) (chans w) r1.2)
        [Did (GetCmd app); Did (Sys (SysGetpgid (Pid p)))] []
  | None =>
      match r2.1 with
      | Some e =>
          mkOutcome (Returned (Some e)) (mkWorld (apps w) (chans w) r2.2)
            [Did (GetCmd app); Did (Sys (SysGetpgid (Pid p)));
             Did (Sys (SysKill (int_neg pgid) syscall.SIGKILL))] []
      | None =>
          then_outcome
            (mkOutcome (Returned tt) w
               [Did (GetCmd app); Did (Sys (SysGetpgid (Pid p)));
                Did (Sys (SysKill (int_neg pgid) syscall.SIGKILL))] [])
            (run os_exec (state <- Wait app ;; Ret (Error state))
                 (mkWorld (apps w) (chans w) r2.2))
      end
  end.
Proof.
  intros Ha Hp r1 pgid r2. unfold Kill. cbn [bind call run].
  rewrite (perform_GetCmd _ _ _ Ha), Hp. cbn [bind call run].
  rewrite perform_Sys. fold r1.
  destruct r1 as [[pg [e|]] o1] eqn:E1; cbn [fst snd] in *; [reflexivity|].
  cbn [bind call run]. rewrite perform_Sys. cbn [os]. subst pgid. fold r2.
  destruct r2 as [[e|] o2] eqn:E2; cbn [fst snd] in *; [reflexivity|].
  cbn [apps chans record_event then_outcome final after events spawned].
  by destruct (run os_exec _ _).
Qed.

Section Waiting.

Variables (app : ref) (A0 : App) (ch : chan) (i : nat).
Variables (apps0 : list App) (chans0 : list chan_state).
Variable log0 : list (tid * event).

Hypothesis Happ : apps0 !! app = Some A0.
Hypothesis Hch : waitCh A0 = Some ch.
Hypothesis Hopen : chans0 !! ch = Some ChOpen.

Local Abbreviation watched := (watched app A0 ch i apps0 chans0 log0).

(** What a read of the controller answers beside the watcher. *)
Lemma watched_lookup {R} (c : config (world os_state) R) s a' :
  watched c s ->
  apps (state c) !! app = Some a' ->
  cmd a' = cmd A0 /\ waitCh a' = Some ch.
Proof.
  intros [_ Ha _ _ _ _] Hl. rewrite Ha in Hl.
  destruct (apps_at_lookup app A0 ch apps0 Happ Hch s) as (a1 & H1 & ? & ?).
  rewrite H1 in Hl. by simplify_eq.
Qed.

Lemma watched_lookup_None {R} (c : config (world os_state) R) s :
  watched c s -> apps (state c) !! app <> None.
Proof.
  intros [_ Ha _ _ _ _]. rewrite Ha.
  destruct (apps_at_lookup app A0 ch apps0 Happ Hch s) as (a1 & H1 & ? & ?).
  by rewrite H1.
Qed.

(** Once the watcher has sent its pair, the pair is the cached result
    and the store and the send are in the log. *)
Lemma watched_sent {R} (c : config (world os_state) R) s v :
  watched c s ->
  (6 <= stage_index s)%nat ->
  stage_pair s = Some v ->
  apps (state c) !! app ≫= exitCodeOrError = Some v /\
  exists n,
    (6 <= n)%nat /\
    events_of (Worker i) (log c)
    = events_of (Worker i) log0
      ++ take n (watcher_events app A0 ch (ExitCode v) (Error v)).
Proof.
  intros [_ Ha _ Hl _ _] Hidx Hpair. rewrite Ha, Hl.
  destruct s; cbn in Hidx, Hpair; try lia; simplify_eq; cbn [apps_at];
    (split; [by rewrite (lookup_update _ _ _ _ Happ)|]);
    [by exists 6%nat|by exists 7%nat].
Qed.

(** What [Wait] and the return of the error after it may give. *)
Lemma Wait_beside_watcher {R} (c' : config (world os_state) R) s'
    {B} (f : ExitCodeOrError -> B) evs (r : B) :
  watched c' s' ->
  may_return (answers ch s' (state c')) (faults (state c'))
             (st <- Wait app ;; Ret (f st)) evs r ->
  evs = [Did (GetWaitCh app); Did (Recv (Some ch))] /\
  ((exists v n,
      r = f v /\
      apps (state c') !! app ≫= exitCodeOrError = Some v /\
      (6 <= n)%nat /\
      events_of (Worker i) (log c')
      = events_of (Worker i) log0
        ++ take n (watcher_events app A0 ch (ExitCode v) (Error v))) \/
   (r = f (mkExitCodeOrError 0 (Some exited_already)) /\
    chans (state c') !! ch = Some ChClosed)).
Proof.
  intros Hc'. unfold Wait. cbn [bind call may_return].
  intros [(x & evs1 & (a' & Hl & ->) & -> & H)|(m & evs1 & Hf & _)];
    [|by destruct (watched_lookup_None _ _ Hc')].
  destruct (watched_lookup _ _ _ Hc' Hl) as [_ Hw]. rewrite Hw in H.
  cbn [bind call may_return] in H.
  destruct H as [([st ok] & evs2 & Hans & -> & H)|(m & evs2 & [] & _)].
  destruct Hans as [(_ & Hok & Hidx & Hpair)|(Heq & c2 & [= <-] & Hclosed)].
  - cbn in Hok, Hpair. subst ok. cbn in H. destruct H as [<- ->].
    split; [done|]. left.
    destruct (watched_sent _ _ _ Hc' Hidx Hpair) as (Hcached & n & Hn & Hlog).
    by exists st, n.
  - injection Heq as -> ->. cbn in H. destruct H as [<- ->].
    split; [done|]. by right.
Qed.

(** [Kill] beside the watcher: how it may end. *)
Lemma Kill_beside_watcher ls (c c' : config (world os_state) (option error))
    s (p : Process) r :
  Process_ (cmd A0) = Some p ->
  watched c s ->
  main c = Kill true app ->
  exec os_exec ls c = Some c' ->
  main c' = Ret r ->
  exists evs,
    events_of Main (log c') = events_of Main (log c) ++ evs /\
    ((exists e,
        r = Some e /\
        evs = [Did (GetCmd app); Did (Sys (SysGetpgid (Pid p)))]) \/
     (exists pgid e,
        r = Some e /\
        evs = [Did (GetCmd app); Did (Sys (SysGetpgid (Pid p)));
               Did (Sys (SysKill (int_neg pgid) syscall.SIGKILL))]) \/
     (exists pgid,
        evs = [Did (GetCmd app); Did (Sys (SysGetpgid (Pid p)));
               Did (Sys (SysKill (int_neg pgid) syscall.SIGKILL));
               Did (GetWaitCh app); Did (Recv (Some ch))] /\
        ((exists v n,
            r = Error v /\
            apps (state c') !! app ≫= exitCodeOrError = Some v /\
            (6 <= n)%nat /\
            events_of (Worker i) (log c')
            = events_of (Worker i) log0
              ++ take n (watcher_events app A0 ch (ExitCode v) (Error v))) \/
         (r = Some exited_already /\
          chans (state c') !! ch = Some ChClosed)))).
Proof.
  intros Hp Hc Hmain Hexec Hr.
  destruct (observer_returns app A0 ch i _ _ _ Happ Hch Hopen ls c c' s r
              Hc Hexec Hr) as (s' & evs & Hc' & Hf & Hlog & Hmay).
  exists evs. split; [done|]. rewrite Hmain in Hmay. clear Hmain.
  unfold Kill in Hmay. cbn [bind call may_return] in Hmay.
  destruct Hmay as [(x & evs1 & (a' & Hl & ->) & -> & H)|(m & evs1 & Hf' & _)];
    [|by destruct (watched_lookup_None _ _ Hc')].
  destruct (watched_lookup _ _ _ Hc' Hl) as [Hcmd _].
  rewrite Hcmd, Hp in H.
  cbn [bind call may_return] in H.
  destruct H as [([pgid [e|]] & evs2 & _ & -> & H)|(m & evs2 & [] & _)].
  { cbn in H. destruct H as [<- ->]. left. by exists e. }
  cbn [bind call may_return] in H.
  destruct H as [([e|] & evs3 & _ & -> & H)|(m & evs3 & [] & _)].
  { cbn in H. destruct H as [<- ->]. right. left. by exists pgid, e. }
  right. right. exists pgid.
  destruct (Wait_beside_watcher c' s' Error evs3 r Hc' H) as [-> Hcases].
  split; [done|]. exact Hcases.
Qed.
End Waiting.


(** ** A goroutine alone up to its first go statement *)

Lemma solo_events_app {R} (l1 l2 : list event) (s : solo (world os_state) R) :
  solo_events l1 (solo_events l2 s) = solo_events (l1 ++ l2) s.
Proof. destruct s; cbn; by rewrite ?app_assoc. Qed.

Lemma until_go_bind {A B} (p : prog A) (f : A -> prog B) w :
  until_go os_exec (bind p f) w =
  match until_go os_exec p w with
  | SoloReturned r w' evs => solo_events evs (until_go os_exec (f r) w')
  | SoloPanicked m => SoloPanicked m
  | SoloWaiting => SoloWaiting
  | SoloSpawned rest child w' evs => SoloSpawned (bind rest f) child w' evs
  end.
Proof.
  revert B f w.
  induction p as [A r|A m|A act k IHk h IHh|A child _ k IHk]; intros B f w.
  - cbn. by destruct (until_go os_exec (f r) w).
  - reflexivity.
  - cbn [bind until_go]. destruct (perform os_exec act w) as [x w'|m|].
    + rewrite IHk. destruct (until_go os_exec (k x) w'); cbn; try done.
      by rewrite solo_events_app.
    + rewrite IHh. destruct (until_go os_exec (h m) w); cbn; try done.
      by rewrite solo_events_app.
    + reflexivity.
  - reflexivity.
Qed.

(** With no other goroutine, only the main goroutine can take a step. *)
Lemma solo_step {R} l (c c1 : config (world os_state) R) :
  workers c = [] ->
  step os_exec l c = Some c1 ->
  exists p' w' gs e,
    advance os_exec (main c) (state c) = Some (p', w', gs, e) /\
    c1 = mkConfig p' gs w' (log c ++ [(Main, e)]).
Proof.
  intros Hw. unfold step. rewrite Hw. destruct (crashed c); [done|].
  destruct l as [[|j]|[|si] [|rj]]; try done.
  - destruct (advance os_exec (main c) (state c)) as [[[[p' w'] gs] e]|];
      [|done].
    intros [= <-]. by exists p', w', gs, e.
  - by destruct (decide (si = rj)).
Qed.

(** A main goroutine that is alone and returns has run as [until_go] tells:
    to its end, or to its first [go] statement and on from there. *)
Lemma solo_returns {R} (p : prog R) :
  forall ls (c c' : config (world os_state) R) r,
    main c = p ->
    workers c = [] ->
    exec os_exec ls c = Some c' ->
    main c' = Ret r ->
    match until_go os_exec p (state c) with
    | SoloReturned r0 w0 evs =>
        r = r0 /\
        c' = mkConfig (Ret r0) [] w0 (log c ++ map (pair Main) evs)
    | SoloSpawned rest child w1 evs =>
        exists ls2,
          exec os_exec ls2
            (mkConfig rest [child] w1
               (log c ++ map (pair Main) evs ++ [(Main, Spawned)]))
          = Some c'
    | _ => False
    end.
Proof.
  induction p as [R r0|R m|R act k IHk h IHh|R child _ k _];
    intros ls c c' r Hmain Hw Hexec Hr.
  - destruct ls as [|l ls]; cbn in Hexec.
    + simplify_eq. cbn. rewrite Hmain in Hr. simplify_eq.
      split; [done|]. destruct c' as [m ws st lg]. cbn in *.
      by rewrite Hmain, Hw, app_nil_r.
    + destruct (step os_exec l c) as [c1|] eqn:E; [|done].
      destruct (solo_step _ _ _ Hw E) as (p' & w' & gs & e & Hadv & _).
      by rewrite Hmain in Hadv.
  - destruct ls as [|l ls]; cbn in Hexec.
    + simplify_eq. by rewrite Hmain in Hr.
    + destruct (step os_exec l c) as [c1|] eqn:E; [|done].
      destruct (solo_step _ _ _ Hw E) as (p' & w' & gs & e & Hadv & _).
      by rewrite Hmain in Hadv.
  - destruct ls as [|l ls]; cbn in Hexec.
    + simplify_eq. by rewrite Hmain in Hr.
    + destruct (step os_exec l c) as [c1|] eqn:E; [|done].
      destruct (solo_step _ _ _ Hw E) as (p' & w' & gs & e & Hadv & ->).
      rewrite Hmain in Hadv. cbn [advance] in Hadv. cbn [until_go].
      destruct (perform os_exec act (state c)) as [x w1|m|]; [| |done].
      * injection Hadv as <- <- <- <-.
        pose proof (fun H1 H2 => IHk x ls _ c' r H1 H2 Hexec Hr) as IH.
        specialize (IH eq_refl eq_refl). clear IHk IHh. rename IH into IHk.
        cbn in IHk.
        destruct (until_go os_exec (k x) w1); cbn; try done.
        -- by rewrite <- app_assoc in IHk.
        -- by rewrite <- app_assoc in IHk.
      * injection Hadv as <- <- <- <-.
        pose proof (fun H1 H2 => IHh m ls _ c' r H1 H2 Hexec Hr) as IH.
        specialize (IH eq_refl eq_refl). clear IHk IHh. rename IH into IHh.
        cbn in IHh.
        destruct (until_go os_exec (h m) (state c)); cbn; try done.
        -- by rewrite <- app_assoc in IHh.
        -- by rewrite <- app_assoc in IHh.
  - destruct ls as [|l ls]; cbn in Hexec.
    + simplify_eq. by rewrite Hmain in Hr.
    + destruct (step os_exec l c) as [c1|] eqn:E; [|done].
      destruct (solo_step _ _ _ Hw E) as (p' & w' & gs & e & Hadv & ->).
      rewrite Hmain in Hadv. cbn in Hadv. injection Hadv as <- <- <- <-.
      cbn. by exists ls.
Qed.

Ltac norm_go :=
  cbn [bind call defer_ until_go solo_events apps chans os fst snd].

Ltac symbolic_go := repeat (norm_go; at_step); norm_go.

(** [Start] up to its [go] statement. *)
Lemma Start_until_go w app a (stdin stdout stderr : option stream) :
  apps w !! app = Some a ->
  let c := wired stdin stdout stderr (cmd a) in
  let launch := os_exec (SysStart c) (os w) in
  until_go os_exec (Start app stdin stdout stderr) w =
  match launch.1 with
  | inr e =>
      SoloReturned (None, Some e)
        (mkWorld (<[app:=set_cmd (fun _ => c) a]> (apps w)) (chans w) launch.2)
        (wiring app stdin stdout stderr
         ++ [Did (GetCmd app); Did (Sys (SysStart c))])
  | inl p =>
      let ch := length (chans w) in
      SoloSpawned (ch' <- call (GetWaitCh app) ;; Ret (ch', None))
        (asyncWait app)
        (mkWorld
           (<[app:=set_waitCh (Some ch)
                     (set_cmd (fun _ => set_Process (Some p) c) a)]> (apps w))
           (chans w ++ [ChOpen]) launch.2)
        (wiring app stdin stdout stderr
         ++ [Did (GetCmd app); Did (Sys (SysStart c));
             Did (SetProcess app (Some p)); Did MakeChan;
             Did (SetWaitCh app (Some ch))])
  end.
Proof.
  intros Ha c launch.
  assert (Hlt : (app < length (apps w))%nat) by by eapply lookup_lt_Some.
  rewrite (world_at _ _ _ Ha) at 1. unfold Start, Cmd_Start.
  subst launch c. clear Ha. destruct a as [ca wa ea].
  destruct stdin, stdout, stderr; symbolic_go;
    cbn [wired wiring cmd set_cmd waitCh set_waitCh List.app];
    match goal with
    | |- context [os_exec (SysStart ?c) ?o] =>
        destruct (os_exec (SysStart c) o) as [[p|e] o']
    end; symbolic_go; reflexivity.
Qed.

(** ** Run (C6) *)

Lemma run_bind_ret {A} (p : prog A) w :
  run os_exec (x <- p ;; Ret x) w = run os_exec p w.
Proof.
  rewrite run_bind. destruct (run os_exec p w) as [[r|m|act] af ev sp];
    unfold then_outcome, stop_outcome; cbn; by rewrite ?app_nil_r.
Qed.

(** Run on its own, [Run] does what [Start] and then [Wait] do. *)
Lemma Run_run w app (stdin stdout stderr : option stream) :
  run os_exec (Run app stdin stdout stderr) w
  = run os_exec (Start_then_Wait app stdin stdout stderr) w.
Proof.
  unfold Run, Start_then_Wait. rewrite !run_bind.
  destruct (run os_exec (Start app stdin stdout stderr) w)
    as [[[ch [err|]]|m|act] af ev sp]; cbn [final after fst snd]; try done.
  by rewrite run_bind_ret.
Qed.

Lemma may_return_bind {A B} (Ans : forall act : action, resp act -> Prop)
    (Flt : action -> string -> Prop) (p : prog A) (f : A -> prog B)
    (evs : list event) (r : B) :
  may_return Ans Flt (bind p f) evs r ->
  exists x evs1 evs2,
    may_return Ans Flt p evs1 x /\ evs = evs1 ++ evs2 /\
    may_return Ans Flt (f x) evs2 r.
Proof.
  revert B f evs r.
  induction p as [A r0|A m|A act k IHk h IHh|A child _ k _];
    intros B f evs r; cbn [bind may_return]; try done.
  - intros H. by exists r0, [], evs.
  - intros [(x & evs' & Hx & -> & H)|(m & evs' & Hm & -> & H)].
    + destruct (IHk x _ _ _ _ H) as (y & evs1 & evs2 & H1 & -> & H2).
      exists y, (Did act :: evs1), evs2. split; [|done]. left. eauto.
    + destruct (IHh m _ _ _ _ H) as (y & evs1 & evs2 & H1 & -> & H2).
      exists y, (Raised act m :: evs1), evs2. split; [|done]. right. eauto.
Qed.

Lemma events_of_main_only (j : nat) (evs : list event) :
  events_of (Worker j) (map (pair Main) evs) = [].
Proof. induction evs as [|e evs IH]; [done|]. cbn. by rewrite decide_False. Qed.

Section Running.

Variables (app : ref) (A0 : App) (ch : chan).
Variable w1 : world os_state.
Variable log1 : list (tid * event).

Hypothesis Happ : apps w1 !! app = Some A0.
Hypothesis Hch : waitCh A0 = Some ch.
Hypothesis Hopen : chans w1 !! ch = Some ChOpen.

Local Abbreviation watched1 :=
  (watched app A0 ch 0%nat (apps w1) (chans w1) log1).

(** What [Wait] may return beside the watcher: the pair of the watcher,
    stored and sent by then, or the result with [Exited already] when the
    channel was found closed. *)
Lemma Wait_may_return {R} (c' : config (world os_state) R) s' evs st :
  watched1 c' s' ->
  may_return (answers ch s' (state c')) (faults (state c')) (Wait app) evs st ->
  evs = [Did (GetWaitCh app); Did (Recv (Some ch))] /\
  ((apps (state c') !! app ≫= exitCodeOrError = Some st /\
    exists n,
      (6 <= n)%nat /\
      events_of (Worker 0) (log c')
      = events_of (Worker 0) log1
        ++ take n (watcher_events app A0 ch (ExitCode st) (Error st))) \/
   (st = mkExitCodeOrError 0 (Some exited_already) /\
    chans (state c') !! ch = Some ChClosed)).
Proof.
  intros Hc'. unfold Wait. cbn [bind call may_return].
  intros [(x & evs1 & (a' & Hl & ->) & -> & H)|(m & evs1 & Hf & _)];
    [|by destruct (watched_lookup_None app A0 ch 0%nat _ _ _ Happ Hch _ _ Hc')].
  destruct (watched_lookup app A0 ch 0%nat _ _ _ Happ Hch _ _ _ Hc' Hl)
    as [_ Hw].
  rewrite Hw in H. cbn [bind call may_return] in H.
  destruct H as [([v ok] & evs2 & Hans & -> & H)|(m & evs2 & [] & _)].
  destruct Hans as [(_ & Hok & Hidx & Hpair)|(Heq & c2 & [= <-] & Hclosed)].
  - cbn in Hok, Hpair. subst ok. cbn in H. destruct H as [<- ->].
    split; [done|]. left.
    by apply (watched_sent app A0 ch 0%nat _ _ _ Happ c' s' v Hc' Hidx Hpair).
  - injection Heq as -> ->. cbn in H. destruct H as [<- ->].
    split; [done|]. by right.
Qed.

(** From the [go] statement of [Start] on: the caller reads the channel
    for the return of [Start] and goes on beside the watcher. *)
Lemma started_returns {B} (F : option chan * option error -> prog B)
    (ls : list label) (c' : config (world os_state) B) (r : B) :
  (forall c0, observer (F (c0, None))) ->
  exec os_exec ls
    (mkConfig (x <- (ch' <- call (GetWaitCh app) ;; Ret (ch', None)) ;; F x)
              [asyncWait app] w1 log1)
  = Some c' ->
  main c' = Ret r ->
  exists s' evs,
    watched1 c' s' /\
    events_of Main (log c')
    = events_of Main log1 ++ Did (GetWaitCh app) :: evs /\
    may_return (answers ch s' (state c')) (faults (state c'))
               (F (Some ch, None)) evs r.
Proof.
  intros HF Hexec Hr.
  assert (H0 : watched1
                 (mkConfig
                    (x <- (ch' <- call (GetWaitCh app) ;; Ret (ch', None)) ;;
                     F x)
                    [asyncWait app] w1 log1) W0).
  { constructor; cbn [main workers state log].
    - done.
    - done.
    - done.
    - by rewrite app_nil_r.
    - cbn. split; [done|]. split; [|done]. intros x. exact (HF x).
    - intros [|j] g Hj; [done|]. by destruct j. }
  destruct (observer_returns app A0 ch 0%nat _ _ _ Happ Hch Hopen ls _ c' W0 r
              H0 Hexec Hr) as (s' & evs & Hc' & _ & Hlog & Hmay).
  cbn [main log bind call may_return] in Hlog, Hmay.
  destruct Hmay as [(x & evs1 & (a' & Hl & ->) & -> & H)|(m & evs1 & Hf & _)];
    [|by destruct (watched_lookup_None app A0 ch 0%nat _ _ _ Happ Hch _ _ Hc')].
  destruct (watched_lookup app A0 ch 0%nat _ _ _ Happ Hch _ _ _ Hc' Hl)
    as [_ Hw].
  rewrite Hw in H. by exists s', evs1.
Qed.

End Running.

(** * Further properties of the package *)

(** ** NewApp *)

Lemma NewApp_run w (name : string) (args : list string) :
  let found := os_exec (SysLookPath name) (os w) in
  let a := mkApp (mkCmd (default name found.1) (name :: args)
                        None None None None true None) None None in
  run os_exec (NewApp name args) w
  = mkOutcome (Returned (length (apps w)))
              (mkWorld (apps w ++ [a]) (chans w) found.2)
              [Did (Sys (SysLookPath name)); Did (NewObj a)] [].
Proof.
  intros found a. unfold NewApp, exec_Command. norm.
  rewrite perform_Sys. by norm.
Qed.

(** X1.  [NewApp] only builds a controller: it asks for the path of the
    executable and allocates one new controller, distinct from every
    controller there was, leaving those and the channels as they were.
    The command of the new controller has the path found, or the name as
    given when none was found, the name and then the arguments as its
    argument list, and runs in a process group of its own; it has no
    environment, no streams and no process, and the controller has no
    channel and no cached result.  Nothing is launched and no goroutine is
    started. *)
Theorem NewApp_builds_without_launching w (name : string)
    (args : list string) :
  let found := os_exec (SysLookPath name) (os w) in
  let o := run os_exec (NewApp name args) w in
  exists app : ref,
    final o = Returned app /\
    apps w !! app = None /\
    apps (after o) !! app
    = Some (mkApp (mkCmd (default name found.1) (name :: args)
                         None None None None true None) None None) /\
    (forall (x : ref) a, apps w !! x = Some a -> apps (after o) !! x = Some a) /\
    length (apps (after o)) = S (length (apps w)) /\
    chans (after o) = chans w /\
    spawned o = [] /\
    (forall c, Did (Sys (SysStart c)) ∉ events o).
Proof.
  intros found o. subst o. rewrite NewApp_run. fold found.
  exists (length (apps w)). cbn [final after apps chans spawned events].
  split; [done|]. split; [by apply lookup_ge_None_2|].
  split; [by rewrite lookup_app_r, Nat.sub_diag|].
  split; [intros x a Hx; by apply lookup_app_l_Some|].
  split; [rewrite length_app; cbn; lia|].
  split; [done|]. split; [done|].
  intros c Hc. apply elem_of_cons in Hc as [Hc|Hc]; [done|].
  apply elem_of_cons in Hc as [Hc|Hc]; [done|]. by apply elem_of_nil in Hc.
Qed.

(** X2.  A controller fresh from [NewApp] has not been started: [Kill]
    on it panics with a nil dereference on either kind of platform,
    [ExitCodeOrError()] panics on its type assertion, and [Wait] blocks on
    the nil channel. *)
Theorem NewApp_not_started w (name : string) (args : list string) :
  final (run os_exec (app <- NewApp name args ;;
                      Kill IsLinuxMacOSFreeBSD app) w)
  = Panicked nil_dereference /\
  final (run os_exec (app <- NewApp name args ;; App_ExitCodeOrError app) w)
  = Panicked nil_assertion /\
  final (run os_exec (app <- NewApp name args ;; Wait app) w)
  = Waiting (Recv None).
Proof.
  assert (Hl : forall (l : list App) a, (l ++ [a]) !! length l = Some a).
  { intros l a. by rewrite lookup_app_r, Nat.sub_diag. }
  rewrite !run_bind, NewApp_run. norm.
  split; [|split].
  - unfold Kill. destruct IsLinuxMacOSFreeBSD; norm;
      by erewrite perform_GetCmd by apply Hl.
  - unfold App_ExitCodeOrError. norm.
    by erewrite perform_AtomicLoad by apply Hl.
  - unfold Wait. norm. by erewrite perform_GetWaitCh by apply Hl.
Qed.

(** ** Kill where there are no process groups *)

(** [Kill] on such a platform, run on its own: the two ways it goes on
    after reading the process handle. *)
Lemma Kill_run_single w app a (p : Process) :
  apps w !! app = Some a ->
  Process_ (cmd a) = Some p ->
  let r1 := os_exec (SysProcessKill p) (os w) in
  run os_exec (Kill false app) w =
  match r1.1 with
  | Some e =>
      mkOutcome (Returned (Some e)) (mkWorld (apps w) (chans w) r1.2)
        [Did (GetCmd app); Did (Sys (SysProcessKill p))] []
  | None =>
      then_outcome
        (mkOutcome (Returned tt) w
           [Did (GetCmd app); Did (Sys (SysProcessKill p))] [])
        (run os_exec (state <- Wait app ;; Ret (Error state))
             (mkWorld (apps w) (chans w) r1.2))
  end.
Proof.
  intros Ha Hp r1. unfold Kill. cbn [bind call run].
  rewrite (perform_GetCmd _ _ _ Ha), Hp. cbn [bind call run].
  rewrite perform_Sys. fold r1.
  destruct r1 as [[e|] o1] eqn:E1; cbn [fst snd] in *; [reflexivity|].
  cbn [apps chans record_event then_outcome final after events spawned].
  by destruct (run os_exec _ _).
Qed.

Section Single.

Variables (app : ref) (A0 : App) (ch : chan) (i : nat).
Variables (apps0 : list App) (chans0 : list chan_state).
Variable log0 : list (tid * event).

Hypothesis Happ : apps0 !! app = Some A0.
Hypothesis Hch : waitCh A0 = Some ch.
Hypothesis Hopen : chans0 !! ch = Some ChOpen.

(** The same [Kill] beside the watcher: how it may end. *)
Lemma Kill_single_beside_watcher ls
    (c c' : config (world os_state) (option error)) s (p : Process) r :
  Process_ (cmd A0) = Some p ->
  watched app A0 ch i apps0 chans0 log0 c s ->
  main c = Kill false app ->
  exec os_exec ls c = Some c' ->
  main c' = Ret r ->
  exists evs,
    events_of Main (log c') = events_of Main (log c) ++ evs /\
    ((exists e,
        r = Some e /\
        evs = [Did (GetCmd app); Did (Sys (SysProcessKill p))]) \/
     (evs = [Did (GetCmd app); Did (Sys (SysProcessKill p));
             Did (GetWaitCh app); Did (Recv (Some ch))] /\
      ((exists v n,
          r = Error v /\
          apps (state c') !! app ≫= exitCodeOrError = Some v /\
          (6 <= n)%nat /\
          events_of (Worker i) (log c')
          = events_of (Worker i) log0
            ++ take n (watcher_events app A0 ch (ExitCode v) (Error v))) \/
       (r = Some exited_already /\
        chans (state c') !! ch = Some ChClosed)))).
Proof.
  intros Hp Hc Hmain Hexec Hr.
  destruct (observer_returns app A0 ch i _ _ _ Happ Hch Hopen ls c c' s r
              Hc Hexec Hr) as (s' & evs & Hc' & Hf & Hlog & Hmay).
  exists evs. split; [done|]. rewrite Hmain in Hmay. clear Hmain.
  unfold Kill in Hmay. cbn [bind call may_return] in Hmay.
  destruct Hmay as [(x & evs1 & (a' & Hl & ->) & -> & H)|(m & evs1 & Hf' & _)];
    [|by destruct (watched_lookup_None app A0 ch i _ _ _ Happ Hch _ _ Hc')].
  destruct (watched_lookup app A0 ch i _ _ _ Happ Hch _ _ _ Hc' Hl) as [Hcmd _].
  rewrite Hcmd, Hp in H.
  cbn [bind call may_return] in H.
  destruct H as [([e|] & evs2 & _ & -> & H)|(m & evs2 & [] & _)].
  { cbn in H. destruct H as [<- ->]. left. by exists e. }
  right.
  destruct (Wait_beside_watcher app A0 ch i _ _ _ Happ Hch c' s' Error evs2 r
              Hc' H) as [-> Hcases].
  split; [done|]. exact Hcases.
Qed.

End Single.

(** X3.  On a platform without process groups and a controller whose
    process was started, [Kill] asks the process handle to kill the one
    process: no process group is looked up and no signal is sent to a
    group.  If the request fails, [Kill] returns its error and has not
    waited.  Otherwise it goes on as [Wait] and returns the error of what
    [Wait] returns.  Beside the watcher, under every schedule, a [Kill]
    that returns has taken one of these two ways; on the second it has
    received on the channel of the controller, and returns the error of
    the pair the watcher has by then stored and sent, or, when it found
    the channel closed, the error [Exited already]. *)
Theorem Kill_single_process (app : ref) (A0 : App) (p : Process) :
  Process_ (cmd A0) = Some p ->
  (forall w,
     apps w !! app = Some A0 ->
     let r1 := os_exec (SysProcessKill p) (os w) in
     run os_exec (Kill false app) w =
     match r1.1 with
     | Some e =>
         mkOutcome (Returned (Some e)) (mkWorld (apps w) (chans w) r1.2)
           [Did (GetCmd app); Did (Sys (SysProcessKill p))] []
     | None =>
         then_outcome
           (mkOutcome (Returned tt) w
              [Did (GetCmd app); Did (Sys (SysProcessKill p))] [])
           (run os_exec (state <- Wait app ;; Ret (Error state))
                (mkWorld (apps w) (chans w) r1.2))
     end) /\
  (forall (ch : chan) (i : nat) apps0 chans0 log0 ls
          (c c' : config (world os_state) (option error)) s r,
     apps0 !! app = Some A0 ->
     waitCh A0 = Some ch ->
     chans0 !! ch = Some ChOpen ->
     watched app A0 ch i apps0 chans0 log0 c s ->
     main c = Kill false app ->
     exec os_exec ls c = Some c' ->
     main c' = Ret r ->
     exists evs,
       events_of Main (log c') = events_of Main (log c) ++ evs /\
       ((exists e,
           r = Some e /\
           evs = [Did (GetCmd app); Did (Sys (SysProcessKill p))]) \/
        (evs = [Did (GetCmd app); Did (Sys (SysProcessKill p));
                Did (GetWaitCh app); Did (Recv (Some ch))] /\
         ((exists v n,
             r = Error v /\
             apps (state c') !! app ≫= exitCodeOrError = Some v /\
             (6 <= n)%nat /\
             events_of (Worker i) (log c')
             = events_of (Worker i) log0
               ++ take n (watcher_events app A0 ch (ExitCode v) (Error v))) \/
          (r = Some exited_already /\
           chans (state c') !! ch = Some ChClosed))))).
Proof.
  intros Hp. split.
  - intros w Ha. by apply (Kill_run_single w app A0 p).
  - intros ch i apps0 chans0 log0 ls c c' s r Happ Hch Hopen Hc Hmain Hexec Hr.
    by eapply Kill_single_beside_watcher.
Qed.

(** ** A caller alone with the watcher *)

Lemma reader_observer {R} (p : prog R) : reader p -> observer p.
Proof.
  induction p as [R r|R m|R act k IHk h IHh|R child _ k _]; cbn; try done.
  intros (Hp & Hk & Hh). split; [by destruct act|]. split; auto.
Qed.

(** A step a reader takes on its own leaves the world as it is. *)
Lemma advance_reader {R} (p p' : prog R) w w' gs e :
  reader p ->
  advance os_exec p w = Some (p', w', gs, e) ->
  reader p' /\ gs = [] /\ w' = w.
Proof.
  destruct p as [r|m|act k h|child k]; cbn [advance reader]; try done.
  intros (Hp & Hk & Hh).
  destruct act; try discriminate Hp; cbn [perform].
  - destruct (apps w !! app); intros [= <- <- <- <-]; auto.
  - destruct (apps w !! app); intros [= <- <- <- <-]; auto.
  - destruct (apps w !! app); intros [= <- <- <- <-]; auto.
  - destruct (c ≫= _) as [[|]|]; try done. intros [= <- <- <- <-]. auto.
Qed.

Lemma reader_Wait app : reader (Wait app).
Proof.
  cbn. repeat split; try done. intros [st [|]]; done.
Qed.

Section Alone.

Variables (app : ref) (A0 : App) (ch : chan).
Variables (apps0 : list App) (chans0 : list chan_state).
Variable log0 : list (tid * event).
Variable o0 : os_state.

Hypothesis Happ : apps0 !! app = Some A0.
Hypothesis Hch : waitCh A0 = Some ch.
Hypothesis Hopen : chans0 !! ch = Some ChOpen.

Local Abbreviation the_pair := (waited_pair os_exec A0 o0).
Local Abbreviation os_here := (os_at os_exec A0 o0).

(** A step of the watcher on its own, with the operating system it finds
    and leaves: it does not get past its send. *)
Lemma watcher_advance_os s w p' w' gs e :
  apps w = apps_at app A0 apps0 s ->
  chans w = chans_at ch chans0 s ->
  os w = os_here s ->
  (forall v, stage_pair s = Some v -> v = the_pair) ->
  advance os_exec (watcher_at app A0 ch s) w = Some (p', w', gs, e) ->
  exists s',
    p' = watcher_at app A0 ch s' /\ gs = [] /\
    apps w' = apps_at app A0 apps0 s' /\ chans w' = chans_at ch chans0 s' /\
    done_events app A0 ch s' = done_events app A0 ch s ++ [e] /\
    follows s s' /\
    os w' = os_here s' /\
    (forall v, stage_pair s' = Some v -> v = the_pair) /\
    stage_index s <> 5%nat /\
    stage_index s' = S (stage_index s).
Proof.
  intros Happs Hchans Hos Hpair.
  destruct (apps_at_lookup app A0 ch apps0 Happ Hch s) as (a & Ha & Hcmd & Hwait).
  rewrite <- Happs in Ha.
  destruct s; cbn [watcher_at asyncWait Cmd_Wait sendExitCodeOrError
                     advance bind call defer_].
  - rewrite (perform_GetWaitCh _ _ _ Ha), Hwait.
    intros [= <- <- <- <-]. exists W1. unfold follows. cbn. auto 12.
  - rewrite (perform_GetCmd _ _ _ Ha), Hcmd.
    intros [= <- <- <- <-]. exists W2. unfold follows. cbn. auto 12.
  - assert (Ho : os w = o0).
    { rewrite Hos. unfold os_at. cbn [stage_index]. by rewrite decide_True by lia. }
    rewrite perform_Sys, Ho. intros [= <- <- <- <-].
    exists (W3 (exit_status (os_exec (SysWait (Process_ (cmd A0))) o0).1).1
               (exit_status (os_exec (SysWait (Process_ (cmd A0))) o0).1).2).
    unfold follows, os_at, waited_pair. cbn [resp sysret].
    destruct (exit_status _) as [c0 e0] eqn:Ex.
    cbn. repeat split; auto; try done.
    by intros v [= <-].
  - rewrite (perform_AtomicStore _ _ _ _ Ha). intros [= <- <- <- <-].
    exists (W4 c e0). unfold follows. cbn in *. repeat split; auto.
    rewrite Happs in *. cbn in Ha. rewrite Happ in Ha. by simplify_eq.
  - rewrite (perform_GetWaitCh _ _ _ Ha), Hwait.
    intros [= <- <- <- <-]. exists (W5 c e0). unfold follows. cbn. auto 12.
  - cbn [perform]. cbn [mbind option_bind]. rewrite Hchans.
    by rewrite (chans_at_open ch chans0 Hopen (W5 c e0)).
  - cbn [perform]. rewrite Hchans.
    rewrite (chans_at_open ch chans0 Hopen (W6 c e0)) by done.
    intros [= <- <- <- <-]. exists (W7 c e0). unfold follows. cbn.
    auto 12.
  - done.
Qed.

End Alone.

Section Together.

Variables (app : ref) (A0 : App) (ch : chan).
Variables (apps0 : list App) (chans0 : list chan_state).
Variable log0 : list (tid * event).
Variable o0 : os_state.

Hypothesis Happ : apps0 !! app = Some A0.
Hypothesis Hch : waitCh A0 = Some ch.
Hypothesis Hopen : chans0 !! ch = Some ChOpen.

Local Abbreviation the_pair := (waited_pair os_exec A0 o0).
Local Abbreviation together :=
  (paired os_exec app A0 ch apps0 chans0 log0 o0).

(** A step of the two goroutines: the watcher moves on its own, short of
    getting past its send; or the caller reads; or the watcher hands its
    pair to the caller. *)
Lemma paired_step {R} l (c c1 : config (world os_state) R) s :
  together c s ->
  step os_exec l c = Some c1 ->
  exists s1,
    together c1 s1 /\ follows s s1 /\
    ((main c1 = main c /\
      events_of Main (log c1) = events_of Main (log c) /\
      ((stage_index s <= 5)%nat -> (stage_index s1 <= 5)%nat)) \/
     (exists e,
        s1 = s /\ state c1 = state c /\
        answered (answers ch s (state c1)) (faults (state c1))
                 (main c) (main c1) e /\
        events_of Main (log c1) = events_of Main (log c) ++ [e]) \/
     (stage_index s = 5%nat /\ stage_index s1 = 6%nat /\
      received (Some ch) the_pair (main c) (main c1) /\
      events_of Main (log c1)
      = events_of Main (log c) ++ [Did (Recv (Some ch))])).
Proof.
  assert (Hrefl : forall s0, follows s0 s0) by (by split).
  intros [[Hw Ha Hc Hl Hm Ho] Hlen Hrd Hos Hpr]. unfold step.
  destruct (crashed c); [done|].
  assert (Hone : forall j g, workers c !! j = Some g -> j = 0%nat).
  { intros j g Hj. apply lookup_lt_Some in Hj. lia. }
  destruct l as [[|j]|[|si] [|rj]].
  - (* the caller alone *)
    destruct (advance os_exec (main c) (state c))
      as [[[[p w] gs] e]|] eqn:E; [|done].
    intros [= <-].
    destruct (advance_reader _ _ _ _ _ _ Hrd E) as (Hp & -> & ->).
    exists s. split; [|split; [done|]].
    + constructor; cbn [main workers state log]; rewrite ?app_nil_r;
        try done.
      constructor; cbn [main workers state log]; rewrite ?app_nil_r;
        try done.
      * by rewrite events_of_app, events_of_other, app_nil_r.
      * by apply reader_observer.
    + right. left. exists e. cbn [main state log].
      split; [done|]. split; [done|].
      split; [|by rewrite events_of_app, events_of_same].
      destruct (advance_answers ch s _ _ _ _ _ _ Hm E)
        as (act & k & h & Hmain & [(x & -> & Hx & ->)|(m & -> & Hx & ->)]);
        rewrite Hmain; cbn [answered]; [left|right]; by eexists.
  - (* the watcher alone *)
    destruct (workers c !! j) as [g|] eqn:Eg; [|done].
    pose proof (Hone _ _ Eg) as ->.
    destruct (advance os_exec g (state c))
      as [[[[p w] gs] e]|] eqn:E; [|done].
    intros [= <-]. rewrite Hw in Eg. injection Eg as <-.
    destruct (watcher_advance_os app A0 ch apps0 chans0 o0 Happ Hch Hopen
                _ _ _ _ _ _ Ha Hc Hos Hpr E)
      as (s' & -> & -> & Ha' & Hc' & He & Hf & Hos' & Hpr' & Hne & Hidx).
    exists s'. split; [|split; [done|left]].
    2:{ cbn [main log]. split; [done|]. split; [|lia].
        rewrite events_of_app, events_of_other, app_nil_r; done. }
    constructor; cbn [main workers state log]; rewrite ?app_nil_r;
      try done.
    + constructor; cbn [main workers state log]; rewrite ?app_nil_r;
        try done.
      * apply list_lookup_insert_eq. lia.
      * by rewrite events_of_app, events_of_same, Hl, He, app_assoc.
      * intros j g Hj. rewrite list_lookup_insert_ne by done. by apply Ho.
    + by rewrite length_insert.
  - done.
  - (* the caller sends: it does not *)
    destruct (workers c !! rj) as [g|]; [|done].
    by rewrite (rendezvous_observer _ _ _ Hm).
  - (* the watcher sends to the caller *)
    destruct (workers c !! si) as [g|] eqn:Eg; [|done].
    pose proof (Hone _ _ Eg) as ->.
    rewrite Hw in Eg. injection Eg as <-.
    destruct (rendezvous (watcher_at app A0 ch s) (main c) (state c))
      as [[[[sp' rp'] es] er]|] eqn:E; [|done].
    destruct (rendezvous_watcher app A0 ch _ _ _ _ _ _ _ Hm E)
      as (c0 & e0 & -> & -> & Hrp & -> & -> & k & h & Hmain & ->).
    intros [= <-]. exists (W6 c0 e0).
    assert (Hv : mkExitCodeOrError c0 e0 = the_pair) by by apply Hpr.
    split; [|split; [by split; cbn; [lia|]|]].
    + constructor; cbn [main workers state log]; try done.
      * constructor; cbn [main workers state log]; try done.
        -- apply list_lookup_insert_eq. lia.
        -- rewrite events_of_app, Hl. cbn. rewrite decide_True by done.
           rewrite decide_False by done. by rewrite <- app_assoc.
        -- intros j g Hj. rewrite list_lookup_insert_ne by done.
           by apply Ho.
      * by rewrite length_insert.
      * rewrite Hmain in Hrd. cbn in Hrd. by apply Hrd.
    + right. right. cbn [main state log stage_index].
      split; [done|]. split; [done|]. split.
      * rewrite Hmain. cbn [received]. by rewrite Hv.
      * rewrite events_of_app. cbn. rewrite decide_False by done.
        by rewrite decide_True.
  - (* a worker sends to a worker: there is one worker *)
    destruct (decide (si = rj)) as [|Hsr]; [done|].
    destruct (workers c !! si) as [g|] eqn:Eg; [|done].
    destruct (workers c !! rj) as [g'|] eqn:Eg'; [|done].
    pose proof (Hone _ _ Eg). pose proof (Hone _ _ Eg'). lia.
Qed.

Lemma paired_exec {R} ls (c c' : config (world os_state) R) s :
  together c s ->
  exec os_exec ls c = Some c' ->
  exists s', together c' s' /\ follows s s'.
Proof.
  revert c s. induction ls as [|l ls IH]; intros c s Hc; cbn.
  - intros [= <-]. exists s. by split.
  - destruct (step os_exec l c) as [c1|] eqn:E; [|done].
    destruct (paired_step _ _ _ _ Hc E) as (s1 & Hc1 & [Hi1 Hp1] & _).
    intros Hexec. destruct (IH c1 s1 Hc1 Hexec) as (s' & Hc' & [Hi' Hp']).
    exists s'. split; [done|]. split; [lia|auto].
Qed.

(** Until the caller moves, the watcher has not got past its send; the
    first move of the caller is a read, or the receipt of the pair. *)
Lemma paired_first_move {R} ls (c c' : config (world os_state) R) s r :
  together c s ->
  (stage_index s <= 5)%nat ->
  exec os_exec ls c = Some c' ->
  main c' = Ret r ->
  main c = Ret r \/
  exists c1 s1 ls2 e,
    together c1 s1 /\ exec os_exec ls2 c1 = Some c' /\
    events_of Main (log c1) = events_of Main (log c) ++ [e] /\
    (((stage_index s1 <= 5)%nat /\
      answered (answers ch s1 (state c1)) (faults (state c1))
               (main c) (main c1) e) \/
     (stage_index s1 = 6%nat /\ e = Did (Recv (Some ch)) /\
      received (Some ch) the_pair (main c) (main c1))).
Proof.
  revert c s. induction ls as [|l ls IH]; intros c s Hc Hs; cbn.
  - intros [= <-] Hr. by left.
  - destruct (step os_exec l c) as [c1|] eqn:E; [|done].
    intros Hexec Hr.
    destruct (paired_step _ _ _ _ Hc E)
      as (s1 & Hc1 & Hf &
          [(Hmain & Hlog & Hidx)|[(e & -> & Hst & Hans & Hlog)|
                                  (_ & Hidx & Hrecv & Hlog)]]).
    + destruct (IH c1 s1 Hc1 (Hidx Hs) Hexec Hr)
        as [Hret|(c2 & s2 & ls2 & e & Hc2 & Hexec2 & Hlog2 & Hcases)].
      * left. by rewrite <- Hmain.
      * right. exists c2, s2, ls2, e. rewrite <- Hmain, <- Hlog.
        split; [done|]. split; [done|]. split; [done|]. exact Hcases.
    + right. exists c1, s, ls, e.
      split; [done|]. split; [done|]. split; [done|]. by left.
    + right. exists c1, s1, ls, (Did (Recv (Some ch))).
      split; [done|]. split; [done|]. split; [done|]. by right.
Qed.

(** The caller reads the channel of the controller. *)
Lemma paired_GetWaitCh {R} (F : option chan -> prog R) (H : string -> prog R)
    ls (c c' : config (world os_state) R) s r :
  together c s ->
  (stage_index s <= 5)%nat ->
  main c = Act (GetWaitCh app) F H ->
  exec os_exec ls c = Some c' ->
  main c' = Ret r ->
  exists c1 s1 ls2,
    together c1 s1 /\ (stage_index s1 <= 5)%nat /\
    main c1 = F (Some ch) /\
    exec os_exec ls2 c1 = Some c' /\
    events_of Main (log c1) = events_of Main (log c) ++ [Did (GetWaitCh app)].
Proof.
  intros Hc Hs Hmain Hexec Hr.
  destruct (paired_first_move _ _ _ _ _ Hc Hs Hexec Hr)
    as [Hret|(c1 & s1 & ls2 & e & Hc1 & Hexec1 & Hlog & Hcases)].
  { by rewrite Hmain in Hret. }
  rewrite Hmain in Hcases. cbn [bind call answered received] in Hcases.
  destruct Hcases as [(Hs1 & [(x & Hx & (a' & Hl & ->) & ->)|
                              (m & _ & Hm & _)])|(_ & _ & [])].
  - destruct (watched_lookup app A0 ch 0%nat _ _ _ Happ Hch _ _ _
                (paired_watched _ _ _ _ _ _ _ _ _ _ Hc1) Hl) as [_ Hw].
    rewrite Hw in Hx. by exists c1, s1, ls2.
  - by destruct (watched_lookup_None app A0 ch 0%nat _ _ _ Happ Hch _ _
                   (paired_watched _ _ _ _ _ _ _ _ _ _ Hc1)).
Qed.

(** The caller receives on the channel of the controller: it gets the
    pair of the watcher from the watcher. *)
Lemma paired_Recv {R} (F : ExitCodeOrError * bool -> prog R)
    (H : string -> prog R) ls (c c' : config (world os_state) R) s r :
  together c s ->
  (stage_index s <= 5)%nat ->
  main c = Act (Recv (Some ch)) F H ->
  exec os_exec ls c = Some c' ->
  main c' = Ret r ->
  exists c1 s1 ls2,
    together c1 s1 /\ stage_index s1 = 6%nat /\
    main c1 = F (the_pair, true) /\
    exec os_exec ls2 c1 = Some c' /\
    events_of Main (log c1)
    = events_of Main (log c) ++ [Did (Recv (Some ch))].
Proof.
  intros Hc Hs Hmain Hexec Hr.
  destruct (paired_first_move _ _ _ _ _ Hc Hs Hexec Hr)
    as [Hret|(c1 & s1 & ls2 & e & Hc1 & Hexec1 & Hlog & Hcases)].
  { by rewrite Hmain in Hret. }
  rewrite Hmain in Hcases. cbn [bind call answered received] in Hcases.
  destruct Hcases as [(Hs1 & [(x & Hx & Hans & ->)|(m & _ & [] & _)])|
                      (Hs1 & -> & _ & Hx)].
  - exfalso. destruct Hans as [(_ & _ & Hidx & _)|(_ & c2 & [= <-] & Hcl)];
      [lia|].
    rewrite (watched_chans _ _ _ _ _ _ _ _ _
               (paired_watched _ _ _ _ _ _ _ _ _ _ Hc1)) in Hcl.
    rewrite (chans_at_open ch chans0 Hopen s1) in Hcl; [done|].
    intros c0 e0 ->. cbn in Hs1. lia.
  - by exists c1, s1, ls2.
Qed.

(** Once the caller has returned, it stays so. *)
Lemma paired_returned {R} ls (c c' : config (world os_state) R) s v r :
  together c s ->
  main c = Ret v ->
  exec os_exec ls c = Some c' ->
  main c' = Ret r ->
  r = v /\ events_of Main (log c') = events_of Main (log c) /\
  exists s', together c' s' /\ follows s s'.
Proof.
  intros Hc Hmain Hexec Hr.
  destruct (paired_exec _ _ _ _ Hc Hexec) as (s' & Hc' & Hf).
  destruct (observer_returns app A0 ch 0%nat _ _ _ Happ Hch Hopen ls c c' s r
              (paired_watched _ _ _ _ _ _ _ _ _ _ Hc) Hexec Hr)
    as (s2 & evs & _ & _ & Hlog & Hmay).
  rewrite Hmain in Hmay. cbn in Hmay. destruct Hmay as [-> ->].
  rewrite app_nil_r in Hlog. eauto.
Qed.

(** The two goroutines when the watcher is about to run. *)
Lemma paired_start {R} (p : prog R) (w1 : world os_state) :
  apps w1 = apps0 ->
  chans w1 = chans0 ->
  os w1 = o0 ->
  reader p ->
  together (mkConfig p [asyncWait app] w1 log0) W0.
Proof.
  intros Ha Hc Ho Hp. constructor; cbn [main workers state log]; try done.
  constructor; cbn [main workers state log]; try done.
  - by rewrite app_nil_r.
  - by apply reader_observer.
  - intros [|j] g Hj; [done|]. by destruct j.
Qed.

(** Once the pair is handed over, it is the cached result, and the
    operating system is as the wait left it. *)
Lemma paired_delivered {R} (c : config (world os_state) R) s :
  together c s ->
  (6 <= stage_index s)%nat ->
  apps (state c) !! app ≫= exitCodeOrError = Some the_pair /\
  os (state c) = (os_exec (SysWait (Process_ (cmd A0))) o0).2 /\
  exists n,
    (6 <= n)%nat /\
    events_of (Worker 0) (log c)
    = events_of (Worker 0) log0
      ++ take n (watcher_events app A0 ch (ExitCode the_pair) (Error the_pair)).
Proof.
  intros [Hw _ _ Hos Hpr] Hs.
  assert (Hp : stage_pair s = Some the_pair).
  { destruct s; cbn in Hs; try lia; cbn; f_equal; by apply Hpr. }
  split; [|split].
  - by apply (watched_sent app A0 ch 0%nat _ _ _ Happ c s the_pair Hw Hs Hp).
  - rewrite Hos. unfold os_at. by rewrite decide_False by lia.
  - by apply (watched_sent app A0 ch 0%nat _ _ _ Happ c s the_pair Hw Hs Hp).
Qed.

End Together.

(** ** Run, from the launch to the result *)

Lemma events_of_main_self (evs : list event) :
  events_of Main (map (pair Main) evs) = evs.
Proof.
  induction evs as [|e evs IH]; [done|]. cbn. rewrite decide_True by done.
  by f_equal.
Qed.

(** A caller that is alone when it calls [Run], and returns from it. *)
Lemma Run_alone ls (c c' : config (world os_state) ExitCodeOrError)
    app a (stdin stdout stderr : option stream) r :
  main c = Run app stdin stdout stderr ->
  workers c = [] ->
  apps (state c) !! app = Some a ->
  exec os_exec ls c = Some c' ->
  main c' = Ret r ->
  let cm := wired stdin stdout stderr (cmd a) in
  let launch := os_exec (SysStart cm) (os (state c)) in
  match launch.1 with
  | inr e =>
      r = mkExitCodeOrError 0 (Some e) /\
      c' = mkConfig (Ret r) []
             (mkWorld (<[app:=set_cmd (fun _ => cm) a]> (apps (state c)))
                      (chans (state c)) launch.2)
             (log c ++ map (pair Main)
                         (wiring app stdin stdout stderr
                          ++ [Did (GetCmd app); Did (Sys (SysStart cm))]))
  | inl p =>
      let waited := os_exec (SysWait (Some p)) launch.2 in
      let ch := length (chans (state c)) in
      r = mkExitCodeOrError (exit_status waited.1).1 (exit_status waited.1).2 /\
      apps (state c') !! app ≫= exitCodeOrError = Some r /\
      os (state c') = waited.2 /\
      events_of Main (log c')
      = events_of Main (log c)
        ++ wiring app stdin stdout stderr
        ++ [Did (GetCmd app); Did (Sys (SysStart cm));
            Did (SetProcess app (Some p)); Did MakeChan;
            Did (SetWaitCh app (Some ch)); Spawned;
            Did (GetWaitCh app); Did (GetWaitCh app); Did (Recv (Some ch))]
  end.
Proof.
  intros Hmain Hw Ha Hexec Hr cm launch.
  pose proof (solo_returns _ ls c c' r Hmain Hw Hexec Hr) as H.
  unfold Run in H. rewrite until_go_bind in H.
  pose proof (Start_until_go (state c) app a stdin stdout stderr Ha) as HS.
  cbv zeta in HS. rewrite HS in H. clear HS. fold cm in H. fold launch in H.
  destruct launch as [[p|e] o1]; cbn [fst snd] in *.
  - destruct H as (ls2 & Hexec2).
    set (ch := length (chans (state c))) in *.
    set (A1 := set_waitCh (Some ch)
                 (set_cmd (fun _ => set_Process (Some p) cm) a)) in *.
    set (w1 := mkWorld (<[app:=A1]> (apps (state c)))
                       (chans (state c) ++ [ChOpen]) o1) in *.
    set (log1 := log c ++ _) in Hexec2.
    assert (Happ1 : apps w1 !! app = Some A1) by by eapply lookup_update.
    assert (Hch1 : waitCh A1 = Some ch) by done.
    assert (Hopen1 : chans w1 !! ch = Some ChOpen).
    { cbn. by rewrite lookup_app_r, Nat.sub_diag. }
    cbn [bind call] in Hexec2.
    match type of Hexec2 with
    | exec _ _ (mkConfig ?p _ _ _) = _ =>
        assert (Hc1 : paired os_exec app A1 ch (apps w1) (chans w1) log1 o1
                        (mkConfig p [asyncWait app] w1 log1) W0)
    end.
    { apply paired_start; try done. cbn. repeat split; try done.
      intros [st [|]]; done. }
    destruct (paired_GetWaitCh app A1 ch _ _ _ _ Happ1 Hch1 Hopen1 _ _ _ _ _
                W0 r Hc1 ltac:(cbn; lia) eq_refl Hexec2 Hr)
      as (c2 & s2 & ls3 & Hc2 & Hs2 & Hmain2 & Hexec3 & Hlog2).
    cbn [bind call fst snd] in Hmain2.
    destruct (paired_GetWaitCh app A1 ch _ _ _ _ Happ1 Hch1 Hopen1 _ _ _ _ _
                s2 r Hc2 Hs2 Hmain2 Hexec3 Hr)
      as (c3 & s3 & ls4 & Hc3 & Hs3 & Hmain3 & Hexec4 & Hlog3).
    cbn [bind call] in Hmain3.
    destruct (paired_Recv app A1 ch _ _ _ _ Happ1 Hch1 Hopen1 _ _ _ _ _
                s3 r Hc3 Hs3 Hmain3 Hexec4 Hr)
      as (c4 & s4 & ls5 & Hc4 & Hs4 & Hmain4 & Hexec5 & Hlog4).
    cbn [bind] in Hmain4.
    destruct (paired_returned app A1 ch _ _ _ _ Happ1 Hch1 Hopen1 _ _ _ _ _ _
                Hc4 Hmain4 Hexec5 Hr)
      as (-> & Hlog5 & s5 & Hc5 & [Hidx5 _]).
    destruct (paired_delivered app A1 ch _ _ _ _ Happ1 _ _ Hc5 ltac:(lia))
      as (Hcached & Hos & _).
    split; [done|]. split; [done|]. split; [done|].
    rewrite Hlog5, Hlog4, Hlog3, Hlog2. cbn [log]. subst log1.
    rewrite !events_of_app, events_of_main_self, events_of_same.
    by rewrite <- !app_assoc.
  - cbn [solo_events until_go] in H. destruct H as [-> ->].
    split; [done|]. by rewrite app_nil_r.
Qed.


(** ** CheckIsInstalled, from the call to the verdict *)

Lemma apps_at_other (app x : ref) (A0 : App) (apps0 : list App) s :
  x <> app -> apps_at app A0 apps0 s !! x = apps0 !! x.
Proof.
  intros Hne. destruct s; cbn; try done; by rewrite list_lookup_insert_ne.
Qed.

(** A caller that is alone when it calls [CheckIsInstalled], and returns
    from it: the verdict, and the command of the controller it built, as
    launched. *)
Lemma CheckIsInstalled_launches ls (c c' : config (world os_state) (option error))
    app a r :
  main c = CheckIsInstalled app ->
  workers c = [] ->
  apps (state c) !! app = Some a ->
  exec os_exec ls c = Some c' ->
  main c' = Ret r ->
  let found := os_exec (SysLookPath "which") (os (state c)) in
  let cm := mkCmd (default "which" found.1) ["which"; Path (cmd a)]
                  None None None None true None in
  let launch := os_exec (SysStart cm) found.2 in
  let st :=
    match launch.1 with
    | inr e => mkExitCodeOrError 0 (Some e)
    | inl p =>
        let waited := os_exec (SysWait (Some p)) launch.2 in
        mkExitCodeOrError (exit_status waited.1).1 (exit_status waited.1).2
    end in
  r = installed_verdict (Path (cmd a)) st /\
  apps (state c') !! app = Some a /\
  exists whApp,
    apps (state c') !! length (apps (state c)) = Some whApp /\
    set_Process None (cmd whApp) = cm.
Proof.
  intros Hmain Hw Ha Hexec Hr found cm launch st.
  assert (Hlt : (app < length (apps (state c)))%nat) by by eapply lookup_lt_Some.
  pose proof (solo_returns _ ls c c' r Hmain Hw Hexec Hr) as H.
  unfold CheckIsInstalled, NewApp, exec_Command in H.
  cbn [bind call until_go] in H.
  rewrite (perform_GetCmd _ _ _ Ha) in H. cbn [bind call until_go] in H.
  rewrite perform_Sys in H. fold found in H.
  cbn [bind call until_go perform apps chans os] in H.
  set (wh := length (apps (state c))) in *.
  set (A := mkApp (set_Setpgid true _) None None) in H.
  set (w2 := mkWorld (apps (state c) ++ [A]) (chans (state c)) found.2) in H.
  assert (Hwh : apps w2 !! wh = Some A).
  { cbn. by rewrite lookup_app_r, Nat.sub_diag. }
  rewrite until_go_bind in H. unfold Run in H. rewrite until_go_bind in H.
  pose proof (Start_until_go w2 wh A None None None Hwh) as HS.
  cbv zeta in HS. rewrite HS in H. clear HS.
  change (wired None None None (cmd A)) with cm in H.
  change (os w2) with found.2 in H. fold launch in H.
  subst st. destruct launch as [[p|e] o1]; cbn [fst snd] in *.
  - cbn [solo_events] in H. destruct H as (ls2 & Hexec2).
    set (ch := length (chans w2)) in *.
    set (A1 := set_waitCh (Some ch)
                 (set_cmd (fun _ => set_Process (Some p) cm) A)) in *.
    set (w3 := mkWorld (<[wh:=A1]> (apps w2)) (chans w2 ++ [ChOpen]) o1) in *.
    set (log1 := log c ++ _) in Hexec2.
    assert (Happ1 : apps w3 !! wh = Some A1) by by eapply lookup_update.
    assert (Hch1 : waitCh A1 = Some ch) by done.
    assert (Hopen1 : chans w3 !! ch = Some ChOpen).
    { cbn. by rewrite lookup_app_r, Nat.sub_diag. }
    assert (Hother : forall s, apps_at wh A1 (apps w3) s !! app = Some a).
    { intros s. rewrite apps_at_other by lia. cbn.
      rewrite list_lookup_insert_ne by lia. by apply lookup_app_l_Some. }
    cbn [bind call] in Hexec2.
    match type of Hexec2 with
    | exec _ _ (mkConfig ?p _ _ _) = _ =>
        assert (Hc1 : paired os_exec wh A1 ch (apps w3) (chans w3) log1 o1
                        (mkConfig p [asyncWait wh] w3 log1) W0)
    end.
    { apply paired_start; try done. cbn. repeat split; try done.
      intros [v [|]]; cbn; [|done].
      destruct (Error v); cbn; [done|].
      destruct (negb _); cbn; repeat split; done. }
    destruct (paired_GetWaitCh wh A1 ch _ _ _ _ Happ1 Hch1 Hopen1 _ _ _ _ _
                W0 r Hc1 ltac:(cbn; lia) eq_refl Hexec2 Hr)
      as (c2 & s2 & ls3 & Hc2 & Hs2 & Hmain2 & Hexec3 & Hlog2).
    cbn [bind call fst snd] in Hmain2.
    destruct (paired_GetWaitCh wh A1 ch _ _ _ _ Happ1 Hch1 Hopen1 _ _ _ _ _
                s2 r Hc2 Hs2 Hmain2 Hexec3 Hr)
      as (c3 & s3 & ls4 & Hc3 & Hs3 & Hmain3 & Hexec4 & Hlog3).
    cbn [bind call] in Hmain3.
    destruct (paired_Recv wh A1 ch _ _ _ _ Happ1 Hch1 Hopen1 _ _ _ _ _
                s3 r Hc3 Hs3 Hmain3 Hexec4 Hr)
      as (c4 & s4 & ls5 & Hc4 & Hs4 & Hmain4 & Hexec5 & Hlog4).
    set (v := waited_pair os_exec A1 o1) in *.
    cbn [bind] in Hmain4.
    destruct (observer_returns wh A1 ch 0%nat _ _ _ Happ1 Hch1 Hopen1 ls5
                c4 c' s4 r (paired_watched _ _ _ _ _ _ _ _ _ _ Hc4) Hexec5 Hr)
      as (s5 & evs & Hc5 & _ & _ & Hmay).
    pose proof (watched_apps _ _ _ _ _ _ _ _ _ Hc5) as Happs5.
    rewrite Hmain4 in Hmay.
    assert (Hr' : r = installed_verdict (Path (cmd a)) v).
    { unfold installed_verdict.
      destruct (Error v) as [e|]; cbn [may_return] in Hmay;
        [by destruct Hmay as [<- _]|].
      destruct (ExitCode v =? 0); cbn [negb bind call may_return] in Hmay;
        [by destruct Hmay as [<- _]|].
      destruct Hmay as [(x & evs1 & (a' & Hl & ->) & _ & <- & _)|
                        (m & evs1 & Hf & _)].
      - rewrite Happs5, Hother in Hl. by injection Hl as <-.
      - cbn in Hf. by rewrite Happs5, Hother in Hf. }
    split; [exact Hr'|]. rewrite Happs5. split; [done|].
    destruct (apps_at_lookup wh A1 ch (apps w3) Happ1 Hch1 s5)
      as (a5 & Ha5 & Hcmd5 & _).
    exists a5. rewrite Hcmd5. done.
  - cbn [solo_events until_go bind fst snd Error] in H.
    destruct H as [-> ->]. cbn [state apps].
    split; [done|]. split.
    + rewrite list_lookup_insert_ne by lia. by apply lookup_app_l_Some.
    + eexists. split; [by eapply lookup_update|]. done.
Qed.

Lemma CheckIsInstalled_alone ls (c c' : config (world os_state) (option error))
    app a r :
  main c = CheckIsInstalled app ->
  workers c = [] ->
  apps (state c) !! app = Some a ->
  exec os_exec ls c = Some c' ->
  main c' = Ret r ->
  let found := os_exec (SysLookPath "which") (os (state c)) in
  let cm := mkCmd (default "which" found.1) ["which"; Path (cmd a)]
                  None None None None true None in
  let launch := os_exec (SysStart cm) found.2 in
  let st :=
    match launch.1 with
    | inr e => mkExitCodeOrError 0 (Some e)
    | inl p =>
        let waited := os_exec (SysWait (Some p)) launch.2 in
        mkExitCodeOrError (exit_status waited.1).1 (exit_status waited.1).2
    end in
  r = installed_verdict (Path (cmd a)) st /\
  apps (state c') !! app = Some a /\
  exists whApp,
    apps (state c') !! length (apps (state c)) = Some whApp /\
    Path (cmd whApp) = default "which" found.1 /\
    Args (cmd whApp) = ["which"; Path (cmd a)].
Proof.
  intros Hmain Hw Ha Hexec Hr found cm launch st.
  destruct (CheckIsInstalled_launches ls c c' app a r Hmain Hw Ha Hexec Hr)
    as (Hv & Hsame & whApp & Hwh & Hcm).
  split; [exact Hv|]. split; [exact Hsame|]. exists whApp.
  split; [exact Hwh|]. fold found in Hcm. fold cm in Hcm.
  split; [exact (f_equal Path Hcm)|exact (f_equal Args Hcm)].
Qed.

(** X5.  A caller that is alone when it calls [CheckIsInstalled], under
    every schedule of the caller and the watcher: a call that returns has
    built a new controller for [which] with the path of the checked
    command as its only argument, run it with no streams, and returns the
    error of that run if it has one (a failed launch among them), an error
    that the application does not exist, naming the path, if [which]
    ended with an exit status that is not zero, and nil otherwise.  The
    checked controller is as it was. *)
Theorem CheckIsInstalled_runs_which ls
    (c c' : config (world os_state) (option error)) app a r :
  main c = CheckIsInstalled app ->
  workers c = [] ->
  apps (state c) !! app = Some a ->
  exec os_exec ls c = Some c' ->
  main c' = Ret r ->
  let found := os_exec (SysLookPath "which") (os (state c)) in
  let cm := mkCmd (default "which" found.1) ["which"; Path (cmd a)]
                  None None None None true None in
  let launch := os_exec (SysStart cm) found.2 in
  let st :=
    match launch.1 with
    | inr e => mkExitCodeOrError 0 (Some e)
    | inl p =>
        let waited := os_exec (SysWait (Some p)) launch.2 in
        mkExitCodeOrError (exit_status waited.1).1 (exit_status waited.1).2
    end in
  r = match Error st with
      | Some err => Some err
      | None =>
          if ExitCode st =? 0 then None
          else Some (ErrorString
                       ("App " +:+ dquote +:+ Path (cmd a) +:+ dquote
                        +:+ " does not exist"))
      end /\
  apps (state c') !! app = Some a /\
  exists whApp,
    apps (state c') !! length (apps (state c)) = Some whApp /\
    Path (cmd whApp) = default "which" found.1 /\
    Args (cmd whApp) = ["which"; Path (cmd a)].
Proof. apply CheckIsInstalled_alone. Qed.

(** ** The watcher among goroutines that keep out of its way *)

Section Attending.

Variables (app : ref) (A0 : App) (ch : chan) (i : nat).
Variable log0 : list (tid * event).

Hypothesis Hch : waitCh A0 = Some ch.

Lemma observer_bystander {R} (p : prog R) : observer p -> bystander app ch p.
Proof.
  induction p as [R r|R m|R act k IHk h IHh|R child _ k _]; cbn; try done.
  intros (Hp & Hk & Hh). split; [by destruct act|]. split; auto.
Qed.

Lemma app_at_fields s : cmd (app_at A0 s) = cmd A0 /\ waitCh (app_at A0 s) = Some ch.
Proof. by destruct s. Qed.

(** A step a bystander takes on its own leaves the controller and its
    channel as they are. *)
Lemma advance_bystander {R} (p p' : prog R) w w' gs e :
  bystander app ch p ->
  advance os_exec p w = Some (p', w', gs, e) ->
  bystander app ch p' /\
  (forall g, g ∈ gs -> bystander app ch g) /\
  (forall a0, apps w !! app = Some a0 -> apps w' !! app = Some a0) /\
  (forall st, chans w !! ch = Some st -> chans w' !! ch = Some st).
Proof.
  assert (Hupd : forall (x : ref) f u w1,
             x <> app ->
             update_app x f w = Value u w1 ->
             (forall a0, apps w !! app = Some a0 -> apps w1 !! app = Some a0) /\
             (forall st, chans w !! ch = Some st -> chans w1 !! ch = Some st)).
  { intros x f u w1 Hne. unfold update_app.
    destruct (apps w !! x); [|done]. intros [= _ <-]. cbn.
    split; [|done]. intros a0 H0. by rewrite list_lookup_insert_ne. }
  destruct p as [r|m|act k h|child k]; cbn [advance bystander]; try done.
  2:{ intros [Hc Hk] [= <- <- <- <-]. split; [done|]. split; [|done].
      intros g Hg. apply elem_of_cons in Hg as [->|Hg]; [done|].
      by apply elem_of_nil in Hg. }
  intros (Hp & Hk & Hh).
  assert (Hnil : forall g : prog unit, g ∈ @nil (prog unit) -> bystander app ch g).
  { intros g Hg. by apply elem_of_nil in Hg. }
  destruct (perform os_exec act w) as [x w1|m|] eqn:E; [| |done].
  2:{ intros [= <- <- <- <-]. auto. }
  intros [= <- <- <- <-]. split; [done|]. split; [done|].
  destruct act; cbn [perform apart] in E, Hp;
    try (apply bool_decide_eq_true in Hp);
    try (by destruct (Hupd _ _ _ _ Hp E)).
  - destruct (os_exec s (os w)) as [r o]. by injection E as <- <-.
  - injection E as <- <-. cbn. split; [|done].
    intros a0 H0. by apply lookup_app_l_Some.
  - destruct (apps w !! app0); [|done]. by injection E as <- <-.
  - destruct (apps w !! app0); [|done]. by injection E as <- <-.
  - destruct (apps w !! app0); [|done]. by injection E as <- <-.
  - injection E as <- <-. cbn. split; [done|].
    intros st H0. by apply lookup_app_l_Some.
  - by destruct (c ≫= _) as [[|]|].
  - destruct (c ≫= _) as [[|]|]; try done. by injection E as <- <-.
  - destruct c as [j|]; [|done].
    destruct (chans w !! j) as [[|]|]; try done. injection E as <- <-. cbn.
    split; [done|]. intros st H0. rewrite list_lookup_insert_ne; [done|].
    congruence.
Qed.

Lemma bystander_send_head {R} (p : prog R) c v p' :
  bystander app ch p ->
  send_head p = Some (c, v, p') ->
  c <> Some ch /\ bystander app ch p'.
Proof.
  destruct p as [r|m|a k h|child k]; cbn; try done.
  intros (Hp & Hk & _). destruct a; try done. intros [= <- <- <-].
  cbn in Hp. apply bool_decide_eq_true in Hp. auto.
Qed.

Lemma bystander_recv_head {R} (p : prog R) c k :
  bystander app ch p ->
  recv_head p = Some (c, k) ->
  forall x, bystander app ch (k x).
Proof.
  destruct p as [r|m|a k' h|child k']; cbn; try done.
  intros (Hp & Hk & _). destruct a; try done. by intros [= <- <-].
Qed.

(** A step of the watcher on its own, told from the controller and the
    channel alone. *)
Lemma watcher_advance_at s w p' w' gs e :
  apps w !! app = Some (app_at A0 s) ->
  chans w !! ch = Some (chan_at s) ->
  advance os_exec (watcher_at app A0 ch s) w = Some (p', w', gs, e) ->
  exists s',
    p' = watcher_at app A0 ch s' /\ gs = [] /\
    apps w' !! app = Some (app_at A0 s') /\
    chans w' !! ch = Some (chan_at s') /\
    done_events app A0 ch s' = done_events app A0 ch s ++ [e] /\
    follows s s' /\
    stage_index s' = S (stage_index s) /\
    stage_index s <> 5%nat.
Proof.
  intros Ha Hc.
  destruct (app_at_fields s) as [Hcmd Hwait].
  destruct s; cbn [watcher_at asyncWait Cmd_Wait sendExitCodeOrError
                     advance bind call defer_].
  - rewrite (perform_GetWaitCh _ _ _ Ha), Hwait.
    intros [= <- <- <- <-]. exists W1. unfold follows. cbn. auto 12.
  - rewrite (perform_GetCmd _ _ _ Ha), Hcmd.
    intros [= <- <- <- <-]. exists W2. unfold follows. cbn. auto 12.
  - rewrite perform_Sys. intros [= <- <- <- <-].
    exists (W3 (exit_status (os_exec (SysWait (Process_ (cmd A0))) (os w)).1).1
               (exit_status (os_exec (SysWait (Process_ (cmd A0))) (os w)).1).2).
    unfold follows. destruct (exit_status _). cbn. repeat split; auto; done.
  - rewrite (perform_AtomicStore _ _ _ _ Ha). intros [= <- <- <- <-].
    exists (W4 c e0). unfold follows. cbn in *. repeat split; auto.
    by eapply lookup_update.
  - rewrite (perform_GetWaitCh _ _ _ Ha), Hwait.
    intros [= <- <- <- <-]. exists (W5 c e0). unfold follows. cbn. auto 12.
  - cbn [perform]. cbn [mbind option_bind]. by rewrite Hc.
  - cbn [perform]. rewrite Hc. cbn [chan_at].
    intros [= <- <- <- <-]. exists (W7 c e0). unfold follows. cbn.
    repeat split; auto. apply list_lookup_insert_eq. by eapply lookup_lt_Some.
  - done.
Qed.

(** The watcher can always take its next step, but for the send, which
    needs a receiver, and at its end. *)
Lemma watcher_enabled s w :
  apps w !! app = Some (app_at A0 s) ->
  chans w !! ch = Some (chan_at s) ->
  stage_index s <> 5%nat ->
  stage_index s <> 7%nat ->
  exists p' w' e, advance os_exec (watcher_at app A0 ch s) w = Some (p', w', [], e).
Proof.
  intros Ha Hc H5 H7.
  destruct (app_at_fields s) as [Hcmd Hwait].
  destruct s; try done;
    cbn [watcher_at asyncWait Cmd_Wait sendExitCodeOrError
           advance bind call defer_].
  - rewrite (perform_GetWaitCh _ _ _ Ha). eauto.
  - rewrite (perform_GetCmd _ _ _ Ha). eauto.
  - rewrite perform_Sys. eauto.
  - rewrite (perform_AtomicStore _ _ _ _ Ha). eauto.
  - rewrite (perform_GetWaitCh _ _ _ Ha). eauto.
  - cbn [perform]. rewrite Hc. cbn [chan_at]. eauto.
Qed.

Local Abbreviation attending := (attended app A0 ch i log0).

(** Every step of the configuration keeps the watcher on its course and
    the others out of its way. *)
Lemma attended_step {R} l (c c' : config (world os_state) R) s :
  attending c s ->
  step os_exec l c = Some c' ->
  exists s', attending c' s' /\ follows s s'.
Proof.
  assert (Hrefl : forall s0, follows s0 s0) by (by split).
  intros [Hw Ha Hc Hl Hm Ho]. unfold step.
  destruct (crashed c); [done|].
  assert (Hi : (i < length (workers c))%nat) by by eapply lookup_lt_Some.
  assert (Hgrow : forall (ws : list (prog unit)) gs j g,
             (forall j g, j <> i -> ws !! j = Some g -> bystander app ch g) ->
             (forall g, g ∈ gs -> bystander app ch g) ->
             j <> i -> (ws ++ gs) !! j = Some g -> bystander app ch g).
  { intros ws gs j g Hws Hgs Hj Hg. apply lookup_app_Some in Hg as [Hg|[_ Hg]].
    - by eapply Hws.
    - apply Hgs. by eapply list_elem_of_lookup_2. }
  destruct l as [[|j]|[|si] [|rj]].
  - (* the main goroutine alone *)
    destruct (advance os_exec (main c) (state c))
      as [[[[p w] gs] e]|] eqn:E; [|done].
    intros [= <-].
    destruct (advance_bystander _ _ _ _ _ _ Hm E) as (Hp & Hgs & Ha' & Hc').
    exists s. split; [|done].
    constructor; cbn [main workers state log]; auto.
    + by apply lookup_app_l_Some.
    + by rewrite events_of_app, events_of_other, app_nil_r.
    + intros j g. by apply Hgrow.
  - (* a worker alone *)
    destruct (workers c !! j) as [g|] eqn:Eg; [|done].
    destruct (advance os_exec g (state c))
      as [[[[p w] gs] e]|] eqn:E; [|done].
    intros [= <-]. destruct (decide (j = i)) as [->|Hne].
    + rewrite Hw in Eg. injection Eg as <-.
      destruct (watcher_advance_at _ _ _ _ _ _ Ha Hc E)
        as (s' & -> & -> & Ha' & Hc' & He & Hf & _).
      exists s'. split; [|done].
      constructor; cbn [main workers state log]; rewrite ?app_nil_r;
        try done.
      * by apply list_lookup_insert_eq.
      * by rewrite events_of_app, events_of_same, Hl, He, app_assoc.
      * intros j g Hj. rewrite list_lookup_insert_ne by done. by apply Ho.
    + destruct (advance_bystander _ _ _ _ _ _ (Ho _ _ Hne Eg) E)
        as (Hp & Hgs & Ha' & Hc').
      exists s. split; [|done].
      constructor; cbn [main workers state log]; auto.
      * apply lookup_app_l_Some. by rewrite list_lookup_insert_ne.
      * rewrite events_of_app, events_of_other, app_nil_r; [done|].
        congruence.
      * intros j' g'. apply Hgrow; [|done].
        intros j0 g0 Hj0. destruct (decide (j = j0)) as [<-|].
        -- rewrite list_lookup_insert_eq by by eapply lookup_lt_Some.
           by intros [= <-].
        -- rewrite list_lookup_insert_ne by done. by apply Ho.
  - done.
  - (* the main goroutine sends to a worker *)
    destruct (workers c !! rj) as [g|] eqn:Eg; [|done].
    unfold rendezvous.
    destruct (send_head (main c)) as [[[c0 v] sp']|] eqn:Es; [|done].
    destruct (bystander_send_head _ _ _ _ Hm Es) as [Hc0 Hsp].
    destruct (recv_head g) as [[c1 k]|] eqn:Er; [|done].
    destruct (decide (c0 = c1)) as [<-|]; [|done].
    destruct (is_open c0 (state c)); [|done].
    intros [= <-]. exists s. split; [|done].
    assert (Hne : rj <> i).
    { intros ->. rewrite Hw in Eg. injection Eg as <-.
      unfold recv_head in Er. by destruct s. }
    constructor; cbn [main workers state log]; auto.
    + by rewrite list_lookup_insert_ne.
    + rewrite events_of_app. cbn. rewrite !decide_False by congruence.
      by rewrite app_nil_r.
    + intros j0 g0 Hj0. destruct (decide (rj = j0)) as [<-|].
      * rewrite list_lookup_insert_eq by by eapply lookup_lt_Some.
        intros [= <-]. exact (bystander_recv_head _ _ _ (Ho _ _ Hne Eg) Er _).
      * rewrite list_lookup_insert_ne by done. by apply Ho.
  - (* a worker sends to the main goroutine *)
    destruct (workers c !! si) as [g|] eqn:Eg; [|done].
    unfold rendezvous.
    destruct (send_head g) as [[[c0 v] sp']|] eqn:Es; [|done].
    destruct (recv_head (main c)) as [[c1 k]|] eqn:Er; [|done].
    destruct (decide (c0 = c1)) as [<-|]; [|done].
    destruct (is_open c0 (state c)); [|done].
    intros [= <-].
    pose proof (bystander_recv_head _ _ _ Hm Er) as Hk.
    destruct (decide (si = i)) as [->|Hne].
    + rewrite Hw in Eg. injection Eg as <-.
      destruct (watcher_send_head app A0 ch _ _ _ _ Es)
        as (c2 & e2 & -> & -> & -> & ->).
      exists (W6 c2 e2). split; [|by split; cbn; [lia|]].
      constructor; cbn [main workers state log]; auto.
      * by apply list_lookup_insert_eq.
      * rewrite events_of_app, Hl. cbn. rewrite decide_True by done.
        rewrite decide_False by done. by rewrite <- app_assoc.
      * intros j g Hj. rewrite list_lookup_insert_ne by done. by apply Ho.
    + destruct (bystander_send_head _ _ _ _ (Ho _ _ Hne Eg) Es) as [Hc0 Hsp].
      exists s. split; [|done].
      constructor; cbn [main workers state log]; auto.
      * by rewrite list_lookup_insert_ne.
      * rewrite events_of_app. cbn. rewrite !decide_False by congruence.
        by rewrite app_nil_r.
      * intros j0 g0 Hj0. destruct (decide (si = j0)) as [<-|].
        -- rewrite list_lookup_insert_eq by by eapply lookup_lt_Some.
           by intros [= <-].
        -- rewrite list_lookup_insert_ne by done. by apply Ho.
  - (* a worker sends to a worker *)
    destruct (decide (si = rj)) as [|Hsr]; [done|].
    destruct (workers c !! si) as [g|] eqn:Eg; [|done].
    destruct (workers c !! rj) as [g'|] eqn:Eg'; [|done].
    unfold rendezvous.
    destruct (send_head g) as [[[c0 v] sp']|] eqn:Es; [|done].
    destruct (recv_head g') as [[c1 k]|] eqn:Er; [|done].
    destruct (decide (c0 = c1)) as [<-|]; [|done].
    destruct (is_open c0 (state c)); [|done].
    intros [= <-].
    assert (Hrj : rj <> i).
    { intros ->. rewrite Hw in Eg'. injection Eg' as <-.
      unfold recv_head in Er. by destruct s. }
    pose proof (bystander_recv_head _ _ _ (Ho _ _ Hrj Eg') Er) as Hk.
    assert (Hlen : (rj < length (<[si:=sp']> (workers c)))%nat).
    { rewrite length_insert. by eapply lookup_lt_Some. }
    destruct (decide (si = i)) as [->|Hne].
    + rewrite Hw in Eg. injection Eg as <-.
      destruct (watcher_send_head app A0 ch _ _ _ _ Es)
        as (c2 & e2 & -> & -> & -> & ->).
      exists (W6 c2 e2). split; [|by split; cbn; [lia|]].
      constructor; cbn [main workers state log]; auto.
      * rewrite list_lookup_insert_ne by congruence.
        by apply list_lookup_insert_eq.
      * rewrite events_of_app, Hl. cbn. rewrite decide_True by done.
        rewrite decide_False by congruence. by rewrite <- app_assoc.
      * intros j g Hj. destruct (decide (rj = j)) as [<-|].
        -- rewrite list_lookup_insert_eq by done. by intros [= <-].
        -- rewrite !list_lookup_insert_ne by done. by apply Ho.
    + destruct (bystander_send_head _ _ _ _ (Ho _ _ Hne Eg) Es) as [Hc0 Hsp].
      exists s. split; [|done].
      constructor; cbn [main workers state log]; auto.
      * by rewrite !list_lookup_insert_ne.
      * rewrite events_of_app. cbn. rewrite !decide_False by congruence.
        by rewrite app_nil_r.
      * intros j0 g0 Hj0. destruct (decide (rj = j0)) as [<-|].
        -- rewrite list_lookup_insert_eq by done. by intros [= <-].
        -- rewrite list_lookup_insert_ne by done.
           destruct (decide (si = j0)) as [<-|].
           ++ rewrite list_lookup_insert_eq by by eapply lookup_lt_Some.
              by intros [= <-].
           ++ rewrite list_lookup_insert_ne by done. by apply Ho.
Qed.

Lemma attended_exec {R} ls (c c' : config (world os_state) R) s :
  attending c s ->
  exec os_exec ls c = Some c' ->
  exists s', attending c' s' /\ follows s s'.
Proof.
  revert c s. induction ls as [|l ls IH]; intros c s Hc; cbn.
  - intros [= <-]. exists s. by split.
  - destruct (step os_exec l c) as [c1|] eqn:E; [|done].
    destruct (attended_step _ _ _ _ Hc E) as (s1 & Hc1 & [Hi1 Hp1]).
    intros Hexec. destruct (IH c1 s1 Hc1 Hexec) as (s' & Hc' & [Hi' Hp']).
    exists s'. split; [done|]. split; [lia|auto].
Qed.

End Attending.

(** The whole run of the watcher when no other goroutine is scheduled:
    it stores the pair and then stops at the send, which needs a
    receiver; if the channel is closed already, the send panics and the
    deferred close is called all the same. *)
Lemma asyncWait_run w app a :
  apps w !! app = Some a ->
  let waited := os_exec (SysWait (Process_ (cmd a))) (os w) in
  let v := mkExitCodeOrError (exit_status waited.1).1 (exit_status waited.1).2 in
  let stored :=
    mkWorld (<[app:=set_exitCodeOrError (Some v) a]> (apps w)) (chans w)
            waited.2 in
  let before :=
    [Did (GetWaitCh app); Did (GetCmd app);
     Did (Sys (SysWait (Process_ (cmd a))));
     Did (AtomicStore app v); Did (GetWaitCh app)] in
  run os_exec (asyncWait app) w =
  match waitCh a ≫= (chans w !!.) with
  | Some ChClosed =>
      mkOutcome (Panicked close_of_closed) stored
        (before ++ [Raised (Send (waitCh a) v) send_on_closed;
                    Raised (Close (waitCh a)) close_of_closed]) []
  | _ => mkOutcome (Waiting (Send (waitCh a) v)) stored before []
  end.
Proof.
  intros Ha waited v stored before.
  assert (Hlt : (app < length (apps w))%nat) by by eapply lookup_lt_Some.
  unfold asyncWait, Cmd_Wait. norm.
  rewrite (perform_GetWaitCh _ _ _ Ha). norm.
  rewrite (perform_GetCmd _ _ _ Ha). norm.
  rewrite perform_Sys. fold waited. norm.
  subst stored before v. cbn [resp sysret].
  destruct (exit_status _) as [c0 e0]. cbn [fst snd].
  unfold sendExitCodeOrError. norm.
  erewrite perform_AtomicStore by exact Ha. norm.
  erewrite perform_GetWaitCh by (cbn [apps]; by eapply lookup_update).
  norm. cbn [waitCh set_exitCodeOrError perform chans].
  destruct (waitCh a) as [ch|]; cbn [mbind option_bind]; [|done].
  destruct (chans w !! ch) as [[|]|] eqn:Ec; norm; done.
Qed.

Section Progress.

Variables (app : ref) (A0 : App) (ch : chan) (i : nat).
Variable log0 : list (tid * event).

Hypothesis Hch : waitCh A0 = Some ch.

Local Abbreviation attending := (attended app A0 ch i log0).

Lemma done_events_take s c e :
  (forall v, stage_pair s = Some v -> v = mkExitCodeOrError c e) ->
  done_events app A0 ch s = take (stage_index s) (watcher_events app A0 ch c e).
Proof.
  destruct s; cbn; intros H; try done;
    specialize (H _ eq_refl); by injection H as -> ->.
Qed.

(** Short of its send and of its end, the watcher can take its next
    step, whatever the other goroutines are at. *)
Lemma watcher_next {R} (c : config (world os_state) R) s :
  attending c s ->
  crashed c = false ->
  stage_index s <> 5%nat ->
  stage_index s <> 7%nat ->
  exists c1 s1,
    step os_exec (Tau (Worker i)) c = Some c1 /\
    attending c1 s1 /\ follows s s1 /\
    stage_index s1 = S (stage_index s).
Proof.
  intros [Hw Ha Hc Hl Hm Ho] Hcr H5 H7. unfold step. rewrite Hcr, Hw.
  destruct (watcher_enabled app A0 ch Hch s _ Ha Hc H5 H7) as (p' & w' & e & E).
  rewrite E.
  destruct (watcher_advance_at app A0 ch Hch _ _ _ _ _ _ Ha Hc E)
    as (s' & -> & _ & Ha' & Hc' & He & Hf & Hidx & _).
  eexists _, s'. split; [done|]. split; [|done].
  assert (Hi : (i < length (workers c))%nat) by by eapply lookup_lt_Some.
  constructor; cbn [main workers state log]; rewrite ?app_nil_r; try done.
  - by apply list_lookup_insert_eq.
  - by rewrite events_of_app, events_of_same, Hl, He, app_assoc.
  - intros j g Hj. rewrite list_lookup_insert_ne by done. by apply Ho.
Qed.

(** At its send, the watcher stays until a goroutine receives on the
    channel; then the pair passes to that goroutine in one step. *)
Lemma watcher_waits {R} (c : config (world os_state) R) code err :
  attending c (W5 code err) ->
  step os_exec (Tau (Worker i)) c = None.
Proof.
  intros [Hw Ha Hc Hl Hm Ho]. unfold step. destruct (crashed c); [done|].
  rewrite Hw. cbn [watcher_at advance defer_ call bind perform].
  cbn [mbind option_bind]. by rewrite Hc.
Qed.

Lemma watcher_hands_to_main {R} (c : config (world os_state) R) code err k h :
  attending c (W5 code err) ->
  crashed c = false ->
  main c = Act (Recv (Some ch)) k h ->
  exists c1,
    step os_exec (Sync (Worker i) Main) c = Some c1 /\
    main c1 = k (mkExitCodeOrError code err, true) /\
    attending c1 (W6 code err).
Proof.
  intros [Hw Ha Hc Hl Hm Ho] Hcr Hmain. unfold step. rewrite Hcr, Hw.
  unfold rendezvous. rewrite Hmain.
  cbn [watcher_at send_head recv_head defer_ call bind].
  rewrite decide_True by done. unfold is_open. cbn [mbind option_bind].
  rewrite Hc. cbn [chan_at].
  eexists. split; [done|]. split; [done|].
  assert (Hi : (i < length (workers c))%nat) by by eapply lookup_lt_Some.
  rewrite Hmain in Hm. cbn in Hm. destruct Hm as (_ & Hk & _).
  constructor; cbn [main workers state log]; try done.
  - by apply list_lookup_insert_eq.
  - rewrite events_of_app, Hl. cbn. rewrite decide_True by done.
    rewrite decide_False by done. by rewrite <- app_assoc.
  - intros j g Hj. rewrite list_lookup_insert_ne by done. by apply Ho.
Qed.

Lemma watcher_hands_to_worker {R} (c : config (world os_state) R) code err
    (j : nat) k h :
  attending c (W5 code err) ->
  crashed c = false ->
  workers c !! j = Some (Act (Recv (Some ch)) k h) ->
  exists c1,
    step os_exec (Sync (Worker i) (Worker j)) c = Some c1 /\
    workers c1 !! j = Some (k (mkExitCodeOrError code err, true)) /\
    attending c1 (W6 code err).
Proof.
  intros [Hw Ha Hc Hl Hm Ho] Hcr Hj. unfold step. rewrite Hcr.
  assert (Hne : i <> j).
  { intros <-. rewrite Hw in Hj. by injection Hj. }
  rewrite decide_False by done. rewrite Hw, Hj.
  unfold rendezvous.
  cbn [watcher_at send_head recv_head defer_ call bind].
  rewrite decide_True by done. unfold is_open. cbn [mbind option_bind].
  rewrite Hc. cbn [chan_at].
  assert (Hi : (i < length (workers c))%nat) by by eapply lookup_lt_Some.
  assert (Hlen : (j < length (<[i:=watcher_at app A0 ch (W6 code err)]>
                                (workers c)))%nat).
  { rewrite length_insert. by eapply lookup_lt_Some. }
  eexists. split; [done|]. split.
  { cbn [workers]. by apply list_lookup_insert_eq. }
  pose proof (Ho _ _ (not_eq_sym Hne) Hj) as Hb. cbn in Hb.
  destruct Hb as (_ & Hk & _).
  constructor; cbn [main workers state log]; try done.
  - rewrite list_lookup_insert_ne by done. by apply list_lookup_insert_eq.
  - rewrite events_of_app, Hl. cbn. rewrite decide_True by done.
    rewrite decide_False by congruence. by rewrite <- app_assoc.
  - intros j0 g Hj0. destruct (decide (j = j0)) as [<-|].
    + rewrite list_lookup_insert_eq by done. by intros [= <-].
    + rewrite !list_lookup_insert_ne by done. by apply Ho.
Qed.

End Progress.

(** ** The order of store, send and close (C2) *)

Lemma stage_code s :
  exists code err,
    forall v, stage_pair s = Some v -> v = mkExitCodeOrError code err.
Proof.
  destruct s; cbn; try (by exists 0, None); exists c, e; by intros v [= <-].
Qed.

Lemma done_events_early (app : ref) (A0 : App) (ch : chan) s c e :
  (stage_index s <= 3)%nat ->
  done_events app A0 ch s = take (stage_index s) (watcher_events app A0 ch c e).
Proof. destruct s; cbn; intros H; try done; lia. Qed.

Lemma app_at_pair (A0 : App) s code err :
  (forall v, stage_pair s = Some v -> v = mkExitCodeOrError code err) ->
  app_at A0 s
  = if decide (stage_index s < 4)%nat then A0
    else set_exitCodeOrError (Some (mkExitCodeOrError code err)) A0.
Proof.
  destruct s; cbn; intros H; try done;
    specialize (H _ eq_refl); by injection H as -> ->.
Qed.


(** ** Run, run to its end *)

(** [Run] on its own: after a launch that fails it returns; after one
    that succeeds it is in [Wait], at the receive, with the watcher
    started and not yet scheduled. *)
Lemma Run_on_its_own w app a (stdin stdout stderr : option stream) :
  apps w !! app = Some a ->
  let cm := wired stdin stdout stderr (cmd a) in
  let launch := os_exec (SysStart cm) (os w) in
  run os_exec (Run app stdin stdout stderr) w =
  match launch.1 with
  | inr e =>
      mkOutcome (Returned (mkExitCodeOrError 0 (Some e)))
        (mkWorld (<[app:=set_cmd (fun _ => cm) a]> (apps w)) (chans w) launch.2)
        (wiring app stdin stdout stderr
         ++ [Did (GetCmd app); Did (Sys (SysStart cm))])
        []
  | inl p =>
      let ch := length (chans w) in
      mkOutcome (Waiting (Recv (Some ch)))
        (mkWorld
           (<[app:=set_waitCh (Some ch)
                     (set_cmd (fun _ => set_Process (Some p) cm) a)]> (apps w))
           (chans w ++ [ChOpen]) launch.2)
        (wiring app stdin stdout stderr
         ++ [Did (GetCmd app); Did (Sys (SysStart cm));
             Did (SetProcess app (Some p)); Did MakeChan;
             Did (SetWaitCh app (Some ch)); Spawned; Did (GetWaitCh app);
             Did (GetWaitCh app)])
        [asyncWait app]
  end.
Proof.
  intros Ha cm launch. unfold Run. rewrite run_bind.
  pose proof (Start_run w app a stdin stdout stderr Ha) as HS.
  cbv zeta in HS. rewrite HS. clear HS. fold cm. fold launch.
  destruct launch as [[p|e] o1]; cbn [fst snd final after].
  - unfold Wait. norm.
    erewrite perform_GetWaitCh by (cbn [apps]; by eapply lookup_update).
    norm. cbn [perform waitCh set_waitCh chans mbind option_bind].
    rewrite lookup_app_r, Nat.sub_diag by done.
    cbn [lookup list_lookup]. unfold then_outcome, record_event.
    cbn [final after events spawned]. rewrite <- !app_assoc. done.
  - unfold then_outcome. cbn [run final after events spawned].
    by rewrite !app_nil_r.
Qed.

(** With no other goroutine, the main goroutine can be scheduled up to
    its end, or up to and with its first [go] statement. *)
Lemma solo_runs {R} (p : prog R) :
  forall (c : config (world os_state) R),
    main c = p ->
    workers c = [] ->
    match until_go os_exec p (state c) with
    | SoloReturned r0 w0 evs =>
        exec os_exec (replicate (length evs) (Tau Main)) c
        = Some (mkConfig (Ret r0) [] w0 (log c ++ map (pair Main) evs))
    | SoloSpawned rest child w1 evs =>
        exec os_exec (replicate (S (length evs)) (Tau Main)) c
        = Some (mkConfig rest [child] w1
                  (log c ++ map (pair Main) evs ++ [(Main, Spawned)]))
    | _ => True
    end.
Proof.
  induction p as [R r0|R m|R act k IHk h IHh|R child _ k _];
    intros c Hmain Hw.
  - cbn. destruct c as [m ws st lg]. cbn in *. by rewrite Hmain, Hw, app_nil_r.
  - done.
  - cbn [until_go].
    assert (Hstep : forall x w1 e,
               advance os_exec (main c) (state c) = Some (x, w1, [], e) ->
               step os_exec (Tau Main) c
               = Some (mkConfig x [] w1 (log c ++ [(Main, e)]))).
    { intros x w1 e E. unfold step, crashed. rewrite E, Hw, Hmain. done. }
    rewrite Hmain in Hstep. cbn [advance] in Hstep.
    destruct (perform os_exec act (state c)) as [x w1|m|]; [| |done].
    + specialize (IHk x (mkConfig (k x) [] w1 (log c ++ [(Main, Did act)]))
                    eq_refl eq_refl).
      cbn [state log] in IHk.
      destruct (until_go os_exec (k x) w1) as [r0 w0 evs|m|
                                                |rest child w2 evs];
        cbn [solo_events length List.app]; try done;
        rewrite replicate_S; cbn [exec];
        rewrite (Hstep _ _ _ eq_refl), IHk; cbn; by rewrite <- !app_assoc.
    + specialize (IHh m (mkConfig (h m) [] (state c)
                           (log c ++ [(Main, Raised act m)]))
                    eq_refl eq_refl).
      cbn [state log] in IHh.
      destruct (until_go os_exec (h m) (state c)) as [r0 w0 evs|m'|
                                                     |rest child w2 evs];
        cbn [solo_events length List.app]; try done;
        rewrite replicate_S; cbn [exec];
        rewrite (Hstep _ _ _ eq_refl), IHh; cbn; by rewrite <- !app_assoc.
  - cbn. unfold step, crashed. rewrite Hmain, Hw. done.
Qed.

Lemma exec_app {R} (l1 l2 : list label) (c : config (world os_state) R) :
  exec os_exec (l1 ++ l2) c = exec os_exec l1 c ≫= exec os_exec l2.
Proof.
  revert c. induction l1 as [|l l1 IH]; intros c; [done|]. cbn.
  destruct (step os_exec l c); [apply IH|done].
Qed.

(** A caller about to read the channel and receive on it, beside the
    watcher about to run: scheduled one after the other, the caller gets
    to its receive, the watcher to its send, and the pair passes. *)
Lemma hand_over_runs {R} app A1 (ch : chan) w1 log1
    (K : ExitCodeOrError * bool -> prog R) (H H' : string -> prog R) :
  apps w1 !! app = Some A1 ->
  waitCh A1 = Some ch ->
  chans w1 !! ch = Some ChOpen ->
  exists lg,
    exec os_exec
      (Tau Main :: replicate 5 (Tau (Worker 0)) ++ [Sync (Worker 0) Main])
      (mkConfig (Act (GetWaitCh app) (fun x => Act (Recv x) K H) H')
                [asyncWait app] w1 log1)
    = Some (mkConfig (K (waited_pair os_exec A1 (os w1), true))
              [call (Close (Some ch)) ;; Ret tt]
              (mkWorld
                 (<[app:=set_exitCodeOrError
                           (Some (waited_pair os_exec A1 (os w1))) A1]>
                    (apps w1))
                 (chans w1)
                 (os_exec (SysWait (Process_ (cmd A1))) (os w1)).2)
              lg).
Proof.
  intros Ha Hch Hopen.
  assert (Hlt : (app < length (apps w1))%nat) by by eapply lookup_lt_Some.
  cbn [replicate List.app exec].
  (* the caller reads the channel *)
  unfold step at 1. cbn [crashed main workers is_panic existsb orb asyncWait
                           bind call state advance].
  rewrite (perform_GetWaitCh _ _ _ Ha), Hch. cbn [List.app log].
  (* the watcher reads the channel, for the deferred close *)
  unfold step at 1. cbn [crashed main workers is_panic existsb orb
                           lookup list_lookup state advance].
  rewrite (perform_GetWaitCh _ _ _ Ha), Hch.
  cbn [insert list_insert List.app log].
  (* reads the command *)
  unfold step at 1. unfold Cmd_Wait.
  cbn [crashed main workers is_panic existsb orb lookup list_lookup state
         advance bind call defer_].
  rewrite (perform_GetCmd _ _ _ Ha). cbn [insert list_insert List.app log].
  (* waits for the process *)
  unfold step at 1.
  cbn [crashed main workers is_panic existsb orb lookup list_lookup state
         advance bind call defer_].
  rewrite perform_Sys. cbn [insert list_insert List.app log].
  unfold waited_pair. cbn [resp sysret].
  destruct (exit_status _) as [code err]. cbn [fst snd].
  (* stores the pair *)
  unfold step at 1. unfold sendExitCodeOrError.
  cbn [crashed main workers is_panic existsb orb lookup list_lookup state
         advance bind call defer_].
  erewrite perform_AtomicStore by exact Ha.
  cbn [insert list_insert List.app log apps chans os].
  (* reads the channel *)
  unfold step at 1.
  cbn [crashed main workers is_panic existsb orb lookup list_lookup state
         advance bind call defer_].
  erewrite perform_GetWaitCh by (cbn [apps]; by eapply lookup_update).
  cbn [insert list_insert List.app log waitCh set_exitCodeOrError].
  rewrite Hch.
  (* hands the pair over *)
  unfold step at 1.
  cbn [crashed main workers is_panic existsb orb lookup list_lookup state
         rendezvous send_head recv_head bind call defer_].
  rewrite decide_True by done. unfold is_open.
  cbn [mbind option_bind chans]. rewrite Hopen.
  eexists. reflexivity.
Qed.

(** A caller that is alone when it calls [Run] can be scheduled, with the
    watcher, so that [Run] returns. *)
Lemma Run_completes (c : config (world os_state) ExitCodeOrError)
    app a (stdin stdout stderr : option stream) :
  main c = Run app stdin stdout stderr ->
  workers c = [] ->
  apps (state c) !! app = Some a ->
  exists ls c' r, exec os_exec ls c = Some c' /\ main c' = Ret r.
Proof.
  intros Hmain Hw Ha.
  pose proof (solo_runs _ c Hmain Hw) as H.
  unfold Run in H. rewrite until_go_bind in H.
  pose proof (Start_until_go (state c) app a stdin stdout stderr Ha) as HS.
  cbv zeta in HS. rewrite HS in H. clear HS.
  destruct (os_exec (SysStart (wired stdin stdout stderr (cmd a)))
              (os (state c))) as [[p|e] o1]; cbn [fst snd] in H.
  - set (ch := length (chans (state c))) in *.
    set (A1 := set_waitCh (Some ch) _) in *.
    set (w1 := mkWorld (<[app:=A1]> (apps (state c)))
                       (chans (state c) ++ [ChOpen]) o1) in *.
    assert (Happ1 : apps w1 !! app = Some A1) by by eapply lookup_update.
    assert (Hch1 : waitCh A1 = Some ch) by done.
    assert (Hopen1 : chans w1 !! ch = Some ChOpen).
    { cbn. by rewrite lookup_app_r, Nat.sub_diag. }
    set (evs := wiring app stdin stdout stderr ++ _) in H.
    set (log1 := log c ++ _) in H.
    destruct (hand_over_runs app A1 ch w1
                (log1 ++ [(Main, Did (GetWaitCh app))])
                (fun r : ExitCodeOrError * bool =>
                   st <- (let (st, ok) := r in
                          if ok then Ret st
                          else Ret (mkExitCodeOrError 0 (Some exited_already))) ;;
                   Ret st)
                (fun m => Panic m) (fun m => Panic m) Happ1 Hch1 Hopen1)
      as (lg & Hexec).
    eexists (replicate (S (length evs)) (Tau Main)
             ++ [Tau Main]
             ++ (Tau Main :: replicate 5 (Tau (Worker 0))
                 ++ [Sync (Worker 0) Main])),
            _, (waited_pair os_exec A1 (os w1)).
    split.
    { rewrite exec_app, H. cbn [mbind option_bind]. rewrite exec_app.
      match goal with
      | |- exec _ [Tau Main] ?c1 ≫= _ = _ =>
          assert (Hstep : exec os_exec [Tau Main] c1
                          = Some (mkConfig (st <- Wait app ;; Ret st)
                                    [asyncWait app] w1
                                    (log1 ++ [(Main, Did (GetWaitCh app))])))
      end.
      { cbn [exec]. unfold step.
        cbn [crashed main workers is_panic existsb orb asyncWait bind call
               state advance].
        rewrite (perform_GetWaitCh _ _ _ Happ1), Hch1. done. }
      rewrite Hstep. cbn [mbind option_bind]. exact Hexec. }
    reflexivity.
  - cbn [solo_events until_go bind fst snd] in H. eauto.
Qed.

(** X4.  [Run] for a caller that is alone when it calls it.  Run on its
    own: if the launch fails, [Run] returns exit code 0 with the launch
    error, having made no channel and started no goroutine; if the launch
    succeeds, [Run] has started the watcher and is in [Wait], at the
    receive on the new channel.  With the watcher scheduled: there is a
    schedule under which [Run] returns; and under every schedule of the
    caller and the watcher, a [Run] that returns after a launch that
    succeeded has received from the watcher, and returns, the pair that
    the watcher made of what the wait for the launched process answered,
    which is by then the cached result of the controller. *)
Theorem Run_returns_the_watchers_pair app a
    (stdin stdout stderr : option stream) :
  let cm := wired stdin stdout stderr (cmd a) in
  (forall w,
     apps w !! app = Some a ->
     let launch := os_exec (SysStart cm) (os w) in
     run os_exec (Run app stdin stdout stderr) w =
     match launch.1 with
     | inr e =>
         mkOutcome (Returned (mkExitCodeOrError 0 (Some e)))
           (mkWorld (<[app:=set_cmd (fun _ => cm) a]> (apps w)) (chans w)
                    launch.2)
           (wiring app stdin stdout stderr
            ++ [Did (GetCmd app); Did (Sys (SysStart cm))])
           []
     | inl p =>
         let ch := length (chans w) in
         mkOutcome (Waiting (Recv (Some ch)))
           (mkWorld
              (<[app:=set_waitCh (Some ch)
                        (set_cmd (fun _ => set_Process (Some p) cm) a)]>
                 (apps w))
              (chans w ++ [ChOpen]) launch.2)
           (wiring app stdin stdout stderr
            ++ [Did (GetCmd app); Did (Sys (SysStart cm));
                Did (SetProcess app (Some p)); Did MakeChan;
                Did (SetWaitCh app (Some ch)); Spawned; Did (GetWaitCh app);
                Did (GetWaitCh app)])
           [asyncWait app]
     end) /\
  (forall c : config (world os_state) ExitCodeOrError,
     main c = Run app stdin stdout stderr ->
     workers c = [] ->
     apps (state c) !! app = Some a ->
     (exists ls c' r, exec os_exec ls c = Some c' /\ main c' = Ret r) /\
     (forall ls c' r,
        exec os_exec ls c = Some c' ->
        main c' = Ret r ->
        let launch := os_exec (SysStart cm) (os (state c)) in
        match launch.1 with
        | inr e =>
            r = mkExitCodeOrError 0 (Some e) /\
            c' = mkConfig (Ret r) []
                   (mkWorld (<[app:=set_cmd (fun _ => cm) a]> (apps (state c)))
                            (chans (state c)) launch.2)
                   (log c ++ map (pair Main)
                               (wiring app stdin stdout stderr
                                ++ [Did (GetCmd app); Did (Sys (SysStart cm))]))
        | inl p =>
            let waited := os_exec (SysWait (Some p)) launch.2 in
            let ch := length (chans (state c)) in
            r = mkExitCodeOrError (exit_status waited.1).1
                                  (exit_status waited.1).2 /\
            apps (state c') !! app ≫= exitCodeOrError = Some r /\
            os (state c') = waited.2 /\
            events_of Main (log c')
            = events_of Main (log c)
              ++ wiring app stdin stdout stderr
              ++ [Did (GetCmd app); Did (Sys (SysStart cm));
                  Did (SetProcess app (Some p)); Did MakeChan;
                  Did (SetWaitCh app (Some ch)); Spawned;
                  Did (GetWaitCh app); Did (GetWaitCh app);
                  Did (Recv (Some ch))]
        end)).
Proof.
  intros cm. split.
  - intros w Ha. by apply Run_on_its_own.
  - intros c Hmain Hw Ha. split.
    + by eapply Run_completes.
    + intros ls c' r Hexec Hr. by apply (Run_alone ls c c' app a).
Qed.

(** ** Run as Start and then Wait (C6) *)

Lemma alike_refl {R} (p : prog R) : alike p p.
Proof.
  induction p as [R r|R m|R act k IHk h IHh|R child _ k IHk];
    constructor; auto.
Qed.

Lemma alike_bind {A B} (p q : prog A) (f g : A -> prog B) :
  alike p q -> (forall x, alike (f x) (g x)) -> alike (bind p f) (bind q g).
Proof.
  intros Hpq Hfg. induction Hpq; cbn [bind]; try constructor; auto.
Qed.

Lemma alike_bind_Ret {R} (p : prog R) : alike (x <- p ;; Ret x) p.
Proof.
  induction p as [R r|R m|R act k IHk h IHh|R child _ k IHk];
    cbn [bind]; constructor; auto.
Qed.

(** Programs that are alike run alike, on their own and scheduled among
    others. *)
Lemma alike_run {R} (p q : prog R) w :
  alike p q -> run os_exec p w = run os_exec q w.
Proof.
  intros Hpq. revert w. induction Hpq as [r|m|a k k' h h' _ IHk _ IHh|child k k' _ IHk];
    intros w; cbn [run]; try done.
  - destruct (perform os_exec a w); [by rewrite IHk|by rewrite IHh|done].
  - by rewrite IHk.
Qed.

Lemma alike_step {R} l (c c2 : config (world os_state) R) :
  same_but_main c c2 ->
  match step os_exec l c, step os_exec l c2 with
  | Some c', Some c2' => same_but_main c' c2'
  | None, None => True
  | _, _ => False
  end.
Proof.
  destruct c as [p ws st lg], c2 as [q ws2 st2 lg2].
  intros (Hw & Hs & Hl & Hm). cbn in Hw, Hs, Hl, Hm. subst ws2 st2 lg2.
  unfold step, crashed. cbn [main workers state log].
  assert (Hp : is_panic p = is_panic q) by by destruct Hm.
  rewrite <- Hp. destruct (is_panic p || _); [done|].
  destruct l as [[|j]|[|si] [|rj]]; try done.
  - destruct Hm as [r|m|a k k' h h' Hk Hh|child k k' Hk]; cbn [advance];
      try done.
    destruct (perform os_exec a st); try done; repeat split; cbn; auto.
  - destruct (ws !! j) as [g|]; [|done].
    destruct (advance os_exec g st) as [[[[g1 w] gs] e]|]; [|done].
    by repeat split.
  - destruct (ws !! rj) as [g|]; [|done]. unfold rendezvous.
    destruct Hm as [r|m|a k k' h h' Hk Hh|child k k' Hk]; cbn [send_head];
      try done.
    destruct a; try done.
    destruct (recv_head g) as [[c1 k1]|]; [|done].
    destruct (decide (_ = c1)); [|done].
    destruct (is_open _ st); [|done].
    repeat split; cbn; auto.
  - destruct (ws !! si) as [g|]; [|done]. unfold rendezvous.
    destruct (send_head g) as [[[c0 v] sp']|];
      destruct Hm as [r|m|a k k' h h' Hk Hh|child k k' Hk]; cbn [recv_head];
      try done; destruct a; try done.
    destruct (decide (c0 = _)); [|done].
    destruct (is_open c0 st); [|done].
    repeat split; cbn; auto.
  - destruct (decide (si = rj)); [done|].
    destruct (ws !! si) as [g|]; [|done].
    destruct (ws !! rj) as [g'|]; [|done].
    destruct (rendezvous g g' st) as [[[[sp' rp'] es] er]|]; [|done].
    by repeat split.
Qed.

Lemma alike_exec {R} ls (c c2 : config (world os_state) R) :
  same_but_main c c2 ->
  match exec os_exec ls c, exec os_exec ls c2 with
  | Some c', Some c2' => same_but_main c' c2'
  | None, None => True
  | _, _ => False
  end.
Proof.
  revert c c2. induction ls as [|l ls IH]; intros c c2 Hc; [done|]. cbn.
  pose proof (alike_step l c c2 Hc) as Hstep.
  destruct (step os_exec l c) as [c'|], (step os_exec l c2) as [c2'|];
    try done.
  by apply IH.
Qed.

Lemma Run_alike app (stdin stdout stderr : option stream) :
  alike (Run app stdin stdout stderr) (Start_then_Wait app stdin stdout stderr).
Proof.
  unfold Run, Start_then_Wait. apply alike_bind; [apply alike_refl|].
  intros [ch [e|]]; cbn [snd]; [constructor|apply alike_bind_Ret].
Qed.

Lemma alike_Ret_inv {R} (p q : prog R) (r : R) :
  alike p q -> (p = Ret r <-> q = Ret r).
Proof. intros H. destruct H; split; intros E; try done; by injection E as ->. Qed.

(** C6.  [Run] is the composition of [Start] and, when [Start] succeeds,
    [Wait]: as a program it is like the one that calls [Start], returns a
    terminal result with exit code 0 and the error if [Start] returns one,
    and is [Wait] otherwise.  So, run on its own, when [Start] returns an
    error [Run] returns that terminal result, having done what [Start] did
    and no more; and when [Start] returns no error [Run] goes on as [Wait]
    does from where [Start] left, and ends as [Wait] ends, with the value
    of [Wait] as its own.  And scheduled among other goroutines, whatever
    they are, [Run] and that composition go the same way under every
    schedule: the same steps are possible, they lead to the same
    controllers, channels, operating system, goroutines and log, and the
    one has returned a value exactly when the other has returned it. *)
Theorem Run_is_Start_then_Wait app (stdin stdout stderr : option stream) :
  alike (Run app stdin stdout stderr)
        (r <- Start app stdin stdout stderr ;;
         match r.2 with
         | Some err => Ret (mkExitCodeOrError 0 (Some err))
         | None => Wait app
         end) /\
  (forall w,
     let started := run os_exec (Start app stdin stdout stderr) w in
     run os_exec (Run app stdin stdout stderr) w =
     match final started with
     | Returned (_, Some err) =>
         mkOutcome (Returned (mkExitCodeOrError 0 (Some err)))
                   (after started) (events started) (spawned started)
     | Returned (_, None) =>
         let waited := run os_exec (Wait app) (after started) in
         mkOutcome (final waited) (after waited)
                   (events started ++ events waited)
                   (spawned started ++ spawned waited)
     | Panicked m =>
         mkOutcome (Panicked m) (after started) (events started)
                   (spawned started)
     | Waiting act =>
         mkOutcome (Waiting act) (after started) (events started)
                   (spawned started)
     end) /\
  (forall ls (c c2 : config (world os_state) ExitCodeOrError),
     main c = Run app stdin stdout stderr ->
     main c2 = Start_then_Wait app stdin stdout stderr ->
     workers c = workers c2 ->
     state c = state c2 ->
     log c = log c2 ->
     match exec os_exec ls c, exec os_exec ls c2 with
     | Some c', Some c2' =>
         workers c' = workers c2' /\ state c' = state c2' /\
         log c' = log c2' /\
         (forall r, main c' = Ret r <-> main c2' = Ret r)
     | None, None => True
     | _, _ => False
     end).
Proof.
  split; [exact (Run_alike app stdin stdout stderr)|]. split.
  - intros w started. rewrite Run_run. unfold Start_then_Wait.
    rewrite run_bind. fold started.
    destruct (final started) as [[ch [err|]]|m|act]; cbn [snd];
      unfold then_outcome, stop_outcome; cbn [run final after events spawned];
      by rewrite ?app_nil_r.
  - intros ls c c2 Hc Hc2 Hw Hs Hl.
    assert (H : same_but_main c c2).
    { repeat split; try done. rewrite Hc, Hc2. apply Run_alike. }
    pose proof (alike_exec ls c c2 H) as Hexec.
    destruct (exec os_exec ls c) as [c'|], (exec os_exec ls c2) as [c2'|];
      try done.
    destruct Hexec as (Hw' & Hs' & Hl' & Hm').
    split; [done|]. split; [done|]. split; [done|].
    intros r. by apply alike_Ret_inv.
Qed.

(** ** CheckIsInstalled (C8) *)

(** A caller that is alone when it calls [CheckIsInstalled] can be
    scheduled, with the watcher, so that the call returns. *)
Lemma CheckIsInstalled_completes (c : config (world os_state) (option error))
    app a :
  main c = CheckIsInstalled app ->
  workers c = [] ->
  apps (state c) !! app = Some a ->
  exists ls c' r, exec os_exec ls c = Some c' /\ main c' = Ret r.
Proof.
  intros Hmain Hw Ha.
  assert (Hlt : (app < length (apps (state c)))%nat) by by eapply lookup_lt_Some.
  pose proof (solo_runs _ c Hmain Hw) as H.
  unfold CheckIsInstalled, NewApp, exec_Command in H.
  cbn [bind call until_go] in H.
  rewrite (perform_GetCmd _ _ _ Ha) in H. cbn [bind call until_go] in H.
  rewrite perform_Sys in H.
  cbn [bind call until_go perform apps chans os] in H.
  set (found := os_exec (SysLookPath "which") (os (state c))) in *.
  set (wh := length (apps (state c))) in *.
  set (A := mkApp (set_Setpgid true _) None None) in H.
  set (w2 := mkWorld (apps (state c) ++ [A]) (chans (state c)) found.2) in H.
  assert (Hwh : apps w2 !! wh = Some A).
  { cbn. by rewrite lookup_app_r, Nat.sub_diag. }
  rewrite until_go_bind in H. unfold Run in H. rewrite until_go_bind in H.
  pose proof (Start_until_go w2 wh A None None None Hwh) as HS.
  cbv zeta in HS. rewrite HS in H. clear HS.
  destruct (os_exec (SysStart (wired None None None (cmd A))) (os w2))
    as [[p|e] o1]; cbn [fst snd] in H.
  - cbn [solo_events] in H.
    set (ch := length (chans w2)) in *.
    set (A1 := set_waitCh (Some ch) _) in *.
    set (w3 := mkWorld (<[wh:=A1]> (apps w2)) (chans w2 ++ [ChOpen]) o1) in *.
    assert (Happ1 : apps w3 !! wh = Some A1) by by eapply lookup_update.
    assert (Hch1 : waitCh A1 = Some ch) by done.
    assert (Hopen1 : chans w3 !! ch = Some ChOpen).
    { cbn. by rewrite lookup_app_r, Nat.sub_diag. }
    set (evs := _ ++ _) in H.
    set (log1 := log c ++ _) in H.
    set (verdict := fun st : ExitCodeOrError =>
           match Error st with
           | Some _ => Ret (Error st)
           | None =>
               if negb (ExitCode st =? 0) then
                 c0 <- call (GetCmd app) ;;
                 Ret (Some (does_not_exist (Path c0)))
               else Ret None
           end).
    destruct (hand_over_runs wh A1 ch w3
                (log1 ++ [(Main, Did (GetWaitCh wh))])
                (fun r : ExitCodeOrError * bool =>
                   st <- (st <- (let (st, ok) := r in
                                 if ok then Ret st
                                 else Ret (mkExitCodeOrError 0
                                             (Some exited_already))) ;;
                          Ret st) ;;
                   verdict st)
                (fun m => Panic m) (fun m => Panic m) Happ1 Hch1 Hopen1)
      as (lg & Hexec).
    set (v := waited_pair os_exec A1 (os w3)) in *.
    cbn [bind] in Hexec.
    assert (Hto : exists c4,
               exec os_exec
                 (replicate (S (length evs)) (Tau Main)
                  ++ [Tau Main]
                  ++ (Tau Main :: replicate 5 (Tau (Worker 0))
                      ++ [Sync (Worker 0) Main])) c = Some c4 /\
               main c4 = verdict v /\
               workers c4 = [call (Close (Some ch)) ;; Ret tt] /\
               apps (state c4) !! app = Some a).
    { exists (mkConfig (verdict v) [call (Close (Some ch)) ;; Ret tt]
                (mkWorld (<[wh:=set_exitCodeOrError (Some v) A1]> (apps w3))
                         (chans w3)
                         (os_exec (SysWait (Process_ (cmd A1))) (os w3)).2)
                lg).
      split; [|split; [reflexivity|split; [reflexivity|]]].
      - rewrite exec_app, H. cbn [mbind option_bind]. rewrite exec_app.
        match goal with
        | |- exec _ [Tau Main] ?c1 ≫= _ = _ =>
            assert (Hstep : exec os_exec [Tau Main] c1
                            = Some (mkConfig
                                      (st <- (st <- Wait wh ;; Ret st) ;;
                                       verdict st)
                                      [asyncWait wh] w3
                                      (log1 ++ [(Main, Did (GetWaitCh wh))])))
        end.
        { cbn [exec]. unfold step.
          cbn [crashed main workers is_panic existsb orb asyncWait bind call
                 state advance].
          erewrite (perform_GetWaitCh _ wh A1) by exact Happ1.
          rewrite Hch1. done. }
        rewrite Hstep. cbn [mbind option_bind]. exact Hexec.
      - unfold w3, w2, wh. cbn [state apps].
        rewrite !list_lookup_insert_ne by lia.
        by apply lookup_app_l_Some. }
    destruct Hto as (c4 & Hexec4 & Hmain4 & Hw4 & Ha4).
    unfold verdict in Hmain4.
    destruct (Error v) as [e|]; [by eauto|].
    destruct (negb (ExitCode v =? 0)); [|by eauto].
    eexists (_ ++ [Tau Main]), _, _. split.
    { rewrite exec_app, Hexec4. cbn [mbind option_bind exec].
      unfold step, crashed. rewrite Hmain4, Hw4.
      cbn [is_panic existsb orb bind call advance].
      by rewrite (perform_GetCmd _ _ _ Ha4). }
    reflexivity.
  - cbn [solo_events until_go bind fst snd Error] in H. eauto.
Qed.


(** ** A caller beside the watcher, among goroutines that keep out of its way *)

Lemma step_main_kept {R} l (c c1 : config (world os_state) R) :
  match l with
  | Tau (Worker _) | Sync (Worker _) (Worker _) => True
  | _ => False
  end ->
  step os_exec l c = Some c1 ->
  main c1 = main c /\ events_of Main (log c1) = events_of Main (log c).
Proof.
  unfold step. destruct (crashed c); [by destruct l as [[|?]|[|?] [|?]]|].
  destruct l as [[|j]|[|si] [|rj]]; try done; intros _.
  - destruct (workers c !! j) as [g|]; [|done].
    destruct (advance os_exec g (state c)) as [[[[p w] gs] e]|]; [|done].
    intros [= <-]. cbn [main log]. split; [done|].
    by rewrite events_of_app, events_of_other, app_nil_r.
  - destruct (decide (si = rj)); [done|].
    destruct (workers c !! si) as [g|]; [|done].
    destruct (workers c !! rj) as [g'|]; [|done].
    destruct (rendezvous g g' (state c)) as [[[[sp' rp'] es] er]|]; [|done].
    intros [= <-]. cbn [main log]. split; [done|].
    rewrite events_of_app. cbn. rewrite !decide_False by done.
    by rewrite app_nil_r.
Qed.

Lemma step_not_crashed {R} l (c c1 : config (world os_state) R) :
  step os_exec l c = Some c1 -> crashed c = false.
Proof. unfold step. by destruct (crashed c). Qed.

Section Beyond.

Variables (app : ref) (A0 : App) (ch : chan) (i : nat).
Variable log0 : list (tid * event).

Hypothesis Hch : waitCh A0 = Some ch.

Local Abbreviation attending := (attended app A0 ch i log0).

(** A schedule under which the main goroutine returns, up to the first
    step that the main goroutine has a part in. *)
Lemma attended_until_main {R} ls (c c' : config (world os_state) R) s r :
  attending c s ->
  exec os_exec ls c = Some c' ->
  main c' = Ret r ->
  (main c = Ret r /\ events_of Main (log c') = events_of Main (log c) /\
   exists s', attending c' s' /\ follows s s') \/
  exists c0 s0 l c1 ls2,
    attending c0 s0 /\ follows s s0 /\
    main c0 = main c /\
    events_of Main (log c0) = events_of Main (log c) /\
    match l with
    | Tau (Worker _) | Sync (Worker _) (Worker _) => False
    | _ => True
    end /\
    step os_exec l c0 = Some c1 /\
    exec os_exec ls2 c1 = Some c'.
Proof.
  assert (Hrefl : forall s0, follows s0 s0) by (by split).
  revert c s. induction ls as [|l ls IH]; intros c s Hc; cbn.
  - intros [= <-] Hr. left. eauto.
  - destruct (step os_exec l c) as [c1|] eqn:E; [|done].
    intros Hexec Hr.
    assert (Hl : match l with
                 | Tau (Worker _) | Sync (Worker _) (Worker _) => True
                 | _ => False
                 end \/
                 match l with
                 | Tau (Worker _) | Sync (Worker _) (Worker _) => False
                 | _ => True
                 end).
    { destruct l as [[|?]|[|?] [|?]]; auto. }
    destruct Hl as [Hl|Hl].
    + destruct (step_main_kept _ _ _ Hl E) as [Hmain Hlog].
      destruct (attended_step app A0 ch i _ Hch _ _ _ _ Hc E)
        as (s1 & Hc1 & [Hi1 Hp1]).
      destruct (IH c1 s1 Hc1 Hexec Hr)
        as [(Hret & Hlog' & s' & Hc' & [Hi' Hp'])|
            (c0 & s0 & l0 & c2 & ls2 & Hc0 & [Hi0 Hp0] & Hm0 & Hl0 & H0)].
      * left. rewrite <- Hmain, <- Hlog. split; [done|]. split; [done|].
        exists s'. split; [done|]. split; [lia|auto].
      * right. exists c0, s0, l0, c2, ls2. rewrite <- Hmain, <- Hlog.
        split; [done|]. split; [split; [lia|auto]|]. by split.
    + right. exists c, s, l, c1, ls. auto 10.
Qed.

(** Once the main goroutine has returned, it stays so. *)
Lemma attended_returned {R} ls (c c' : config (world os_state) R) s v r :
  attending c s ->
  main c = Ret v ->
  exec os_exec ls c = Some c' ->
  main c' = Ret r ->
  r = v /\ events_of Main (log c') = events_of Main (log c) /\
  exists s', attending c' s' /\ follows s s'.
Proof.
  intros Hc Hmain Hexec Hr.
  destruct (attended_until_main _ _ _ _ _ Hc Hexec Hr)
    as [(Hret & Hlog & Hs')|
        (c0 & s0 & l & c1 & ls2 & Hc0 & _ & Hm0 & _ & Hl & Hstep & _)].
  - rewrite Hmain in Hret. by injection Hret as ->.
  - exfalso. rewrite Hmain in Hm0. revert Hstep. unfold step.
    destruct (crashed c0); [done|].
    destruct l as [[|j]|[|si] [|rj]]; try done.
    + by rewrite Hm0.
    + destruct (workers c0 !! rj) as [g|]; [|done].
      unfold rendezvous. by rewrite Hm0.
    + destruct (workers c0 !! si) as [g|]; [|done].
      unfold rendezvous. rewrite Hm0. cbn.
      by destruct (send_head g) as [[[? ?] ?]|].
Qed.

(** The first step of a main goroutine that is at a read of the
    controller, at a call of the operating system, or at a receive on
    the channel of the controller. *)
Lemma attended_GetCmd {R} (K : Cmd -> prog R) (H : string -> prog R) ls
    (c c' : config (world os_state) R) s r :
  attending c s ->
  main c = Act (GetCmd app) K H ->
  exec os_exec ls c = Some c' ->
  main c' = Ret r ->
  exists c1 s1 ls2,
    attending c1 s1 /\ follows s s1 /\ main c1 = K (cmd A0) /\
    exec os_exec ls2 c1 = Some c' /\
    events_of Main (log c1) = events_of Main (log c) ++ [Did (GetCmd app)].
Proof.
  intros Hc Hmain Hexec Hr.
  destruct (attended_until_main _ _ _ _ _ Hc Hexec Hr)
    as [(Hret & _)|
        (c0 & s0 & l & c1 & ls2 & Hc0 & Hf0 & Hm0 & Hl0 & Hl & Hstep & Hexec2)].
  { by rewrite Hmain in Hret. }
  rewrite Hmain in Hm0.
  destruct (attended_step app A0 ch i _ Hch _ _ _ _ Hc0 Hstep)
    as (s1 & Hc1 & Hf1).
  exists c1, s1, ls2. split; [done|].
  split; [destruct Hf0, Hf1; split; [lia|auto]|].
  destruct (app_at_fields A0 ch Hch s0) as [Hcmd _].
  pose proof (attended_app _ _ _ _ _ _ _ Hc0) as Ha0.
  revert Hstep. unfold step. destruct (crashed c0); [done|].
  destruct l as [[|j]|[|si] [|rj]]; try done.
  - rewrite Hm0. cbn [advance]. rewrite (perform_GetCmd _ _ _ Ha0), Hcmd.
    intros [= <-]. cbn [main log]. split; [done|]. split; [done|].
    by rewrite events_of_app, events_of_same, Hl0.
  - destruct (workers c0 !! rj) as [g|]; [|done].
    unfold rendezvous. by rewrite Hm0.
  - destruct (workers c0 !! si) as [g|]; [|done].
    unfold rendezvous. rewrite Hm0. cbn.
    by destruct (send_head g) as [[[? ?] ?]|].
Qed.

Lemma attended_GetWaitCh {R} (K : option chan -> prog R) (H : string -> prog R)
    ls (c c' : config (world os_state) R) s r :
  attending c s ->
  main c = Act (GetWaitCh app) K H ->
  exec os_exec ls c = Some c' ->
  main c' = Ret r ->
  exists c1 s1 ls2,
    attending c1 s1 /\ follows s s1 /\ main c1 = K (Some ch) /\
    exec os_exec ls2 c1 = Some c' /\
    events_of Main (log c1) = events_of Main (log c) ++ [Did (GetWaitCh app)].
Proof.
  intros Hc Hmain Hexec Hr.
  destruct (attended_until_main _ _ _ _ _ Hc Hexec Hr)
    as [(Hret & _)|
        (c0 & s0 & l & c1 & ls2 & Hc0 & Hf0 & Hm0 & Hl0 & Hl & Hstep & Hexec2)].
  { by rewrite Hmain in Hret. }
  rewrite Hmain in Hm0.
  destruct (attended_step app A0 ch i _ Hch _ _ _ _ Hc0 Hstep)
    as (s1 & Hc1 & Hf1).
  exists c1, s1, ls2. split; [done|].
  split; [destruct Hf0, Hf1; split; [lia|auto]|].
  destruct (app_at_fields A0 ch Hch s0) as [_ Hwait].
  pose proof (attended_app _ _ _ _ _ _ _ Hc0) as Ha0.
  revert Hstep. unfold step. destruct (crashed c0); [done|].
  destruct l as [[|j]|[|si] [|rj]]; try done.
  - rewrite Hm0. cbn [advance]. rewrite (perform_GetWaitCh _ _ _ Ha0), Hwait.
    intros [= <-]. cbn [main log]. split; [done|]. split; [done|].
    by rewrite events_of_app, events_of_same, Hl0.
  - destruct (workers c0 !! rj) as [g|]; [|done].
    unfold rendezvous. by rewrite Hm0.
  - destruct (workers c0 !! si) as [g|]; [|done].
    unfold rendezvous. rewrite Hm0. cbn.
    by destruct (send_head g) as [[[? ?] ?]|].
Qed.

Lemma attended_Sys {R} (sc : syscall_) (K : sysret sc -> prog R)
    (H : string -> prog R) ls (c c' : config (world os_state) R) s r :
  attending c s ->
  main c = Act (Sys sc) K H ->
  exec os_exec ls c = Some c' ->
  main c' = Ret r ->
  exists x c1 s1 ls2,
    attending c1 s1 /\ follows s s1 /\ main c1 = K x /\
    exec os_exec ls2 c1 = Some c' /\
    events_of Main (log c1) = events_of Main (log c) ++ [Did (Sys sc)].
Proof.
  intros Hc Hmain Hexec Hr.
  destruct (attended_until_main _ _ _ _ _ Hc Hexec Hr)
    as [(Hret & _)|
        (c0 & s0 & l & c1 & ls2 & Hc0 & Hf0 & Hm0 & Hl0 & Hl & Hstep & Hexec2)].
  { by rewrite Hmain in Hret. }
  rewrite Hmain in Hm0.
  destruct (attended_step app A0 ch i _ Hch _ _ _ _ Hc0 Hstep)
    as (s1 & Hc1 & Hf1).
  assert (Hf : follows s s1) by (destruct Hf0, Hf1; split; [lia|auto]).
  revert Hstep. unfold step. destruct (crashed c0); [done|].
  destruct l as [[|j]|[|si] [|rj]]; try done.
  - rewrite Hm0. cbn [advance]. rewrite perform_Sys.
    intros [= <-]. eexists _, _, s1, ls2. split; [done|]. split; [done|].
    cbn [main log]. split; [done|]. split; [done|].
    by rewrite events_of_app, events_of_same, Hl0.
  - destruct (workers c0 !! rj) as [g|]; [|done].
    unfold rendezvous. by rewrite Hm0.
  - destruct (workers c0 !! si) as [g|]; [|done].
    unfold rendezvous. rewrite Hm0. cbn.
    by destruct (send_head g) as [[[? ?] ?]|].
Qed.

Lemma attended_Recv {R} (K : ExitCodeOrError * bool -> prog R)
    (H : string -> prog R) ls (c c' : config (world os_state) R) s r :
  attending c s ->
  main c = Act (Recv (Some ch)) K H ->
  exec os_exec ls c = Some c' ->
  main c' = Ret r ->
  exists c1 s1 ls2,
    attending c1 s1 /\ follows s s1 /\
    exec os_exec ls2 c1 = Some c' /\
    events_of Main (log c1)
    = events_of Main (log c) ++ [Did (Recv (Some ch))] /\
    ((exists code err,
        main c1 = K (mkExitCodeOrError code err, true) /\ s1 = W6 code err) \/
     (main c1 = K (zero_ExitCodeOrError, false) /\
      exists code err, s1 = W7 code err)).
Proof.
  intros Hc Hmain Hexec Hr.
  destruct (attended_until_main _ _ _ _ _ Hc Hexec Hr)
    as [(Hret & _)|
        (c0 & s0 & l & c1 & ls2 & Hc0 & Hf0 & Hm0 & Hl0 & Hl & Hstep & Hexec2)].
  { by rewrite Hmain in Hret. }
  rewrite Hmain in Hm0.
  pose proof (step_not_crashed _ _ _ Hstep) as Hcr.
  pose proof Hc0 as [Hw0 Ha0 Hc0' _ _ Ho0].
  destruct (attended_step app A0 ch i _ Hch _ _ _ _ Hc0 Hstep)
    as (s1 & Hc1 & Hf1).
  revert Hstep. unfold step. rewrite Hcr.
  destruct l as [[|j]|[|si] [|rj]]; try done.
  - (* the channel is closed *)
    rewrite Hm0. cbn [advance perform]. cbn [mbind option_bind].
    rewrite Hc0'. destruct s0 as [| | |c2 e2|c2 e2|c2 e2|c2 e2|c2 e2];
      cbn [chan_at]; try done.
    intros [= <-]. eexists _, s1, ls2. split; [exact Hc1|].
    split; [destruct Hf0, Hf1; split; [lia|auto]|]. split; [done|].
    cbn [main log]. split; [by rewrite events_of_app, events_of_same, Hl0|].
    right. split; [done|]. destruct Hf1 as [Hi1 Hp1]. exists c2, e2.
    specialize (Hp1 _ eq_refl).
    destruct s1; cbn in Hi1, Hp1; try lia. by injection Hp1 as -> ->.
  - destruct (workers c0 !! rj) as [g|]; [|done].
    unfold rendezvous. by rewrite Hm0.
  - (* a goroutine sends to the main goroutine: it is the watcher *)
    destruct (workers c0 !! si) as [g|] eqn:Eg; [|done].
    unfold rendezvous. rewrite Hm0. cbn [recv_head].
    destruct (send_head g) as [[[c2 v] sp']|] eqn:Es; [|done].
    destruct (decide (c2 = Some ch)) as [->|]; [|done].
    destruct (is_open (Some ch) (state c0)); [|done].
    intros [= Hc1eq].
    destruct (decide (si = i)) as [->|Hne].
    2:{ by destruct (bystander_send_head app ch _ _ _ _ (Ho0 _ _ Hne Eg) Es). }
    rewrite Hw0 in Eg. injection Eg as <-.
    destruct (watcher_send_head app A0 ch _ _ _ _ Es)
      as (code & err & -> & _ & -> & ->).
    destruct (watcher_hands_to_main app A0 ch i _ c0 code err K H Hc0 Hcr Hm0)
      as (c1' & Hstep' & Hmain1 & Hc1').
    assert (c1' = c1) as ->.
    { revert Hstep'. unfold step. rewrite Hcr, Hw0. unfold rendezvous.
      rewrite Hm0. cbn [watcher_at send_head recv_head defer_ call bind].
      rewrite decide_True by done. unfold is_open. cbn [mbind option_bind].
      rewrite Hc0'. cbn [chan_at]. intros [= <-]. by rewrite <- Hc1eq. }
    assert (Hf : follows s (W6 code err)).
    { destruct Hf0 as [Hi0 Hp0]. split; [cbn in *; lia|].
      intros v0 Hv0. by apply Hp0. }
    exists c1, (W6 code err), ls2. split; [done|]. split; [done|].
    split; [done|]. split.
    { rewrite <- Hc1eq. cbn [log]. rewrite events_of_app, Hl0. cbn.
      rewrite decide_False by done. by rewrite decide_True. }
    left. by exists code, err.
Qed.

(** Once the watcher has sent its pair, the pair is the cached result
    and the store and the send are in the log. *)
Lemma attended_sent {R} (c : config (world os_state) R) s v :
  attending c s ->
  (6 <= stage_index s)%nat ->
  stage_pair s = Some v ->
  apps (state c) !! app ≫= exitCodeOrError = Some v /\
  exists n,
    (6 <= n)%nat /\
    events_of (Worker i) (log c)
    = events_of (Worker i) log0
      ++ take n (watcher_events app A0 ch (ExitCode v) (Error v)).
Proof.
  intros [_ Ha _ Hl _ _] Hidx Hpair. rewrite Ha, Hl.
  destruct s; cbn in Hidx, Hpair; try lia; simplify_eq; cbn [app_at];
    (split; [done|]); [by exists 6%nat|by exists 7%nat].
Qed.

(** [Kill] on a platform with process groups, beside the watcher and
    among goroutines that keep out of its way: how it may end. *)
Lemma Kill_among_bystanders ls (c c' : config (world os_state) (option error))
    s (p : Process) r :
  Process_ (cmd A0) = Some p ->
  attending c s ->
  main c = Kill true app ->
  exec os_exec ls c = Some c' ->
  main c' = Ret r ->
  exists evs,
    events_of Main (log c') = events_of Main (log c) ++ evs /\
    ((exists e,
        r = Some e /\
        evs = [Did (GetCmd app); Did (Sys (SysGetpgid (Pid p)))]) \/
     (exists pgid e,
        r = Some e /\
        evs = [Did (GetCmd app); Did (Sys (SysGetpgid (Pid p)));
               Did (Sys (SysKill (int_neg pgid) syscall.SIGKILL))]) \/
     (exists pgid,
        evs = [Did (GetCmd app); Did (Sys (SysGetpgid (Pid p)));
               Did (Sys (SysKill (int_neg pgid) syscall.SIGKILL));
               Did (GetWaitCh app); Did (Recv (Some ch))] /\
        ((exists v n,
            r = Error v /\
            apps (state c') !! app ≫= exitCodeOrError = Some v /\
            (6 <= n)%nat /\
            events_of (Worker i) (log c')
            = events_of (Worker i) log0
              ++ take n (watcher_events app A0 ch (ExitCode v) (Error v))) \/
         (r = Some exited_already /\
          chans (state c') !! ch = Some ChClosed)))).
Proof.
  intros Hp Hc Hmain Hexec Hr.
  unfold Kill in Hmain. cbn [bind call] in Hmain.
  destruct (attended_GetCmd _ _ _ _ _ _ _ Hc Hmain Hexec Hr)
    as (c1 & s1 & ls1 & Hc1 & _ & Hmain1 & Hexec1 & Hlog1).
  rewrite Hp in Hmain1. cbn [bind call] in Hmain1.
  destruct (attended_Sys _ _ _ _ _ _ _ _ Hc1 Hmain1 Hexec1 Hr)
    as ([pgid [e|]] & c2 & s2 & ls2 & Hc2 & _ & Hmain2 & Hexec2 & Hlog2).
  { destruct (attended_returned _ _ _ _ _ _ Hc2 Hmain2 Hexec2 Hr)
      as (-> & Hlog & _).
    eexists. split; [|left; by exists e].
    by rewrite Hlog, Hlog2, Hlog1, <- app_assoc. }
  cbn [bind call] in Hmain2.
  destruct (attended_Sys _ _ _ _ _ _ _ _ Hc2 Hmain2 Hexec2 Hr)
    as ([e|] & c3 & s3 & ls3 & Hc3 & _ & Hmain3 & Hexec3 & Hlog3).
  { destruct (attended_returned _ _ _ _ _ _ Hc3 Hmain3 Hexec3 Hr)
      as (-> & Hlog & _).
    eexists. split; [|right; left; by exists pgid, e].
    by rewrite Hlog, Hlog3, Hlog2, Hlog1, <- !app_assoc. }
  unfold Wait in Hmain3. cbn [bind call] in Hmain3.
  destruct (attended_GetWaitCh _ _ _ _ _ _ _ Hc3 Hmain3 Hexec3 Hr)
    as (c4 & s4 & ls4 & Hc4 & _ & Hmain4 & Hexec4 & Hlog4).
  destruct (attended_Recv _ _ _ _ _ _ _ Hc4 Hmain4 Hexec4 Hr)
    as (c5 & s5 & ls5 & Hc5 & _ & Hexec5 & Hlog5 &
        [(code & err & Hmain5 & ->)|(Hmain5 & code & err & ->)]);
    cbn [bind] in Hmain5;
    destruct (attended_returned _ _ _ _ _ _ Hc5 Hmain5 Hexec5 Hr)
      as (-> & Hlog & s' & Hc' & [Hidx Hpair]);
    (eexists; split;
     [by rewrite Hlog, Hlog5, Hlog4, Hlog3, Hlog2, Hlog1, <- !app_assoc|]);
    right; right; exists pgid; (split; [done|]).
  - left.
    destruct (attended_sent c' s' (mkExitCodeOrError code err) Hc' Hidx
                (Hpair _ eq_refl)) as (Hcached & n & Hn & Hl').
    by exists (mkExitCodeOrError code err), n.
  - right. split; [done|].
    rewrite (attended_chan _ _ _ _ _ _ _ Hc').
    destruct s'; cbn in Hidx; try lia. done.
Qed.

End Beyond.

(** ** Kill where there are process groups (C4) *)


End Properties.

(** * The properties at work on the scripted operating system *)

(** C1, at a process that exits with status 7: the pair (7, nil). *)
Lemma asyncWait_publishes_witness :
  apps (Demo.started Demo.exits7) !! 0%nat = Some Demo.started_app /\
  published Demo.os_exec 0%nat (Demo.started Demo.exits7)
  = Some (mkExitCodeOrError 7 None).
Proof.
  split; [reflexivity|].
  exact (asyncWait_publishes Demo.os_exec (Demo.started Demo.exits7) 0%nat
           Demo.started_app eq_refl).
Defined.

(** C1 as the specification states it fails at a process ended by SIGKILL:
    the wait error is an [*exec.ExitError] that encodes no exit code, and
    the watcher publishes (-1, nil) where the specification has it keep the
    error beside exit code 0. *)
Lemma asyncWait_signal_counterexample :
  (Demo.os_exec (SysWait (Some (mkProcess 4242))) Demo.killed).1
  = Some (ExitError (SysWaitStatus 9)) /\
  syscall.Signaled 9 = true /\
  encodes_exit_code (ExitError (SysWaitStatus 9)) = None /\
  specified_result (Some (ExitError (SysWaitStatus 9)))
  = mkExitCodeOrError 0 (Some (ExitError (SysWaitStatus 9))) /\
  published Demo.os_exec 0%nat (Demo.started Demo.killed)
  = Some (mkExitCodeOrError (-1) None) /\
  published Demo.os_exec 0%nat (Demo.started Demo.killed)
  <> Some (specified_result (Some (ExitError (SysWaitStatus 9)))).
Proof. repeat split; try reflexivity. discriminate. Qed.

(** C3, at a controller whose watcher is through. *)
Lemma Wait_after_close_witness :
  apps (Demo.finished Demo.exits7) !! 0%nat
  = Some (set_exitCodeOrError (Some (mkExitCodeOrError 7 None)) Demo.started_app) /\
  chans (Demo.finished Demo.exits7) !! 0%nat = Some ChClosed /\
  run Demo.os_exec (Wait 0%nat) (Demo.finished Demo.exits7)
  = mkOutcome (Returned (mkExitCodeOrError 0 (Some exited_already)))
              (Demo.finished Demo.exits7)
              [Did (GetWaitCh 0%nat); Did (Recv (Some 0%nat))] [].
Proof.
  split; [reflexivity|]. split; [reflexivity|].
  exact (Wait_after_close Demo.os_exec (Demo.finished Demo.exits7) 0%nat _ 0%nat
           eq_refl eq_refl eq_refl).
Defined.

(** C9, at a controller just started. *)
Lemma ExitCodeOrError_before_completion_panics_witness :
  apps (Demo.started Demo.exits7) !! 0%nat = Some Demo.started_app /\
  exitCodeOrError Demo.started_app = None /\
  final (run Demo.os_exec (App_ExitCodeOrError 0%nat) (Demo.started Demo.exits7))
  = Panicked nil_assertion.
Proof.
  split; [reflexivity|]. split; [reflexivity|].
  exact (f_equal final
           (ExitCodeOrError_before_completion_panics Demo.os_exec
              (Demo.started Demo.exits7) 0%nat Demo.started_app eq_refl eq_refl)).
Defined.

(** C10, at a controller that was never started, on either platform. *)
Lemma Kill_without_process_panics_witness :
  apps (Demo.fresh Demo.exits7) !! 0%nat = Some Demo.fresh_app /\
  Process_ (cmd Demo.fresh_app) = None /\
  final (run Demo.os_exec (Kill true 0%nat) (Demo.fresh Demo.exits7))
  = Panicked nil_dereference /\
  final (run Demo.os_exec (Kill false 0%nat) (Demo.fresh Demo.exits7))
  = Panicked nil_dereference.
Proof.
  split; [reflexivity|]. split; [reflexivity|]. split.
  - exact (f_equal final
             (Kill_without_process_panics Demo.os_exec true
                (Demo.fresh Demo.exits7) 0%nat Demo.fresh_app eq_refl eq_refl)).
  - exact (f_equal final
             (Kill_without_process_panics Demo.os_exec false
                (Demo.fresh Demo.exits7) 0%nat Demo.fresh_app eq_refl eq_refl)).
Defined.

(** C5, at a launch that fails and at one that succeeds. *)
Lemma Start_failure_and_success_witness :
  apps (Demo.fresh Demo.missing) !! 0%nat = Some Demo.fresh_app /\
  (final (run Demo.os_exec (Start 0%nat None (Some 1%nat) None)
              (Demo.fresh Demo.missing))
   = Returned (None, Some Demo.no_such_file) /\
   spawned (run Demo.os_exec (Start 0%nat None (Some 1%nat) None)
                (Demo.fresh Demo.missing)) = [] /\
   chans (after (run Demo.os_exec (Start 0%nat None (Some 1%nat) None)
                     (Demo.fresh Demo.missing))) = []) /\
  (final (run Demo.os_exec (Start 0%nat None (Some 1%nat) None)
              (Demo.fresh Demo.exits7))
   = Returned (Some 0%nat, None) /\
   spawned (run Demo.os_exec (Start 0%nat None (Some 1%nat) None)
                (Demo.fresh Demo.exits7)) = [asyncWait 0%nat] /\
   chans (after (run Demo.os_exec (Start 0%nat None (Some 1%nat) None)
                     (Demo.fresh Demo.exits7))) = [ChOpen]).
Proof.
  split; [reflexivity|]. split.
  - destruct (Start_failure_and_success Demo.os_exec (Demo.fresh Demo.missing)
                0%nat Demo.fresh_app None (Some 1%nat) None eq_refl)
      as (Hfinal & _ & Hspawned & Hchans & _).
    exact (conj Hfinal (conj Hspawned Hchans)).
  - destruct (Start_failure_and_success Demo.os_exec (Demo.fresh Demo.exits7)
                0%nat Demo.fresh_app None (Some 1%nat) None eq_refl)
      as (Hfinal & _ & Hspawned & _ & Hchans & _).
    exact (conj Hfinal (conj Hspawned Hchans)).
Defined.

(** C7, at two calls on a controller with no environment. *)
Lemma AddEnvironments_appends_witness :
  apps (Demo.fresh Demo.exits7) !! 0%nat = Some Demo.fresh_app /\
  Env (cmd Demo.fresh_app) = None /\
  (Env ∘ cmd)
    <$> apps (after (run Demo.os_exec
                         (AddEnvironments_each 0%nat [["A=1"]; ["B=2"]])
                         (Demo.fresh Demo.exits7))) !! 0%nat
  = Some (Some ["HOME=/root"; "A=1"; "B=2"]).
Proof.
  split; [reflexivity|]. split; [reflexivity|].
  destruct (AddEnvironments_appends Demo.os_exec (Demo.fresh Demo.exits7) 0%nat
              Demo.fresh_app ["A=1"] [["B=2"]] eq_refl eq_refl) as [_ Hafter].
  exact (f_equal (fun w => (Env ∘ cmd) <$> apps w !! 0%nat) Hafter).
Defined.

(** The configurations of [Demo] have their watcher about to run. *)
Lemma Demo_watched {R} (p : prog R) (o : Demo.script) :
  observer p ->
  watched 0%nat Demo.started_app 0%nat 0%nat [Demo.started_app] [ChOpen] []
          (mkConfig p [asyncWait 0%nat] (Demo.started o) []) W0.
Proof.
  intros Hp. constructor; try done.
  intros [|j] g Hj; [done|]. by destruct j.
Defined.



(** X3, at a request that fails, and beside the watcher of a process that
    the request ends. *)
Lemma Kill_single_process_witness :
  Process_ (cmd Demo.started_app) = Some (mkProcess 4242) /\
  run Demo.os_exec (Kill false 0%nat) (Demo.started Demo.missing)
  = mkOutcome (Returned (Some (Errno 3))) (Demo.started Demo.missing)
      [Did (GetCmd 0%nat); Did (Sys (SysProcessKill (mkProcess 4242)))] [] /\
  exec Demo.os_exec (drop 1 Demo.kill_to_the_end)
    (mkConfig (Kill false 0%nat) [asyncWait 0%nat]
              (Demo.started Demo.killed) []) <> None /\
  forall c',
    exec Demo.os_exec (drop 1 Demo.kill_to_the_end)
      (mkConfig (Kill false 0%nat) [asyncWait 0%nat]
                (Demo.started Demo.killed) []) = Some c' ->
    main c' = Ret None /\
    length (events_of Main (log c')) = 4%nat.
Proof.
  split; [reflexivity|].
  destruct (Kill_single_process Demo.os_exec 0%nat Demo.started_app
              (mkProcess 4242) eq_refl) as (Halone & Hbeside).
  split; [exact (Halone (Demo.started Demo.missing) eq_refl)|].
  split; [vm_compute; discriminate|].
  intros c' E.
  assert (Hr : main c' = Ret None).
  { vm_compute in E. by injection E as <-. }
  split; [exact Hr|].
  destruct (Hbeside 0%nat 0%nat [Demo.started_app] [ChOpen] []
              (drop 1 Demo.kill_to_the_end)
              (mkConfig (Kill false 0%nat) [asyncWait 0%nat]
                        (Demo.started Demo.killed) []) c' W0 None
              eq_refl eq_refl eq_refl
              (Demo_watched _ Demo.killed (observer_Kill false 0%nat))
              eq_refl E Hr)
    as (evs & Hlog & Hcases).
  rewrite Hlog.
  destruct Hcases as [(e & He & _)|(-> & _)];
    [discriminate He|reflexivity].
Defined.


(** X5, at a [which] that exits with status 7, at one that cannot be
    launched, and at one that exits with status 0. *)
Lemma CheckIsInstalled_runs_which_witness :
  (exec Demo.os_exec (Demo.check_to_the_end ++ [Tau Main])
     (Demo.checking Demo.exits7) <> None /\
   forall c',
     exec Demo.os_exec (Demo.check_to_the_end ++ [Tau Main])
       (Demo.checking Demo.exits7) = Some c' ->
     main c' = Ret (Some (does_not_exist "/bin/sh"))) /\
  (exec Demo.os_exec (replicate 5 (Tau Main)) (Demo.checking Demo.missing)
   <> None /\
   forall c',
     exec Demo.os_exec (replicate 5 (Tau Main)) (Demo.checking Demo.missing)
     = Some c' ->
     main c' = Ret (Some Demo.no_such_file)) /\
  (exec Demo.os_exec Demo.check_to_the_end (Demo.checking Demo.there)
   <> None /\
   forall c',
     exec Demo.os_exec Demo.check_to_the_end (Demo.checking Demo.there)
     = Some c' ->
     main c' = Ret None /\
     apps (state c') !! 0%nat = Some Demo.fresh_app).
Proof.
  split; [|split]; (split; [vm_compute; discriminate|]); intros c' E.
  - assert (Hr : exists r, main c' = Ret r).
    { vm_compute in E. injection E as <-. by eexists. }
    destruct Hr as [r Hr].
    destruct (CheckIsInstalled_runs_which Demo.os_exec _
                (Demo.checking Demo.exits7) c' 0%nat Demo.fresh_app r
                eq_refl eq_refl eq_refl E Hr)
      as (-> & _).
    exact Hr.
  - assert (Hr : exists r, main c' = Ret r).
    { vm_compute in E. injection E as <-. by eexists. }
    destruct Hr as [r Hr].
    destruct (CheckIsInstalled_runs_which Demo.os_exec _
                (Demo.checking Demo.missing) c' 0%nat Demo.fresh_app r
                eq_refl eq_refl eq_refl E Hr)
      as (-> & _).
    exact Hr.
  - assert (Hr : exists r, main c' = Ret r).
    { vm_compute in E. injection E as <-. by eexists. }
    destruct Hr as [r Hr].
    destruct (CheckIsInstalled_runs_which Demo.os_exec _
                (Demo.checking Demo.there) c' 0%nat Demo.fresh_app r
                eq_refl eq_refl eq_refl E Hr)
      as (-> & Hsame & _).
    split; [exact Hr|exact Hsame].
Defined.

(** In the configurations of [Demo] the watcher is the only worker. *)
Lemma Demo_others (j : nat) (g : prog unit) :
  j <> 0%nat -> [asyncWait 0%nat] !! j = Some g -> bystander 0%nat 0%nat g.
Proof. intros Hj Hl. destruct j as [|j]; [done|]. by destruct j. Defined.



(** X4, at a launch that fails and at a process that exits with
    status 7. *)
Lemma Run_returns_the_watchers_pair_witness :
  (final (run Demo.os_exec (Run 0%nat None None None)
              (Demo.fresh Demo.missing))
   = Returned (mkExitCodeOrError 0 (Some Demo.no_such_file)) /\
   spawned (run Demo.os_exec (Run 0%nat None None None)
                (Demo.fresh Demo.missing)) = []) /\
  (exec Demo.os_exec Demo.run_to_the_end (Demo.running Demo.exits7)
   <> None /\
   forall c',
     exec Demo.os_exec Demo.run_to_the_end (Demo.running Demo.exits7)
     = Some c' ->
     main c' = Ret (mkExitCodeOrError 7 None) /\
     apps (state c') !! 0%nat ≫= exitCodeOrError
     = Some (mkExitCodeOrError 7 None)).
Proof.
  destruct (Run_returns_the_watchers_pair Demo.os_exec 0%nat Demo.fresh_app
              None None None) as [Halone Hbeside].
  split.
  - pose proof (Halone (Demo.fresh Demo.missing) eq_refl) as H.
    split; [exact (f_equal final H)|exact (f_equal spawned H)].
  - split; [vm_compute; discriminate|]. intros c' E.
    assert (Hr : main c' = Ret (mkExitCodeOrError 7 None)).
    { vm_compute in E. by injection E as <-. }
    split; [exact Hr|].
    destruct (Hbeside (Demo.running Demo.exits7) eq_refl eq_refl eq_refl)
      as [_ Hevery].
    destruct (Hevery Demo.run_to_the_end c' _ E Hr) as (_ & Hcached & _).
    exact Hcached.
Defined.


(** C6, at a launch that fails, and at the composition scheduled beside
    the watcher of a process that exits with status 7. *)
Lemma Run_is_Start_then_Wait_witness :
  final (run Demo.os_exec (Run 0%nat None None None) (Demo.fresh Demo.missing))
  = Returned (mkExitCodeOrError 0 (Some Demo.no_such_file)) /\
  exists c' c2',
    exec Demo.os_exec Demo.run_to_the_end (Demo.running Demo.exits7) = Some c' /\
    exec Demo.os_exec Demo.run_to_the_end
      (mkConfig (Start_then_Wait 0%nat None None None) []
                (Demo.fresh Demo.exits7) []) = Some c2' /\
    main c2' = Ret (mkExitCodeOrError 7 None) /\
    main c' = Ret (mkExitCodeOrError 7 None).
Proof.
  destruct (Run_is_Start_then_Wait Demo.os_exec 0%nat None None None)
    as (_ & Hrun & Hevery).
  split; [exact (f_equal final (Hrun (Demo.fresh Demo.missing)))|].
  pose proof (Hevery Demo.run_to_the_end (Demo.running Demo.exits7)
                (mkConfig (Start_then_Wait 0%nat None None None) []
                          (Demo.fresh Demo.exits7) [])
                eq_refl eq_refl eq_refl eq_refl eq_refl) as H.
  assert (E1 : exists c',
             exec Demo.os_exec Demo.run_to_the_end (Demo.running Demo.exits7)
             = Some c').
  { vm_compute. by eexists. }
  assert (E2 : exists c2',
             exec Demo.os_exec Demo.run_to_the_end
               (mkConfig (Start_then_Wait 0%nat None None None) []
                         (Demo.fresh Demo.exits7) []) = Some c2').
  { vm_compute. by eexists. }
  destruct E1 as [c' E1]. destruct E2 as [c2' E2].
  rewrite E1, E2 in H. destruct H as (_ & _ & _ & Hret).
  assert (Hr2 : main c2' = Ret (mkExitCodeOrError 7 None)).
  { vm_compute in E2. by injection E2 as <-. }
  exists c', c2'. split; [done|]. split; [done|]. split; [exact Hr2|].
  by apply Hret.
Defined.

(** The configurations of [Demo] with their watcher about to run. *)
Lemma Demo_attended {R} (p : prog R) (ws : list (prog unit)) (o : Demo.script) :
  bystander 0%nat 0%nat p ->
  Forall (bystander 0%nat 0%nat) ws ->
  attended 0%nat Demo.started_app 0%nat 0%nat []
           (mkConfig p (asyncWait 0%nat :: ws) (Demo.started o) []) W0.
Proof.
  intros Hp Hws. constructor; try done.
  intros [|j] g Hj Hl; [done|]. cbn in Hl.
  rewrite Forall_lookup in Hws. by eapply Hws.
Defined.


